(** * Lichess analyzer backend: evaluation deltas, move categories,
      PGN comment evaluations, the cloud-eval retry loop and the game
      analysis pipeline.

    Shallow embedding of [backend/models.py], [backend/analyzer.py],
    [backend/pgn_parser.py], [backend/game_stats.py] and the functions
    [parse_pgn_moves] and [fetch_cloud_eval] of [backend/lichess_api.py].

    Conventions.
    - A Python [int] is a [Z] (unbounded); [Optional[int]] is [option Z].
      Reading an integer from text and writing one as text raise beyond
      4300 digits, the default limit of CPython 3.11.
    - A Python [str] is a [list ascii]; a character is a code point below
      256, classified as Python classifies it ([str.isspace], [\s], [\d] on
      Unicode strings).
    - Code that may raise returns a [result]; [try]/[except] is written
      out with [try_except].
    - A binary64 float is a dyadic number [m * 2^e] or a special value;
      conversions and products round to nearest, ties to even, as IEEE 754
      and CPython do.
    - The remote service is an oracle of responses; [asyncio.gather] is an
      event loop whose runs are lists of steps.
    - The chess library is an interface, [ChessLib]; each of its
      functions that can raise returns a [result]. *)

From Stdlib Require Import ZArith List String Ascii Bool Lia Permutation.
From Stdlib Require Import DecimalString.
From stdpp Require Import base list.
Import ListNotations.
Local Open Scope Z_scope.

(** ** Data model ([backend/models.py]) *)

Definition str := list ascii.

(** A string literal as a Python string. *)
Definition L (s : string) : str := list_ascii_of_string s.

Record CloudEval := mkCloudEval {
  fen : str;
  cp : option Z;      (* centipawns *)
  mate : option Z;    (* mate in N moves *)
  depth : Z;
  nodes : Z;
  pv : list str       (* principal variation *)
}.

Record Player := mkPlayer {
  username : str;
  rating : option Z
}.

Record GameData := mkGameData {
  gd_game_id : str;
  gd_white : Player;
  gd_black : Player;
  gd_pgn : str;
  gd_opening : option str;
  gd_result : str;
  gd_moves : list str   (* SAN notation moves *)
}.

Inductive Side := white | black.

Inductive Category := accurate | good | inaccuracy | mistake | blunder.

(** ** [backend/analyzer.py]: the categorizer and the delta calculator *)

Definition categorize_move (delta_cp delta_mate : option Z) : Category :=
  match delta_mate with
  | Some dm =>
      if dm <? 0 then blunder
      else if dm >? 0 then good
      else accurate
  | None =>
      match delta_cp with
      | None => accurate
      | Some dc =>
          let abs_delta := Z.abs dc in
          if abs_delta <? 10 then accurate
          else if abs_delta <? 50 then good
          else if abs_delta <? 100 then inaccuracy
          else if abs_delta <? 300 then mistake
          else blunder
      end
  end.

(** [x or 0] on an [Optional[int]]: [None] and [0] are both falsy. *)
Definition or_zero (x : option Z) : Z :=
  match x with
  | Some v => if v =? 0 then 0 else v
  | None => 0
  end.

Definition is_not_None {A} (x : option A) : bool :=
  match x with Some _ => true | None => false end.

Definition calculate_evaluation_delta
    (before_eval after_eval : CloudEval) (is_white_turn : bool)
    : option Z * option Z :=
  if is_not_None (mate before_eval) || is_not_None (mate after_eval) then
    let before_mate := mate before_eval in
    let after_mate := mate after_eval in
    match before_mate, after_mate with
    | None, Some am => (None, Some am)
    | Some _, None => (None, Some (-999))
    | Some bm, Some am => (None, Some (am - bm))
    | None, None => (None, None)
    end
  else
    let before_cp := or_zero (cp before_eval) in
    let after_cp := or_zero (cp after_eval) in
    let delta_cp :=
      if is_white_turn then after_cp - before_cp else before_cp - after_cp in
    (Some delta_cp, None).

(** Severity order of the five labels. *)
Definition severity (c : Category) : Z :=
  match c with
  | accurate => 0 | good => 1 | inaccuracy => 2 | mistake => 3 | blunder => 4
  end.

(** ** Python text primitives on code points below 256 *)

Definition code (c : ascii) : Z := Z.of_N (N_of_ascii c).

Definition between (lo hi : Z) (c : ascii) : bool :=
  (lo <=? code c) && (code c <=? hi).

(** [str.isspace] and the regular expression class [\s]. *)
Definition is_space (c : ascii) : bool :=
  between 9 13 c || between 28 32 c || (code c =? 133) || (code c =? 160).

(** The class [\d] and the digits [int] and [float] accept. *)
Definition is_digit (c : ascii) : bool := between 48 57 c.

Definition digit_val (c : ascii) : Z := code c - 48.

(** [str.isalpha] of one character. *)
Definition is_alpha (c : ascii) : bool :=
  between 65 90 c || between 97 122 c || (code c =? 170) || (code c =? 181)
  || (code c =? 186) || between 192 214 c || between 216 246 c
  || between 248 255 c.

(** [str.isupper] of one character. *)
Definition is_upper (c : ascii) : bool :=
  between 65 90 c || between 192 214 c || between 216 222 c.

Definition is_char (a : ascii) (c : ascii) : bool := Ascii.eqb a c.

Definition newline : ascii := "010"%char.

(** [str.lower] of one character. *)
Definition lower_char (c : ascii) : ascii :=
  if is_upper c then ascii_of_N (N_of_ascii c + 32) else c.

Definition lower (s : str) : str := map lower_char s.

Fixpoint lstrip_by (p : ascii -> bool) (s : str) : str :=
  match s with
  | c :: s' => if p c then lstrip_by p s' else s
  | [] => []
  end.

Definition rstrip_by (p : ascii -> bool) (s : str) : str :=
  rev (lstrip_by p (rev s)).

(** [s.strip()] *)
Definition strip (s : str) : str := rstrip_by is_space (lstrip_by is_space s).

Fixpoint startswith (s prefix : str) : bool :=
  match prefix, s with
  | [], _ => true
  | p :: prefix', c :: s' => Ascii.eqb p c && startswith s' prefix'
  | _ :: _, [] => false
  end.

(** [needle in s] *)
Fixpoint contains (needle s : str) : bool :=
  startswith s needle ||
  match s with
  | [] => false
  | _ :: s' => contains needle s'
  end.

(** [s.split(sep)] for a one-character separator: the last field is
    accumulated in [cur], in reverse. *)
Fixpoint split_on_from (sep : ascii) (cur : str) (s : str) : list str :=
  match s with
  | [] => [rev cur]
  | c :: s' =>
      if Ascii.eqb c sep then rev cur :: split_on_from sep [] s'
      else split_on_from sep (c :: cur) s'
  end.

Definition split_on (sep : ascii) (s : str) : list str := split_on_from sep [] s.

(** [s.split()]: fields separated by runs of whitespace, none empty. *)
Fixpoint split_ws_from (cur : str) (s : str) : list str :=
  match s with
  | [] => match cur with [] => [] | _ => [rev cur] end
  | c :: s' =>
      if is_space c then
        match cur with
        | [] => split_ws_from [] s'
        | _ => rev cur :: split_ws_from [] s'
        end
      else split_ws_from (c :: cur) s'
  end.

Definition split_ws (s : str) : list str := split_ws_from [] s.

(** The decimal digits of an integer. *)
Definition str_of_int (n : Z) : str :=
  L (DecimalString.NilZero.string_of_int (Z.to_int n)).

(** [sys.get_int_max_str_digits()]: the longest run of digits that [int]
    reads and that [str] writes (the default of CPython 3.11). *)
Definition int_max_str_digits : Z := 4300.

(** ** Exceptions *)

Inductive ExnKind :=
| ValueError | OverflowError | IndexError | UnboundLocalError
| HTTPStatusError | TransportError.

Record Exn := mkExn { kind : ExnKind; message : str }.

Inductive result (A : Type) :=
| Return (a : A)
| Raise (e : Exn).
Arguments Return {A} a.
Arguments Raise {A} e.

Definition bind {A B} (x : result A) (f : A -> result B) : result B :=
  match x with
  | Return a => f a
  | Raise e => Raise e
  end.

(** [try: body  except Exception as e: handler(e)] *)
Definition try_except {A} (body : result A) (handler : Exn -> result A)
    : result A :=
  match body with
  | Return a => Return a
  | Raise e => handler e
  end.

Notation "x <- c1 ;; c2" := (bind c1 (fun x => c2))
  (at level 100, c1 at next level, right associativity).

(** [str(n)] of an integer, as an f-string writes it: an integer of more
    than [int_max_str_digits] digits raises. *)
Definition int_text (n : Z) : result str :=
  if 10 ^ int_max_str_digits <=? Z.abs n then
    Raise (mkExn ValueError
      (L "Exceeds the limit (4300 digits) for integer string conversion; use sys.set_int_max_str_digits() to increase the limit"))
  else Return (str_of_int n).

(** ** Numbers from text: [int(s)] and [float(s)], and binary64 *)

(** The whitespace [int] and [float] skip at both ends of their argument:
    that of [str.isspace] without the separators U+001C to U+001F. *)
Definition is_num_space (c : ascii) : bool :=
  between 9 13 c || (code c =? 32) || (code c =? 133) || (code c =? 160).

Definition num_strip (s : str) : str :=
  rstrip_by is_num_space (lstrip_by is_num_space s).

(** A run of digits with single underscores between digits; gives the
    value and the number of digits. *)
Fixpoint py_digits (s : str) (acc : Z) (n : Z) (after_underscore : bool)
    : option (Z * Z) :=
  match s with
  | [] => if after_underscore then None else Some (acc, n)
  | c :: s' =>
      if is_digit c then py_digits s' (10 * acc + digit_val c) (n + 1) false
      else if is_char "_" c && negb after_underscore then py_digits s' acc n true
      else None
  end.

Definition py_digitpart (s : str) : option (Z * Z) :=
  match s with
  | c :: _ => if is_digit c then py_digits s 0 0 false else None
  | [] => None
  end.

(** An optional sign: [true] when negative. *)
Definition take_sign (s : str) : bool * str :=
  match s with
  | c :: s' =>
      if is_char "-" c then (true, s')
      else if is_char "+" c then (false, s')
      else (false, s)
  | [] => (false, [])
  end.

Definition apply_sign (neg : bool) (v : Z) : Z := if neg then - v else v.

(** [int(s)] in base 10; [None] stands for the [ValueError], which a
    text of more than [int_max_str_digits] digits raises as well. *)
Definition py_int (s : str) : option Z :=
  let (neg, body) := take_sign (num_strip s) in
  match py_digitpart body with
  | Some (v, n) =>
      if int_max_str_digits <? n then None else Some (apply_sign neg v)
  | None => None
  end.

(** A binary64 value: the dyadic [m * 2^e], an infinity or a NaN.  The
    sign of a zero is not kept; nothing here observes it. *)
Inductive pyfloat :=
| Fin (m e : Z)
| Inf (neg : bool)
| NaN.

(** The binary64 nearest to [n / d] ([0 < d]), ties to even; beyond the
    largest finite value it is an infinity, below the smallest normal
    value the spacing is [2^-1074]. *)
Definition b64_of_ratio (n d : Z) : pyfloat :=
  if n =? 0 then Fin 0 0 else
  let a := Z.abs n in
  let l := Z.log2 a - Z.log2 d in
  let above := if 0 <=? l then d * 2 ^ l <=? a else d <=? a * 2 ^ (- l) in
  let l' := if above then l else l - 1 in
  let e := Z.max (l' - 52) (-1074) in
  let num := if 0 <=? e then a else a * 2 ^ (- e) in
  let den := if 0 <=? e then d * 2 ^ e else d in
  let q := num / den in
  let r := num mod den in
  let q' := if 2 * r <? den then q
            else if den <? 2 * r then q + 1
            else if Z.even q then q else q + 1 in
  if (971 <? e) || ((e =? 971) && (q' =? 2 ^ 53)) then Inf (n <? 0)
  else Fin (apply_sign (n <? 0) q') e.

(** [float(n)] of an integer; overflow raises. *)
Definition float_of_int (n : Z) : result pyfloat :=
  match b64_of_ratio n 1 with
  | Inf _ => Raise (mkExn OverflowError (L "int too large to convert to float"))
  | f => Return f
  end.

(** The product of two floats, rounded once. *)
Definition float_mul (x y : pyfloat) : pyfloat :=
  match x, y with
  | NaN, _ | _, NaN => NaN
  | Inf a, Inf b => Inf (xorb a b)
  | Inf a, Fin m _ => if m =? 0 then NaN else Inf (xorb a (m <? 0))
  | Fin m _, Inf b => if m =? 0 then NaN else Inf (xorb (m <? 0) b)
  | Fin m1 e1, Fin m2 e2 =>
      let m := m1 * m2 in
      let e := e1 + e2 in
      if 0 <=? e then b64_of_ratio (m * 2 ^ e) 1 else b64_of_ratio m (2 ^ (- e))
  end.

(** [int(x)] of a float: truncation toward zero; an infinity or a NaN
    raises. *)
Definition int_of_float (x : pyfloat) : option Z :=
  match x with
  | Fin m e => Some (if 0 <=? e then m * 2 ^ e else Z.quot m (2 ^ (- e)))
  | Inf _ | NaN => None
  end.

Fixpoint split_at_first (p : ascii -> bool) (s : str) : str * option str :=
  match s with
  | [] => ([], None)
  | c :: s' =>
      if p c then ([], Some s')
      else let (a, b) := split_at_first p s' in (c :: a, b)
  end.

(** The mantissa [int . frac] as a numerator and a count of fraction
    digits. *)
Definition py_mantissa (s : str) : option (Z * Z) :=
  match split_at_first (is_char ".") s with
  | (ip, None) =>
      match py_digitpart ip with Some (v, _) => Some (v, 0) | None => None end
  | (ip, Some fp) =>
      match ip, fp with
      | [], [] => None
      | [], _ =>
          match py_digitpart fp with Some (f, k) => Some (f, k) | None => None end
      | _, [] =>
          match py_digitpart ip with Some (v, _) => Some (v, 0) | None => None end
      | _, _ =>
          match py_digitpart ip, py_digitpart fp with
          | Some (v, _), Some (f, k) => Some (v * 10 ^ k + f, k)
          | _, _ => None
          end
      end
  end.

Definition py_exponent (s : option str) : option Z :=
  match s with
  | None => Some 0
  | Some t =>
      let (neg, body) := take_sign t in
      match py_digitpart body with
      | Some (v, _) => Some (apply_sign neg v)
      | None => None
      end
  end.

Definition is_e (c : ascii) : bool := is_char "e" c || is_char "E" c.

Definition str_eqb (a b : str) : bool :=
  (length a =? length b)%nat && startswith a b.

(** [float(s)]; [None] stands for the [ValueError].  The number of
    digits is not limited. *)
Definition py_float (s : str) : option pyfloat :=
  let (neg, body) := take_sign (num_strip s) in
  let word := lower body in
  if str_eqb word (L "inf") || str_eqb word (L "infinity") then Some (Inf neg)
  else if str_eqb word (L "nan") then Some NaN
  else
    let (ms, es) := split_at_first is_e body in
    match py_mantissa ms, py_exponent es with
    | Some (n, k), Some x =>
        let sn := apply_sign neg n in
        let p := x - k in
        Some (if 0 <=? p then b64_of_ratio (sn * 10 ^ p) 1
              else b64_of_ratio sn (10 ^ (- p)))
    | _, _ => None
    end.

(** ** Regular expressions: the backtracking matcher of Python's [re]

    The constructors cover what the patterns of the modelled functions
    use.  Every pattern has at most one capturing group, so a match carries
    at most one captured text.  Alternatives are tried in order and the
    first success wins, as in [re]: a greedy repetition tries one more
    round first, a lazy one tries to stop first.  A round of a repetition
    has to consume text (every repeated sub-pattern below does). *)

Inductive re :=
| Eps                                  (* the empty pattern *)
| Chr (p : ascii -> bool)              (* one character of a class *)
| Seq (r1 r2 : re)
| Alt (r1 r2 : re)
| Star (greedy : bool) (r : re)        (* r* and r*? *)
| Group (r : re)                       (* ( r ) *)
| Ahead (r : re)                       (* (?= r ) *)
| Eos.                                 (* $ *)

(** A match is run against the text [s] that is left, with the captured
    text [g] so far, and hands what it leaves to the continuation [k]. *)
Definition Matcher (R : Type) : Type :=
  str -> option str -> (str -> option str -> option R) -> option R.

(** The rounds of a repetition of [body]; [fuel] bounds their number by
    the length of the text. *)
Fixpoint star_loop {R : Type} (body : Matcher R) (greedy : bool)
    (k : str -> option str -> option R) (fuel : nat) (s : str)
    (g : option str) {struct fuel} : option R :=
  match fuel with
  | O => k s g
  | S fuel' =>
      let again (_ : unit) :=
        body s g (fun s1 g1 =>
          if (length s1 <? length s)%nat
          then star_loop body greedy k fuel' s1 g1
          else None) in
      if greedy then
        match again tt with
        | Some x => Some x
        | None => k s g
        end
      else
        match k s g with
        | Some x => Some x
        | None => again tt
        end
  end.

Fixpoint rmatch (r : re) {R : Type} (s : str) (g : option str)
    (k : str -> option str -> option R) {struct r} : option R :=
  match r with
  | Eps => k s g
  | Chr p =>
      match s with
      | c :: s' => if p c then k s' g else None
      | [] => None
      end
  | Seq r1 r2 => rmatch r1 s g (fun s1 g1 => rmatch r2 s1 g1 k)
  | Alt r1 r2 =>
      match rmatch r1 s g k with
      | Some x => Some x
      | None => rmatch r2 s g k
      end
  | Star greedy r1 =>
      star_loop (fun s1 g1 k1 => rmatch r1 s1 g1 k1) greedy k (length s) s g
  | Group r1 =>
      rmatch r1 s g (fun s1 _ => k s1 (Some (take (length s - length s1) s)))
  | Ahead r1 =>
      match rmatch r1 s g (fun _ _ => Some tt) with
      | Some _ => k s g
      | None => None
      end
  | Eos =>
      match s with
      | [] => k s g
      | [c] => if is_char newline c then k s g else None
      | _ => None
      end
  end.

(** Pattern syntax. *)
Definition lit (a : ascii) : re := Chr (is_char a).
Fixpoint word (s : str) : re :=
  match s with
  | [] => Eps
  | c :: s' => Seq (lit c) (word s')
  end.
Definition plus (r : re) : re := Seq r (Star true r).       (* r+ *)
Definition opt (r : re) : re := Alt r Eps.                   (* r? *)
Definition star (r : re) : re := Star true r.                (* r* *)
Definition lazy_star (r : re) : re := Star false r.          (* r*? *)
Definition ws : re := Chr is_space.                          (* \s *)
Definition dig : re := Chr is_digit.                         (* \d *)
Definition dot : re := Chr (fun c => negb (is_char newline c)). (* . *)
Definition none_of (cs : str) : re :=                        (* [^...] *)
  Chr (fun c => negb (existsb (fun a => is_char a c) cs)).
Fixpoint seqs (rs : list re) : re :=
  match rs with
  | [] => Eps
  | [r] => r
  | r :: rs' => Seq r (seqs rs')
  end.

(** A match: the text it covers, the captured group, and the text after. *)
Record Match := mkMatch { group0 : str; group1 : option str; after : str }.

Definition match_here (p : re) (s : str) : option Match :=
  rmatch p s None
    (fun s1 g => Some (mkMatch (take (length s - length s1) s) g s1)).

(** [re.search(p, s)]: the leftmost match, with the text before it. *)
Fixpoint re_search (p : re) (s : str) : option (str * Match) :=
  match match_here p s with
  | Some m => Some ([], m)
  | None =>
      match s with
      | [] => None
      | c :: s' =>
          match re_search p s' with
          | Some (pre, m) => Some (c :: pre, m)
          | None => None
          end
      end
  end.

(** [re.sub(p, '', s)]: the text outside the successive non-overlapping
    matches.  No pattern below matches the empty text; after an empty
    match the scan moves on by one character. *)
Fixpoint re_sub_empty_from (fuel : nat) (p : re) (s : str) : str :=
  match fuel with
  | O => s
  | S fuel' =>
      match re_search p s with
      | None => s
      | Some (pre, m) =>
          pre ++ match group0 m, after m with
                 | [], [] => []
                 | [], c :: rest => c :: re_sub_empty_from fuel' p rest
                 | _, rest => re_sub_empty_from fuel' p rest
                 end
      end
  end.

Definition re_sub_empty (p : re) (s : str) : str :=
  re_sub_empty_from (S (length s)) p s.

(** [re.findall(p, s)] for a pattern with one group: the captured text of
    each successive match. *)
Fixpoint re_findall_from (fuel : nat) (p : re) (s : str) : list str :=
  match fuel with
  | O => []
  | S fuel' =>
      match re_search p s with
      | None => []
      | Some (_, m) =>
          default [] (group1 m) ::
          match group0 m, after m with
          | [], [] => []
          | [], _ :: rest => re_findall_from fuel' p rest
          | _, rest => re_findall_from fuel' p rest
          end
      end
  end.

Definition re_findall (p : re) (s : str) : list str :=
  re_findall_from (S (length s)) p s.

(** ** [backend/pgn_parser.py]: [parse_eval_from_comment] *)

Record PgnEval := mkPgnEval {
  pe_cp : option Z;
  pe_mate : option Z
}.

Definition eval_head : re := Seq (word (L "[%eval")) (plus ws).

(** The pattern "\[%eval\s+cp=(-?\d+)\]" *)
Definition pat_cp : re :=
  seqs [eval_head; word (L "cp="); Group (Seq (opt (lit "-")) (plus dig));
        lit "]"].

(** The pattern for [%eval 0.23] and [%eval 20]: after the head, the group
    is an optional minus, digits, an optional dot and any digits. *)
Definition pat_pawns : re :=
  seqs [eval_head;
        Group (seqs [opt (lit "-"); plus dig; opt (lit "."); star dig]);
        lit "]"].

(** The pattern "\[%eval\s+#(-?\d+)\]" *)
Definition pat_mate : re :=
  seqs [eval_head; lit "#"; Group (Seq (opt (lit "-")) (plus dig)); lit "]"].

(** The pattern "\[%eval\s+#(\+?\d+)\]" *)
Definition pat_mate_plus : re :=
  seqs [eval_head; lit "#"; Group (Seq (opt (lit "+")) (plus dig)); lit "]"].

(** The patterns in the order of [eval_patterns], each with the outcome
    of the test ['#' in pattern]. *)
Definition eval_patterns : list (re * bool) :=
  [(pat_cp, false); (pat_pawns, false); (pat_mate, true);
   (pat_mate_plus, true)].

(** [value.replace('+', '')] *)
Definition remove_plus (s : str) : str :=
  List.filter (fun c => negb (is_char "+" c)) s.

(** The body of the loop for the first pattern that matches: the pair
    [(cp, mate)] it leaves. *)
Definition eval_of_value (is_mate : bool) (value : str)
    : option Z * option Z :=
  if is_mate then
    (None, py_int (remove_plus value))
  else if existsb (is_char ".") value then
    (match py_float value with
     | Some cp_val => int_of_float (float_mul cp_val (Fin 100 0))
     | None => None
     end, None)
  else
    (py_int value, None).

Fixpoint first_eval_match (pats : list (re * bool)) (comment : str)
    : option Z * option Z :=
  match pats with
  | [] => (None, None)
  | (pattern, is_mate) :: pats' =>
      match re_search pattern comment with
      | Some (_, m) => eval_of_value is_mate (default [] (group1 m))
      | None => first_eval_match pats' comment
      end
  end.

Definition parse_eval_from_comment (comment : str) : option PgnEval :=
  match comment with
  | [] => None
  | _ =>
      let (cp, mate) := first_eval_match eval_patterns comment in
      if is_not_None cp || is_not_None mate then Some (mkPgnEval cp mate)
      else None
  end.

(** ** [backend/game_stats.py]: [parse_eval_comment] *)

(** The pattern "\[%eval\s+([^\]]+)\]" *)
Definition pat_eval_any : re :=
  seqs [eval_head; Group (plus (none_of (L "]"))); lit "]"].

Definition parse_eval_comment (comment : str) : option PgnEval :=
  match re_search pat_eval_any comment with
  | None => None
  | Some (_, eval_match) =>
      let eval_str := strip (default [] (group1 eval_match)) in
      if startswith eval_str (L "#") then
        match py_int (drop 1 eval_str) with
        | Some mate_value => Some (mkPgnEval None (Some mate_value))
        | None => None
        end
      else
        match py_float eval_str with
        | Some f =>
            match int_of_float (float_mul f (Fin 100 0)) with
            | Some cp_value => Some (mkPgnEval (Some cp_value) None)
            | None => None
            end
        | None => None
        end
  end.

(** ** The chess library (python-chess), as an interface

    Boards, moves and parsed games belong to the library; so do the
    exceptions its functions raise.  [game.board()] raises for a game
    whose headers name a variant or a position the library does not
    accept, although [read_game] has returned the game. *)

Class ChessLib := {
  Board : Type;
  Move : Type;
  Game : Type;
  new_board : Board;                               (* chess.Board() *)
  parse_san : Board -> str -> result Move;         (* board.parse_san(san) *)
  push : Board -> Move -> Board;                   (* board.push(move) *)
  board_fen : Board -> str;                        (* board.fen() *)
  board_of_fen : str -> result Board;              (* chess.Board(fen) *)
  san : Board -> Move -> result str;               (* board.san(move) *)
  read_game : str -> result (option Game);         (* chess.pgn.read_game *)
  game_board : Game -> result Board;               (* game.board() *)
  mainline : Game -> list Move                     (* moves of game.mainline() *)
}.

(** ** [backend/lichess_api.py]: [parse_pgn_moves] *)

Definition is_empty {A} (l : list A) : bool :=
  match l with [] => true | _ => false end.

(** The loop over [pgn.split('\n')] that collects the move text. *)
Definition collect_move_text (pgn : str) : str :=
  fold_left
    (fun move_text line =>
       let line := strip line in
       if negb (is_empty line) && negb (startswith line (L "["))
       then move_text ++ L " " ++ line
       else move_text)
    (split_on newline pgn) [].

(** A comment in braces, with one level of braces inside: an opening
    brace, characters other than braces, any number of inner brace pairs
    each followed by characters other than braces, a closing brace. *)
Definition pat_braces : re :=
  seqs [lit "{"; star (none_of (L "{}"));
        star (seqs [lit "{"; star (none_of (L "{}")); lit "}";
                    star (none_of (L "{}"))]);
        lit "}"].

(** The pattern "\[[^\]]*\]" *)
Definition pat_brackets : re :=
  seqs [lit "["; star (none_of (L "]")); lit "]"].

(** The pattern "\d+\.\s+(.*?)(?=\s*\d+\.|$)" *)
Definition pat_move_pair : re :=
  seqs [plus dig; lit "."; plus ws; Group (lazy_star dot);
        Ahead (Alt (seqs [star ws; plus dig; lit "."]) Eos)].

Definition result_tokens : list str :=
  [L "1-0"; L "0-1"; L "1/2-1/2"; L "*"].

Definition head_is (p : ascii -> bool) (s : str) : bool :=
  match s with c :: _ => p c | [] => false end.

(** The inner loop of the fallback: the tokens of one match that are
    kept. *)
Fixpoint keep_parts (parts : list str) : list str :=
  match parts with
  | [] => []
  | part :: parts' =>
      if existsb (str_eqb part) result_tokens then keep_parts parts'
      else
        let part := rstrip_by (fun c => is_char "#" c || is_char "+" c) part in
        if negb (is_empty part)
           && negb (startswith part (L "["))
           && negb (startswith part (L "{"))
           && negb (startswith part (L "}"))
           && negb (startswith part (L "%"))
           && negb (existsb (is_char "[") part)
           && negb (existsb (is_char "{") part)
        then
          if negb (is_empty part)
             && (head_is is_alpha part || startswith part (L "O-O")
                 || head_is is_upper part)
          then part :: keep_parts parts'
          else keep_parts parts'
        else keep_parts parts'
  end.

Definition fallback_moves (move_text : str) : list str :=
  flat_map (fun m => keep_parts (split_ws (strip m)))
           (re_findall pat_move_pair move_text).

(** The loop over the main line: the moves appended so far, and whether
    the loop ran to its end ([false]: [board.san] raised). *)
Fixpoint mainline_sans `{ChessLib} (board : Board) (nodes : list Move)
    (moves : list str) : list str * bool :=
  match nodes with
  | [] => (moves, true)
  | move :: nodes' =>
      match san board move with
      | Return san_move =>
          mainline_sans (push board move) nodes' (moves ++ [san_move])
      | Raise _ => (moves, false)
      end
  end.

Definition parse_pgn_moves `{ChessLib} (pgn : str) : list str :=
  let move_text := strip (collect_move_text pgn) in
  let move_text := re_sub_empty pat_braces move_text in
  let move_text := re_sub_empty pat_brackets move_text in
  (* the try block: [moves] keeps what was appended before an exception *)
  let '(moves, returned) :=
    match read_game pgn with
    | Return (Some game) =>
        match game_board game with
        | Return board => mainline_sans board (mainline game) []
        | Raise _ => ([], false)
        end
    | Return None => ([], false)
    | Raise _ => ([], false)
    end in
  if returned then moves
  else moves ++ fallback_moves move_text.

(** ** [backend/lichess_api.py]: [fetch_cloud_eval]

    The remote service is an oracle: the response to the k-th request of a
    call sequence.  A JSON body is an object of the documented shape
    [{fen, knodes, depth, pvs: [{cp?, mate?, moves}]}], every key
    optional.  Bodies of another shape (a list, a [pvs] that is null or
    not a list of objects), on which the parsing after the loop raises
    exceptions of other kinds, are outside this type. *)

Inductive PvField :=
| PvText (s : str)
| PvList (l : list str).

Record PvEntry := mkPvEntry {
  e_cp : option Z;
  e_mate : option Z;
  e_moves : option PvField;
  e_pv : option PvField
}.

Record Payload := mkPayload {
  p_fen : option str;
  p_knodes : option Z;
  p_depth : option Z;
  p_pvs : option (list PvEntry)
}.

Inductive Response :=
| Http (status : Z) (status_error : str) (body : result Payload)
    (* a response; the text of the error [raise_for_status] raises for it;
       what [response.json()] gives *)
| NoResponse (e : Exn).
    (* [client.get] raises *)

(** What a run has done to the outside: requests sent, and the waits of
    [asyncio.sleep] in milliseconds, latest first. *)
Record NetLog := mkNetLog { sent : nat; slept : list Z }.

Definition log0 : NetLog := mkNetLog 0 [].
Definition log_request (l : NetLog) : NetLog := mkNetLog (S (sent l)) (slept l).
Definition log_sleep (ms : Z) (l : NetLog) : NetLog := mkNetLog (sent l) (ms :: slept l).

(** Code that talks to the service: it may raise, and it leaves a log. *)
Definition IO (A : Type) : Type := NetLog -> result A * NetLog.

Definition io_ret {A} (a : A) : IO A := fun log => (Return a, log).

Definition io_bind {A B} (x : IO A) (f : A -> IO B) : IO B :=
  fun log =>
    match x log with
    | (Return a, log') => f a log'
    | (Raise e, log') => (Raise e, log')
    end.

(** [try: body  except Exception as e: handler(e)] *)
Definition io_try {A} (body : IO A) (handler : Exn -> IO A) : IO A :=
  fun log =>
    match body log with
    | (Return a, log') => (Return a, log')
    | (Raise e, log') => handler e log'
    end.

(** [await asyncio.sleep(ms / 1000)] *)
Definition io_sleep (ms : Z) : IO unit := fun log => (Return tt, log_sleep ms log).

Definition is_success (status : Z) : bool := (200 <=? status) && (status <=? 299).

(** The three ways the body of the [try] block ends. *)
Inductive Attempt :=
| Continue (wait_ms : Z)
| Break (data : Payload)
| Throw (e : Exn).

Definition attempt_body (has_token : bool) (max_retries attempt : Z)
    (response : Response) : Attempt :=
  match response with
  | NoResponse e => Throw e
  | Http status status_error body =>
      if status =? 404 then
        Throw (mkExn ValueError
          (L "Cloud eval not available for this position (404) - position may not be evaluated yet"))
      else if status =? 429 then
        if attempt <? max_retries - 1 then
          let wait_ms := if has_token then 500 * (attempt + 1)
                         else 1000 * (2 ^ attempt + 1) in
          (* the first two attempts print [max_retries] *)
          if attempt <? 2 then
            match int_text max_retries with
            | Return _ => Continue wait_ms
            | Raise e => Throw e
            end
          else Continue wait_ms
        else
          match int_text max_retries with
          | Return retries =>
              Throw (mkExn ValueError
                (L "Rate limit exceeded (429) after " ++ retries
                   ++ L " attempts"))
          | Raise e => Throw e
          end
      else if negb (is_success status) then
        Throw (mkExn HTTPStatusError status_error)
      else
        match body with
        | Return data => Break data
        | Raise e => Throw e
        end
  end.

(** How the [for attempt in range(max_retries)] loop ends. *)
Inductive LoopEnd :=
| Broke (data : Payload)
| Exhausted (last_error : option Exn)
| Raised (e : Exn).

Fixpoint attempts_loop (has_token : bool) (max_retries : Z)
    (net : nat -> Response) (attempts : list Z) (last_error : option Exn)
    (log : NetLog) : LoopEnd * NetLog :=
  match attempts with
  | [] => (Exhausted last_error, log)
  | attempt :: rest =>
      let response := net (sent log) in
      let log := log_request log in
      match attempt_body has_token max_retries attempt response with
      | Continue wait_ms =>
          attempts_loop has_token max_retries net rest last_error
            (log_sleep wait_ms log)
      | Break data => (Broke data, log)
      | Throw e =>
          (* both [except] clauses *)
          if attempt <? max_retries - 1 then
            attempts_loop has_token max_retries net rest (Some e)
              (log_sleep (1000 * 2 ^ attempt) log)
          else (Raised e, log)
      end
  end.

(** [range(n)] *)
Definition range (n : Z) : list Z := map Z.of_nat (seq 0 (Z.to_nat n)).

Definition pv_truthy (f : PvField) : bool :=
  match f with
  | PvText s => negb (is_empty s)
  | PvList l => negb (is_empty l)
  end.

(** The parsing of the response after the loop. *)
Definition parse_cloud_eval (fen : str) (depth : Z) (data : Payload)
    : result CloudEval :=
  pvs_data <-
    match p_pvs data with
    | None => Return (mkPvEntry None None None None)
    | Some [] => Raise (mkExn IndexError (L "list index out of range"))
    | Some (entry :: _) => Return entry
    end ;;
  let pv_data :=
    match e_moves pvs_data with
    | Some f => if pv_truthy f then f else default (PvList []) (e_pv pvs_data)
    | None => default (PvList []) (e_pv pvs_data)
    end in
  let pv :=
    match pv_data with
    | PvText s => if negb (is_empty (strip s)) then split_ws s else []
    | PvList l => l
    end in
  let knodes := default 0 (p_knodes data) in
  let nodes := if knodes =? 0 then 0 else knodes * 1000 in
  Return (mkCloudEval (default fen (p_fen data)) (e_cp pvs_data)
            (e_mate pvs_data) (default depth (p_depth data)) nodes pv).

Definition fetch_cloud_eval (has_token : bool) (net : nat -> Response)
    (fen : str) (depth : Z) (max_retries : Z) : IO CloudEval := fun log =>
  match attempts_loop has_token max_retries net (range max_retries) None log with
  | (Raised e, log) => (Raise e, log)
  | (Exhausted (Some last_error), log) =>
      (retries <- int_text max_retries ;;
       Raise (mkExn ValueError
         (L "Failed to fetch cloud eval after " ++ retries
            ++ L " attempts: " ++ message last_error)), log)
  | (Exhausted None, log) =>
      (* [data] was never assigned *)
      (Raise (mkExn UnboundLocalError
         (L "cannot access local variable 'data' where it is not associated with a value")),
       log)
  | (Broke data, log) => (parse_cloud_eval fen depth data, log)
  end.

(** ** [backend/analyzer.py]: [generate_summary] and [analyze_game] *)

(** The quotient of two floats, rounded once; [None] stands for the
    [ZeroDivisionError]. *)
Definition float_div (x y : pyfloat) : option pyfloat :=
  match x, y with
  | _, Fin 0 _ => None
  | NaN, _ | _, NaN => Some NaN
  | Inf _, Inf _ => Some NaN
  | Inf a, Fin m _ => Some (Inf (xorb a (m <? 0)))
  | Fin _ _, Inf _ => Some (Fin 0 0)
  | Fin m1 e1, Fin m2 e2 =>
      let n := apply_sign (m2 <? 0) m1 in
      let d := Z.abs m2 in
      Some (if e2 <=? e1 then b64_of_ratio (n * 2 ^ (e1 - e2)) d
            else b64_of_ratio n (d * 2 ^ (e2 - e1)))
  end.

(** The parts of the summary text.  The text itself (labels, number
    formatting) is not rendered. *)
Inductive DeltaText :=
| DeltaMate (delta_mate : Z)
| DeltaCp (delta_val : pyfloat)
| NoDelta.

Record Summary := mkSummary {
  sum_move : str;
  sum_category : Category;
  sum_delta : DeltaText;
  sum_recommended : option str
}.

Definition generate_summary (move : str) (category : Category)
    (delta_cp delta_mate : option Z) (best_move : option str)
    : result Summary :=
  delta_str <-
    match delta_mate with
    | Some dm =>
        (* the f-string writes [delta_mate] *)
        _ <- int_text dm ;;
        Return (DeltaMate dm)
    | None =>
        match delta_cp with
        | Some dc =>
            (* delta_cp / 100.0 *)
            f <- float_of_int dc ;;
            Return (DeltaCp (default NaN (float_div f (Fin 100 0))))
        | None => Return NoDelta
        end
    end ;;
  let recommended :=
    match best_move with
    | Some b => if negb (is_empty b) && negb (str_eqb b move) then Some b else None
    | None => None
    end in
  Return (mkSummary move category delta_str recommended).

Record MoveEvaluation := mkMoveEvaluation {
  ply : nat;                    (* half-move number (1-based) *)
  move : str;                   (* SAN notation *)
  player : Side;
  before_eval : CloudEval;
  after_eval : CloudEval;
  delta_cp : option Z;
  delta_mate : option Z;
  category : Category;
  best_move : option str;
  summary : Summary
}.

(** [created_at], the time of the clock, is left out. *)
Record AnalysisReport := mkAnalysisReport {
  game_id : str;
  game_data : GameData;
  evaluations : list MoveEvaluation;
  total_moves : Z;
  white_mistakes : Z;
  black_mistakes : Z;
  white_blunders : Z;
  black_blunders : Z
}.

(** Which call sequence a request belongs to: the fetch of the initial
    position, or the fetches of the task of one move. *)
Inductive Task :=
| InitialPosition
| AfterMove (index : nat).

(** The placeholder evaluation of the [except] branches. *)
Definition placeholder (fen : str) : CloudEval :=
  mkCloudEval fen (Some 0) None 0 0 [].

(** One step of the event loop on the tasks of [asyncio.gather]: a task
    enters the semaphore, or a task runs to its end.  The code between two
    [await]s runs without interruption, so a run of the loop is a list of
    such steps; the answers of the service to a task do not depend on the
    other tasks. *)
Inductive Event :=
| Start (index : nat)
| Finish (index : nat).

Record Loop := mkLoop {
  slots : list (option CloudEval);     (* the results, by task index *)
  in_flight : list nat;                (* tasks inside the semaphore *)
  completed_count : nat;
  progress_calls : list (option Z * nat * nat);   (* latest first *)
  first_error : option Exn             (* the exception of a task, if any *)
}.

Definition Side_eqb (a b : Side) : bool :=
  match a, b with
  | white, white | black, black => true
  | _, _ => false
  end.

Definition Category_eqb (a b : Category) : bool := severity a =? severity b.

Definition count_if (f : MoveEvaluation -> bool) (l : list MoveEvaluation) : Z :=
  Z.of_nat (length (List.filter f l)).

Fixpoint all_some {A} (l : list (option A)) : option (list A) :=
  match l with
  | [] => Some []
  | Some x :: l' =>
      match all_some l' with Some xs => Some (x :: xs) | None => None end
  | None :: _ => None
  end.

Section Analyzer.
Context `{ChessLib}.
Variable has_token : bool.                  (* bool(LICHESS_API_TOKEN) *)
Variable net : Task -> nat -> Response.     (* the remote service *)
Variable progress_callback : bool.          (* whether one is given; it returns *)

(** The first loop: the position after each move, [None] where the move
    does not replay. *)
Fixpoint fens_to_eval (board_copy : Board) (moves : list str)
    : list (option str) :=
  match moves with
  | [] => []
  | move_san :: moves' =>
      match parse_san board_copy move_san with
      | Return move =>
          let board_copy := push board_copy move in
          Some (board_fen board_copy) :: fens_to_eval board_copy moves'
      | Raise _ => None :: fens_to_eval board_copy moves'
      end
  end.

Definition max_concurrent : nat := if has_token then 20%nat else 5%nat.

Definition fetch_with_semaphore (fen : option str) (index : nat)
    : IO CloudEval :=
  match fen with
  | None => io_ret (mkCloudEval [] (Some 0) None 0 0 [])
  | Some fen =>
      io_try (fetch_cloud_eval has_token (net (AfterMove index)) fen 15 2)
        (fun e =>
           let error_str := message e in
           if contains (L "429") error_str
              || contains (L "rate limit") (lower error_str)
           then
             io_bind (io_sleep 500) (fun _ =>
             io_try (fetch_cloud_eval has_token (net (AfterMove index)) fen 15 2)
               (fun _ => io_ret (placeholder fen)))
           else io_ret (placeholder fen))
  end.

(** [int((completed_count / total_count) * 100)] *)
Definition progress_percent (completed_count total_count : nat) : option Z :=
  int_of_float
    (float_mul (b64_of_ratio (Z.of_nat completed_count) (Z.of_nat total_count))
               (Fin 100 0)).

Definition is_free (st : Loop) (index : nat) : bool :=
  match slots st !! index with
  | Some None => negb (existsb (Nat.eqb index) (in_flight st))
  | _ => false
  end.

Definition leave (index : nat) (in_flight : list nat) : list nat :=
  List.filter (fun j => negb (Nat.eqb index j)) in_flight.

(** [fetch_with_progress] from the point where its fetch is over. *)
Definition finish (total_count : nat) (index : nat) (fen : option str)
    (st : Loop) : Loop :=
  match fst (fetch_with_semaphore fen index log0) with
  | Return result =>
      let completed_count := S (completed_count st) in
      mkLoop (<[index := Some result]> (slots st))
             (leave index (in_flight st))
             completed_count
             (if progress_callback
              then (progress_percent completed_count total_count,
                    completed_count, total_count) :: progress_calls st
              else progress_calls st)
             (first_error st)
  | Raise e =>
      mkLoop (slots st) (leave index (in_flight st)) (completed_count st)
             (progress_calls st)
             (match first_error st with Some e0 => Some e0 | None => Some e end)
  end.

Definition step (fens : list (option str)) (ev : Event) (st : Loop)
    : option Loop :=
  match ev with
  | Start index =>
      match fens !! index with
      | Some (Some _) =>
          if is_free st index
             && (length (in_flight st) <? max_concurrent)%nat
          then Some (mkLoop (slots st) (index :: in_flight st)
                            (completed_count st) (progress_calls st)
                            (first_error st))
          else None
      | _ => None
      end
  | Finish index =>
      match fens !! index with
      | Some (Some fen) =>
          match slots st !! index with
          | Some None =>
              if existsb (Nat.eqb index) (in_flight st)
              then Some (finish (length fens) index (Some fen) st)
              else None
          | _ => None
          end
      | Some None =>
          if is_free st index
          then Some (finish (length fens) index None st)
          else None
      | None => None
      end
  end.

(** The loop runs until a task raises or the events are over. *)
Fixpoint run (fens : list (option str)) (evs : list Event) (st : Loop)
    : option Loop :=
  match first_error st, evs with
  | Some _, _ => Some st
  | None, [] => Some st
  | None, ev :: evs' =>
      match step fens ev st with
      | Some st' => run fens evs' st'
      | None => None
      end
  end.

(** [await asyncio.gather(...)]: the exception of the first task that
    raises, else the results by task index once every task is over;
    [None] when [schedule] is not a run of the loop to that point. *)
Definition gather (fens : list (option str)) (schedule : list Event)
    : option (result (list CloudEval) * Loop) :=
  match run fens schedule (mkLoop (replicate (length fens) None) [] 0 [] None) with
  | Some st =>
      match first_error st with
      | Some e => Some (Raise e, st)
      | None =>
          match all_some (slots st) with
          | Some results => Some (Return results, st)
          | None => None
          end
      end
  | None => None
  end.

(** The [try] block of the second loop for one move: the board as it
    leaves it, and the record or the exception. *)
Definition analyze_move (board : Board) (previous_eval : CloudEval)
    (is_white : bool) (ply : nat) (move_san : str) (after_eval : CloudEval)
    : Board * result MoveEvaluation :=
  match parse_san board move_san with
  | Raise e => (board, Raise e)
  | Return move =>
      let board := push board move in
      let '(delta_cp, delta_mate) :=
        calculate_evaluation_delta previous_eval after_eval is_white in
      let category := categorize_move delta_cp delta_mate in
      let best_move :=
        match pv after_eval with
        | [] => None
        | first :: _ =>
            match (temp_board <- board_of_fen (board_fen board) ;;
                   best_move_obj <- parse_san temp_board first ;;
                   san temp_board best_move_obj) with
            | Return b => Some b
            | Raise _ => None          (* except: pass *)
            end
        end in
      (board,
       summary <- generate_summary move_san category delta_cp delta_mate best_move ;;
       Return (mkMoveEvaluation ply move_san
                 (if is_white then white else black)
                 previous_eval after_eval delta_cp delta_mate category
                 best_move summary))
  end.

(** The second loop, over [enumerate(zip(moves, after_evals), start=1)]. *)
Fixpoint analyze_moves (board : Board) (previous_eval : CloudEval)
    (is_white : bool) (ply : nat) (items : list (str * CloudEval))
    (evaluations : list MoveEvaluation) : list MoveEvaluation :=
  match items with
  | [] => evaluations
  | (move_san, after_eval) :: items' =>
      match analyze_move board previous_eval is_white ply move_san after_eval with
      | (board, Return eval_obj) =>
          analyze_moves board after_eval (negb is_white) (S ply) items'
            (evaluations ++ [eval_obj])
      | (board, Raise _) =>
          (* except Exception: continue *)
          analyze_moves board previous_eval is_white (S ply) items' evaluations
      end
  end.

Definition is_mistake (c : Category) : bool :=
  Category_eqb c mistake || Category_eqb c blunder.

Definition make_report (game_data : GameData)
    (evaluations : list MoveEvaluation) : AnalysisReport :=
  mkAnalysisReport
    (gd_game_id game_data) game_data evaluations
    (Z.of_nat (length evaluations))
    (count_if (fun e => Side_eqb (player e) white && is_mistake (category e)) evaluations)
    (count_if (fun e => Side_eqb (player e) black && is_mistake (category e)) evaluations)
    (count_if (fun e => Side_eqb (player e) white && Category_eqb (category e) blunder) evaluations)
    (count_if (fun e => Side_eqb (player e) black && Category_eqb (category e) blunder) evaluations).

(** The evaluation of the initial position. *)
Definition fetch_initial_eval (initial_fen : str) : result CloudEval :=
  try_except
    (fst (fetch_cloud_eval has_token (net InitialPosition) initial_fen 15 2 log0))
    (fun _ => Return (placeholder initial_fen)).

(** [analyze_game]; [None] when [schedule] is not a run of the event
    loop on the tasks of this game. *)
Definition analyze_game (game_data : GameData) (schedule : list Event)
    : option (result AnalysisReport) :=
  let board := new_board in
  let initial_fen := board_fen board in
  let fens := fens_to_eval new_board (gd_moves game_data) in
  match gather fens schedule with
  | None => None
  | Some (gathered, _) =>
      Some (initial_eval <- fetch_initial_eval initial_fen ;;
            after_evals <- gathered ;;
            let evaluations :=
              analyze_moves new_board initial_eval true 1
                (zip (gd_moves game_data) after_evals) [] in
            Return (make_report game_data evaluations))
  end.
End Analyzer.

(** ** A small chess library, for the examples

    A position is the list of the moves played; its key is their text.  The
    moves that replay are those of a short opening book, which agrees with
    the rules of chess on the positions it lists. *)

Definition opening_book : list (list str * list str) :=
  [([], [L "e4"; L "d4"; L "Nf3"]);
   ([L "e4"], [L "e5"; L "c5"]);
   ([L "e4"; L "e5"], [L "Nf3"; L "Bc4"])].

Definition list_str_eqb (a b : list str) : bool :=
  (length a =? length b)%nat && forallb (fun p => str_eqb (fst p) (snd p)) (zip a b).

Definition book_moves (position : list str) : list str :=
  match List.find (fun entry => list_str_eqb (fst entry) position) opening_book with
  | Some entry => snd entry
  | None => []
  end.

Definition join_spaces (l : list str) : str :=
  concat (map (fun m => m ++ L " ") l).

Definition MiniChess : ChessLib := {|
  Board := list str;
  Move := str;
  Game := list str;
  new_board := [];
  parse_san := fun board text =>
    if existsb (str_eqb text) (book_moves board) then Return text
    else Raise (mkExn ValueError (L "invalid san: " ++ text));
  push := fun board move => board ++ [move];
  board_fen := join_spaces;
  board_of_fen := fun key => Return (split_ws key);
  san := fun _ move => Return move;
  read_game := fun text =>
    if forallb is_space text then Return None
    else Raise (mkExn ValueError (L "unsupported"));
  game_board := fun _ => Return [];
  mainline := fun game => game
|}.

(** A service that has no evaluation for any position. *)
Definition net_404 (_ : Task) (_ : nat) : Response :=
  Http 404 (L "Client error '404 Not Found'") (Raise (mkExn ValueError [])).

(** A run of the event loop in which the tasks finish in the given order,
    one after the other. *)
Definition schedule_of_order (fens : list (option str)) (order : list nat)
    : list Event :=
  flat_map (fun i =>
              match fens !! i with
              | Some (Some _) => [Start i; Finish i]
              | _ => [Finish i]
              end) order.

Definition skipped_game : GameData :=
  mkGameData (L "abcd1234") (mkPlayer (L "w") None) (mkPlayer (L "b") None)
             [] None (L "*") [L "e4"; L "Zz9"; L "e5"].

(** The evaluation the task of one move ends with. *)
Definition fetched_eval (has_token : bool) (net : Task -> nat -> Response)
    (fen : option str) (index : nat) : CloudEval :=
  match fst (fetch_with_semaphore has_token net fen index log0) with
  | Return ev => ev
  | Raise _ => placeholder []
  end.

(** What the event loop keeps true: no task has raised, and a filled slot
    holds the evaluation of its own task. *)
Definition loop_ok (has_token : bool) (net : Task -> nat -> Response)
    (fens : list (option str)) (st : Loop) : Prop :=
  first_error st = None
  /\ length (slots st) = length fens
  /\ forall i ev fen, slots st !! i = Some (Some ev) -> fens !! i = Some fen ->
       ev = fetched_eval has_token net fen i.

(** The evaluation [analyze_game] starts from. *)
Definition initial_eval_of (has_token : bool) (net : Task -> nat -> Response)
    (initial_fen : str) : CloudEval :=
  match fetch_initial_eval has_token net initial_fen with
  | Return ev => ev
  | Raise _ => placeholder initial_fen
  end.

(** The report of a game when the evaluation of task [i] is paired with
    move [i]. *)
Definition report_of `{ChessLib} (has_token : bool)
    (net : Task -> nat -> Response) (game_data : GameData) : AnalysisReport :=
  let fens := fens_to_eval new_board (gd_moves game_data) in
  make_report game_data
    (analyze_moves new_board
       (initial_eval_of has_token net (board_fen new_board)) true 1
       (zip (gd_moves game_data)
            (imap (fun i fen => fetched_eval has_token net fen i) fens))
       []).

(** "White plays the odd indices", as a property of a report. *)
Definition white_plays_odd (report : AnalysisReport) : Prop :=
  Forall (fun r => (Nat.odd (ply r) = true -> player r = white)
                   /\ (Nat.even (ply r) = true -> player r = black))
         (evaluations report).

Definition three_move_game : GameData :=
  mkGameData (L "abcd1234") (mkPlayer (L "w") None) (mkPlayer (L "b") None)
             [] None (L "*") [L "e4"; L "e5"; L "Nf3"].

(** A service that answers every request with the same evaluation. *)
Definition net_cp18 (_ : Task) (_ : nat) : Response :=
  Http 200 []
    (Return (mkPayload None (Some 5) (Some 30)
               (Some [mkPvEntry (Some 18) None (Some (PvText (L "e7e5 g1f3"))) None]))).

(** ** The texts of evaluation comments *)

(** The comment [[%eval <value>]]. *)
Definition annotation (value : str) : str := L "[%eval " ++ value ++ L "]".

(** The number a run of digits writes. *)
Definition number (ds : str) : Z :=
  fold_left (fun acc c => 10 * acc + digit_val c) ds 0.

Definition is_digits (ds : str) : bool :=
  negb (is_empty ds) && forallb is_digit ds.

(** A decimal number: an optional minus, digits, and optionally a dot
    followed by any digits. *)
Definition decimal_text (neg : bool) (ip : str) (fp : option str) : str :=
  (if neg then L "-" else []) ++ ip
  ++ match fp with Some f => L "." ++ f | None => [] end.

(** The value of a decimal number, as a fraction. *)
Definition decimal_num (neg : bool) (ip : str) (fp : option str) : Z :=
  apply_sign neg (number (ip ++ default [] fp)).
Definition decimal_den (fp : option str) : Z :=
  10 ^ Z.of_nat (length (default [] fp)).

(** From the words of the specification: a number [n / d] of pawns is
    converted to centipawns by multiplying by 100 and truncating to an
    integer.  The arithmetic is that of the rational numbers. *)
Definition centipawns_of_pawns (n d : Z) : Z := Z.quot (100 * n) d.

Definition cp_eval (c : option Z) : option PgnEval :=
  match c with
  | Some v => Some (mkPgnEval (Some v) None)
  | None => None
  end.

(** The claim that a parser reads every decimal value as pawns. *)
Definition reads_pawns (parser : str -> option PgnEval) : Prop :=
  forall neg ip fp,
    is_digits ip = true -> forallb is_digit (default [] fp) = true ->
    parser (annotation (decimal_text neg ip fp))
    = Some (mkPgnEval
              (Some (centipawns_of_pawns (decimal_num neg ip fp) (decimal_den fp)))
              None).

(** The float [m * 2^e] is the number [n / d]. *)
Definition float_is (m e n d : Z) : Prop :=
  if 0 <=? e then m * 2 ^ e * d = n else m * d = n * 2 ^ (- e).

(** [n / d] is a binary64 number: a float holds it without rounding. *)
Definition is_binary64 (n d : Z) : Prop :=
  exists m e, Z.abs m < 2 ^ 53 /\ -1074 <= e <= 971 /\ float_is m e n d.

(** The decimal values that binary64 arithmetic converts to centipawns
    without rounding: the value and its hundredfold are binary64
    numbers. *)
Definition converts_exactly (neg : bool) (ip : str) (fp : option str) : Prop :=
  is_binary64 (decimal_num neg ip fp) (decimal_den fp)
  /\ is_binary64 (100 * decimal_num neg ip fp) (decimal_den fp).

(** A run of digits that [int] reads: one of at most
    [int_max_str_digits] digits. *)
Definition int_reads (ds : str) : bool :=
  is_digits ds && (Z.of_nat (length ds) <=? int_max_str_digits).

(** The text left of a repetition of a class stops it. *)
Definition stops (p : ascii -> bool) (rest : str) : bool :=
  match rest with
  | [] => true
  | c :: _ => negb (p c)
  end.

(** The pattern [r] matches exactly the text [v] when [rest] follows and
    what comes after the pattern accepts [rest]. *)
Definition takes (r : re) (v rest : str) : Prop :=
  forall (R : Type) (k : str -> option str -> option R) g x,
    k rest g = Some x -> rmatch r (v ++ rest) g k = Some x.

Definition no_bracket (s : str) : bool :=
  forallb (fun c => negb (is_char "[" c)) s.

Definition no_space (s : str) : bool :=
  forallb (fun c => negb (is_space c)) s.

(** ** Notions for the further properties *)

(** The event loop before any task has started. *)
Definition loop_start (fens : list (option str)) : Loop :=
  mkLoop (replicate (length fens) None) [] 0 [] None.

(** The number of tasks that have left their result. *)
Definition filled (slots : list (option CloudEval)) : nat :=
  length (List.filter is_not_None slots).

(** The calls of the progress callback after [completed] tasks of
    [total], latest first. *)
Definition calls_until (completed total : nat) : list (option Z * nat * nat) :=
  map (fun c => (progress_percent c total, c, total)) (rev (seq 1 completed)).

(** What the progress calls and the counter are after any run. *)
Definition progress_ok (progress_callback : bool) (total : nat) (st : Loop)
    : Prop :=
  completed_count st = filled (slots st)
  /\ progress_calls st
     = if progress_callback then calls_until (completed_count st) total else [].

(** ** [backend/game_stats.py]: categories and statistics from the
    evaluations embedded in a PGN

    The dictionaries [{"cp": .., "mate": ..}] of [parse_eval_comment] are
    the records [PgnEval]. *)

(** The label of a category, as the dictionaries carry it. *)
Definition category_name (c : Category) : str :=
  match c with
  | accurate => L "accurate"
  | good => L "good"
  | inaccuracy => L "inaccuracy"
  | mistake => L "mistake"
  | blunder => L "blunder"
  end.

Definition categorize_move_from_evals (before_eval after_eval : option PgnEval)
    : Category :=
  match before_eval, after_eval with
  | Some before, Some after =>
      let before_cp := pe_cp before in
      let after_cp := pe_cp after in
      if is_not_None (pe_mate before) || is_not_None (pe_mate after) then accurate
      else
        match before_cp, after_cp with
        | Some bc, Some ac =>
            let delta_cp := ac - bc in
            let abs_delta := Z.abs delta_cp in
            if abs_delta <? 50 then accurate
            else if abs_delta <? 100 then good
            else if abs_delta <? 200 then inaccuracy
            else if abs_delta <? 300 then mistake
            else blunder
        | _, _ => accurate
        end
  | _, _ => accurate
  end.

(** One dictionary of the list of [parse_pgn_with_evals]; a [None] in
    [en_ply] or [en_category] is a missing key. *)
Record EvalEntry := mkEvalEntry {
  en_ply : option Z;
  en_move : option str;
  en_before_eval : option PgnEval;
  en_after_eval : option PgnEval;
  en_category : option str
}.

(** The interface of the chess library for the comments of a parsed
    game: [game.comment], and the move and comment of each node of
    [game.mainline()]. *)
Class PgnComments `{ChessLib} := {
  game_comment : Game -> str;
  mainline_nodes : Game -> list (Move * str)
}.

(** [parse_eval_comment(comment)] under the guard
    [comment and '[%eval' in comment]. *)
Definition eval_of_comment (comment : str) : option PgnEval :=
  if negb (is_empty comment) && contains (L "[%eval") comment
  then parse_eval_comment comment
  else None.

(** The loop over [game.mainline()]; it ends at the first move that
    [board.san] refuses, with the entries made so far. *)
Fixpoint mainline_entries `{PgnComments} (board : Board) (ply : Z)
    (nodes : list (Move * str)) (evaluations : list EvalEntry)
    : list EvalEntry :=
  match nodes with
  | [] => evaluations
  | (move, comment) :: nodes' =>
      let ply := ply + 1 in
      let before_eval :=
        if ply >? 1 then
          match last evaluations with
          | Some previous => en_after_eval previous
          | None => None
          end
        else None in
      let after_eval := eval_of_comment comment in
      let category := categorize_move_from_evals before_eval after_eval in
      match san board move with
      | Raise _ => evaluations
      | Return text =>
          mainline_entries (push board move) ply nodes'
            (evaluations ++
             [mkEvalEntry (Some ply) (Some text) before_eval after_eval
                (Some (category_name category))])
      end
  end.

Definition parse_pgn_with_evals `{PgnComments} (pgn_text : str)
    : list EvalEntry :=
  match read_game pgn_text with
  | Raise _ => []
  | Return None => []
  | Return (Some game) =>
      match game_board game with
      | Raise _ => []          (* raised before any entry is appended *)
      | Return board =>
          let evaluations :=
            match eval_of_comment (game_comment game) with
            | Some eval_data =>
                [mkEvalEntry (Some 0) None (Some eval_data) (Some eval_data)
                   (Some (L "accurate"))]
            | None => []
            end in
          mainline_entries board 0 (mainline_nodes game) evaluations
      end
  end.

(** The overall assessments; the source writes them in Korean. *)
Inductive Assessment :=
| excellent       (* average accuracy of 90 or more *)
| fair            (* of 80 or more *)
| average         (* of 70 or more *)
| unstable        (* below 70, more blunders than mistakes *)
| needs_work      (* below 70 otherwise *)
| not_available.  (* "N/A": no move *)

Record CategoryCounts := mkCategoryCounts {
  n_accurate : Z;
  n_good : Z;
  n_inaccuracy : Z;
  n_mistake : Z;
  n_blunder : Z
}.

Record PlayerStats := mkPlayerStats {
  ps_total_moves : Z;
  ps_counts : CategoryCounts;
  ps_average_accuracy : pyfloat;
  ps_overall_assessment : Assessment
}.

Record GameStats := mkGameStats {
  gs_white : PlayerStats;
  gs_black : PlayerStats;
  gs_total_moves : Z
}.

(** [x >= n] for a float and an integer. *)
Definition float_ge_int (x : pyfloat) (n : Z) : bool :=
  match x with
  | Fin m e => if 0 <=? e then n <=? m * 2 ^ e else n * 2 ^ (- e) <=? m
  | Inf neg => negb neg
  | NaN => false
  end.

(** [round(x, 1)]: the float nearest to the decimal with one digit
    nearest to [x], ties to the even digit. *)
Definition round_1 (x : pyfloat) : pyfloat :=
  match x with
  | Fin m e =>
      let num := if 0 <=? e then 10 * m * 2 ^ e else 10 * m in
      let den := if 0 <=? e then 1 else 2 ^ (- e) in
      let q := num / den in
      let r := num mod den in
      let k := if 2 * r <? den then q
               else if den <? 2 * r then q + 1
               else if Z.even q then q else q + 1 in
      b64_of_ratio k 10
  | _ => x
  end.

(** The entries of one player: a positive ply, odd for White. *)
Definition is_player_entry (is_white : bool) (eval_data : EvalEntry) : bool :=
  (default 0 (en_ply eval_data) >? 0)
  && Bool.eqb (default 0 (en_ply eval_data) mod 2 =? 1) is_white.

(** [category_counts[category] += 1] when the category is a key. *)
Definition count_category (counts : CategoryCounts) (category : str)
    : CategoryCounts :=
  if str_eqb category (L "accurate") then
    mkCategoryCounts (n_accurate counts + 1) (n_good counts)
      (n_inaccuracy counts) (n_mistake counts) (n_blunder counts)
  else if str_eqb category (L "good") then
    mkCategoryCounts (n_accurate counts) (n_good counts + 1)
      (n_inaccuracy counts) (n_mistake counts) (n_blunder counts)
  else if str_eqb category (L "inaccuracy") then
    mkCategoryCounts (n_accurate counts) (n_good counts)
      (n_inaccuracy counts + 1) (n_mistake counts) (n_blunder counts)
  else if str_eqb category (L "mistake") then
    mkCategoryCounts (n_accurate counts) (n_good counts)
      (n_inaccuracy counts) (n_mistake counts + 1) (n_blunder counts)
  else if str_eqb category (L "blunder") then
    mkCategoryCounts (n_accurate counts) (n_good counts)
      (n_inaccuracy counts) (n_mistake counts) (n_blunder counts + 1)
  else counts.

Definition calculate_player_stats (evaluations : list EvalEntry)
    (is_white : bool) : PlayerStats :=
  let player_evaluations := List.filter (is_player_entry is_white) evaluations in
  let total_moves := Z.of_nat (length player_evaluations) in
  if total_moves =? 0 then
    mkPlayerStats 0 (mkCategoryCounts 0 0 0 0 0) (Fin 0 0) not_available
  else
    let category_counts :=
      fold_left
        (fun counts eval_data =>
           count_category counts (default (L "accurate") (en_category eval_data)))
        player_evaluations (mkCategoryCounts 0 0 0 0 0) in
    let accurate_moves := n_accurate category_counts + n_good category_counts in
    let average_accuracy :=
      float_mul (b64_of_ratio accurate_moves total_moves) (Fin 100 0) in
    let blunder_count := n_blunder category_counts in
    let mistake_count := n_mistake category_counts in
    let overall :=
      if float_ge_int average_accuracy 90 then excellent
      else if float_ge_int average_accuracy 80 then fair
      else if float_ge_int average_accuracy 70 then average
      else if blunder_count >? mistake_count then unstable
      else needs_work in
    mkPlayerStats total_moves category_counts (round_1 average_accuracy) overall.

Definition calculate_game_stats (evaluations : list EvalEntry) : GameStats :=
  let white_stats := calculate_player_stats evaluations true in
  let black_stats := calculate_player_stats evaluations false in
  mkGameStats white_stats black_stats
    (ps_total_moves white_stats + ps_total_moves black_stats).

(** The count of one label in the statistics of a player, and the
    entries that carry a label ([eval_data.get("category", "accurate")]). *)
Definition count_of (c : Category) (counts : CategoryCounts) : Z :=
  match c with
  | accurate => n_accurate counts
  | good => n_good counts
  | inaccuracy => n_inaccuracy counts
  | mistake => n_mistake counts
  | blunder => n_blunder counts
  end.

Definition has_label (c : Category) (eval_data : EvalEntry) : bool :=
  str_eqb (default (L "accurate") (en_category eval_data)) (category_name c).

(** The entries of a move: a ply above zero. *)
Definition played (eval_data : EvalEntry) : bool :=
  default 0 (en_ply eval_data) >? 0.

Definition how_many {A} (f : A -> bool) (l : list A) : Z :=
  Z.of_nat (length (List.filter f l)).

(** The number of leading moves of a line that [board.san] writes. *)
Fixpoint san_prefix `{ChessLib} (board : Board) (moves : list Move) : nat :=
  match moves with
  | [] => 0
  | move :: moves' =>
      match san board move with
      | Return _ => S (san_prefix (push board move) moves')
      | Raise _ => 0
      end
  end.

(** The number of moves entered for a game: those before the first that
    [board.san] refuses, and none when [game.board()] raises. *)
Definition moves_entered `{PgnComments} (game : Game) : nat :=
  match game_board game with
  | Return board => san_prefix board (map fst (mainline_nodes game))
  | Raise _ => 0%nat
  end.

(** An entry of a move after the entry [previous]: its evaluation before
    the move is the one after the previous entry (nothing at ply 1), and
    its category is the one of its two evaluations. *)
Definition linked (previous : option EvalEntry) (eval_data : EvalEntry) : Prop :=
  en_before_eval eval_data
  = (if default 0 (en_ply eval_data) >? 1
     then match previous with
          | Some p => en_after_eval p
          | None => None
          end
     else None)
  /\ en_category eval_data
     = Some (category_name
               (categorize_move_from_evals (en_before_eval eval_data)
                  (en_after_eval eval_data))).

Fixpoint chained (previous : option EvalEntry) (entries : list EvalEntry) : Prop :=
  match entries with
  | [] => True
  | eval_data :: entries' =>
      linked previous eval_data /\ chained (Some eval_data) entries'
  end.

(** ** A small reader of annotated games, for the examples

    The move text is a sequence of tokens and of comments in braces; a
    token that ends with a dot is a move number, any other is a move; a
    comment belongs to the move before it, or to the game when no move
    comes before it.  A move is written as it was read, except [??]. *)

Record NotedGame := mkNotedGame {
  ng_comment : str;
  ng_nodes : list (str * str)
}.

Definition is_move_token (token : str) : bool :=
  match last token with
  | Some c => negb (is_char "." c)
  | None => false
  end.

Definition add_moves (text : str) (game : NotedGame) : NotedGame :=
  mkNotedGame (ng_comment game)
    (ng_nodes game
     ++ map (fun token => (token, [])) (List.filter is_move_token (split_ws text))).

Definition add_comment (comment : str) (game : NotedGame) : NotedGame :=
  match last (ng_nodes game) with
  | Some (move, _) =>
      mkNotedGame (ng_comment game)
        (take (length (ng_nodes game) - 1) (ng_nodes game) ++ [(move, comment)])
  | None => mkNotedGame comment []
  end.

Definition read_noted_game (text : str) : NotedGame :=
  match split_on "{" text with
  | [] => mkNotedGame [] []
  | first :: pieces =>
      fold_left
        (fun game piece =>
           match split_on "}" piece with
           | comment :: rest => add_moves (concat rest) (add_comment (strip comment) game)
           | [] => game
           end)
        pieces (add_moves first (mkNotedGame [] []))
  end.

Definition NotedChess : ChessLib := {|
  Board := list str;
  Move := str;
  Game := NotedGame;
  new_board := [];
  parse_san := fun _ text => Return text;
  push := fun board move => board ++ [move];
  board_fen := join_spaces;
  board_of_fen := fun key => Return (split_ws key);
  san := fun _ move =>
    if str_eqb move (L "??") then Raise (mkExn ValueError (L "illegal move"))
    else Return move;
  read_game := fun text =>
    if forallb is_space text then Return None
    else Return (Some (read_noted_game text));
  game_board := fun _ => Return [];
  mainline := fun game => map fst (ng_nodes game)
|}.

Definition NotedComments : @PgnComments NotedChess := {|
  game_comment := ng_comment : @Game NotedChess -> str;
  mainline_nodes := ng_nodes : @Game NotedChess -> list (@Move NotedChess * str)
|}.

Definition noted_pgn : str :=
  L "{ [%eval 0.15] } 1. e4 { [%eval 0.3] } 1... e5 { [%eval 0.25] } 2. Nf3 { [%eval 2.5] } 2... Nc6 { [%eval #3] }".

Definition noted_entries : list EvalEntry :=
  @parse_pgn_with_evals NotedChess NotedComments noted_pgn.

(** ** [backend/lichess_api.py]: [extract_game_id] *)

(** The class "[a-zA-Z0-9]". *)
Definition is_alnum (c : ascii) : bool :=
  between 97 122 c || between 65 90 c || between 48 57 c.

Definition alnum : re := Chr is_alnum.

(** The counted repetitions [r{n}] and [r{lo,hi}]; the second takes as
    many rounds as it can, and gives them back one by one. *)
Fixpoint rep (n : nat) (r : re) : re :=
  match n with
  | O => Eps
  | S n' => Seq r (rep n' r)
  end.

Fixpoint rep_upto (n : nat) (r : re) : re :=
  match n with
  | O => Eps
  | S n' => opt (Seq r (rep_upto n' r))
  end.

Definition rep_range (lo hi : nat) (r : re) : re :=
  Seq (rep lo r) (rep_upto (hi - lo) r).

Definition site : re := word (L "lichess.org/").

(** "/game/export/" and a group of 4 to 20 characters of the class *)
Definition pat_export : re :=
  Seq (word (L "/game/export/")) (Group (rep_range 4 20 alnum)).

(** the site, a group of 8 characters, then a slash, the end or a [Z] *)
Definition pat_id8 : re :=
  seqs [site; Group (rep 8 alnum); Alt (lit "/") (Alt Eos (lit "Z"))].

(** the site, a group of 12 characters, then a slash or the end *)
Definition pat_id12 : re :=
  seqs [site; Group (rep 12 alnum); Alt (lit "/") Eos].

(** the site, a group of 4 to 20 characters, then a slash or the end *)
Definition pat_id_range : re :=
  seqs [site; Group (rep_range 4 20 alnum); Alt (lit "/") Eos].

(** the site and a group of one or more characters *)
Definition pat_id_any : re := Seq site (Group (plus alnum)).

(** the whole text: 4 to 20 characters *)
Definition pat_bare : re := Seq (rep_range 4 20 alnum) Eos.

Definition excluded_paths : list str :=
  [L "game"; L "export"; L "api"; L "study"; L "training"; L "black";
   L "white"; L "analysis"].

Definition not_excluded (game_id : str) : bool :=
  negb (existsb (str_eqb game_id) excluded_paths).

Definition length_in_range (game_id : str) : bool :=
  (4 <=? length game_id)%nat && (length game_id <=? 20)%nat.

(** One stage: [re.search], the group, and the test on it. *)
Definition stage (pattern : re) (accept : str -> bool) (game_url : str)
    : option str :=
  match re_search pattern game_url with
  | Some (_, m) =>
      let game_id := default [] (group1 m) in
      if accept game_id then Some game_id else None
  | None => None
  end.

(** The message of the [ValueError] starts with this line; the lines
    after it repeat the text given. *)
Definition invalid_url (game_url : str) : Exn :=
  mkExn ValueError (L "Invalid Lichess game URL or ID: " ++ game_url).

Definition extract_game_id (game_url : str) : result str :=
  let game_url := strip game_url in
  match stage pat_export not_excluded game_url with
  | Some game_id => Return game_id
  | None =>
  match stage pat_id8 not_excluded game_url with
  | Some game_id => Return game_id
  | None =>
  match stage pat_id12 not_excluded game_url with
  | Some game_id => Return game_id
  | None =>
  match stage pat_id_range
          (fun game_id => not_excluded game_id && length_in_range game_id)
          game_url with
  | Some game_id => Return game_id
  | None =>
  match stage pat_id_any
          (fun game_id => not_excluded game_id && length_in_range game_id)
          game_url with
  | Some game_id => Return game_id
  | None =>
      if is_not_None (match_here pat_bare game_url) then Return game_url
      else Raise (invalid_url game_url)
  end end end end end.

(** The texts a pattern covers, and the patterns without a group. *)
Fixpoint lang (r : re) (v : str) : Prop :=
  match r with
  | Eps => v = []
  | Chr p => exists c, v = [c] /\ p c = true
  | Seq r1 r2 => exists v1 v2, v = v1 ++ v2 /\ lang r1 v1 /\ lang r2 v2
  | Alt r1 r2 => lang r1 v \/ lang r2 v
  | Star _ r1 => exists vs, v = concat vs /\ Forall (lang r1) vs
  | Group r1 => lang r1 v
  | Ahead _ => v = []
  | Eos => v = []
  end.

Fixpoint group_free (r : re) : bool :=
  match r with
  | Group _ => false
  | Seq r1 r2 | Alt r1 r2 => group_free r1 && group_free r2
  | Star _ r1 | Ahead r1 => group_free r1
  | Eps | Chr _ | Eos => true
  end.

(** ** Games that replay, and evaluations of ordinary size *)

(** Every move of the list is accepted by [board.parse_san] in turn. *)
Fixpoint replays `{ChessLib} (board : Board) (moves : list str) : Prop :=
  match moves with
  | [] => True
  | move_san :: moves' =>
      match parse_san board move_san with
      | Return move => replays (push board move) moves'
      | Raise _ => False
      end
  end.

(** Centipawns that [float] takes whatever they are subtracted from, and
    a mate count whose differences an f-string writes. *)
Definition ordinary (ev : CloudEval) : Prop :=
  Z.abs (or_zero (cp ev)) < 2 ^ 1022
  /\ Z.abs (default 0 (mate ev)) < 2 ^ 1022.

(** The board before move [i] of the list: the moves before it that
    replay have been played. *)
Fixpoint board_before `{ChessLib} (board : Board) (moves : list str) (i : nat)
    : Board :=
  match i, moves with
  | S i', move_san :: moves' =>
      match parse_san board move_san with
      | Return move => board_before (push board move) moves' i'
      | Raise _ => board_before board moves' i'
      end
  | _, _ => board
  end.

(** The position after move [i], when the move replays. *)
Definition position_after `{ChessLib} (moves : list str) (i : nat)
    : option str :=
  match moves !! i with
  | Some move_san =>
      let board := board_before new_board moves i in
      match parse_san board move_san with
      | Return move => Some (board_fen (push board move))
      | Raise _ => None
      end
  | None => None
  end.

(** The nearest integer to [num / den], ties to the even one: the
    rounding inside [b64_of_ratio]. *)
Definition round_half_even (num den : Z) : Z :=
  let q := num / den in
  let r := num mod den in
  if 2 * r <? den then q
  else if den <? 2 * r then q + 1
  else if Z.even q then q else q + 1.

(** ** [backend/lichess_api.py]: [fetch_game_data], from the PGN text to
    the game data (the part of the function after the download) *)

Definition quote : ascii := "034"%char.

(** The pattern of a tag line: the bracket and the name of the tag, a
    space, a quote, a group of one or more characters other than a quote,
    a quote and the closing bracket. *)
Definition pat_tag (name : str) : re :=
  seqs [word ("["%char :: name ++ [" "%char; quote]);
        Group (plus (none_of [quote]));
        word [quote; "]"%char]].

(** [re.search] of the pattern and [match.group(1)]. *)
Definition tag_value (name line : str) : option str :=
  match re_search (pat_tag name) line with
  | Some (_, m) => Some (default [] (group1 m))
  | None => None
  end.

(** The local variables of the loop over the lines. *)
Record Headers := mkHeaders {
  white_name : str;
  black_name : str;
  white_rating : option Z;
  black_rating : option Z;
  opening : option str;
  result_word : str
}.

(** [int(value) if value != '?' else None], under [except ValueError:
    pass]: a value that is not a number leaves the rating as it was. *)
Definition read_rating (old : option Z) (value : str) : option Z :=
  if negb (str_eqb value (L "?")) then
    match py_int value with
    | Some n => Some n
    | None => old
    end
  else None.

Definition result_of (result_str : str) : str :=
  if str_eqb result_str (L "1-0") then L "white"
  else if str_eqb result_str (L "0-1") then L "black"
  else if str_eqb result_str (L "1/2-1/2") then L "draw"
  else L "*".

(** The body of the loop over [pgn.split('\n')]. *)
Definition read_tag_line (h : Headers) (line : str) : Headers :=
  let line := strip line in
  if startswith line (L "[White ") then
    match tag_value (L "White") line with
    | Some v => mkHeaders v (black_name h) (white_rating h) (black_rating h)
                  (opening h) (result_word h)
    | None => h
    end
  else if startswith line (L "[Black ") then
    match tag_value (L "Black") line with
    | Some v => mkHeaders (white_name h) v (white_rating h) (black_rating h)
                  (opening h) (result_word h)
    | None => h
    end
  else if startswith line (L "[WhiteElo ") then
    match tag_value (L "WhiteElo") line with
    | Some v => mkHeaders (white_name h) (black_name h)
                  (read_rating (white_rating h) v) (black_rating h)
                  (opening h) (result_word h)
    | None => h
    end
  else if startswith line (L "[BlackElo ") then
    match tag_value (L "BlackElo") line with
    | Some v => mkHeaders (white_name h) (black_name h) (white_rating h)
                  (read_rating (black_rating h) v) (opening h) (result_word h)
    | None => h
    end
  else if startswith line (L "[Opening ") then
    match tag_value (L "Opening") line with
    | Some v => mkHeaders (white_name h) (black_name h) (white_rating h)
                  (black_rating h) (Some v) (result_word h)
    | None => h
    end
  else if startswith line (L "[Result ") then
    match tag_value (L "Result") line with
    | Some v => mkHeaders (white_name h) (black_name h) (white_rating h)
                  (black_rating h) (opening h) (result_of v)
    | None => h
    end
  else h.

Definition read_headers (pgn : str) : Headers :=
  fold_left read_tag_line (split_on newline pgn)
    (mkHeaders (L "Unknown") (L "Unknown") None None None (L "*")).

Definition game_data_of_pgn `{ChessLib} (game_id pgn : str) : GameData :=
  let moves := parse_pgn_moves pgn in
  let h := read_headers pgn in
  mkGameData game_id
    (mkPlayer (white_name h) (white_rating h))
    (mkPlayer (black_name h) (black_rating h))
    pgn (opening h) (result_word h) moves.

(** What the loop keeps true of its variables. *)
Definition name_ok (name : str) : Prop :=
  name <> [] /\ existsb (is_char quote) name = false.

Definition headers_ok (h : Headers) : Prop :=
  name_ok (white_name h) /\ name_ok (black_name h)
  /\ (forall o, opening h = Some o -> name_ok o)
  /\ In (result_word h) [L "white"; L "black"; L "draw"; L "*"].

(** A tag line as a PGN writes it, and a text as the lines of it. *)
Definition tag_line (tag : str * str) : str :=
  "["%char :: fst tag ++ [" "%char; quote] ++ snd tag ++ [quote; "]"%char].

Fixpoint join_lines (lines : list str) : str :=
  match lines with
  | [] => []
  | [line] => line
  | line :: lines' => line ++ newline :: join_lines lines'
  end.

(** The value of the last tag of a name. *)
Fixpoint last_value (name : str) (tags : list (str * str)) : option str :=
  match tags with
  | [] => None
  | (key, value) :: tags' =>
      match last_value name tags' with
      | Some v => Some v
      | None => if str_eqb key name then Some value else None
      end
  end.

(** A tag with a name without whitespace and a value that is not empty
    and holds no quote and no line break. *)
Definition tag_ok (tag : str * str) : Prop :=
  no_space (fst tag) = true
  /\ snd tag <> []
  /\ forallb (fun c => negb (is_char quote c) && negb (is_char newline c))
       (snd tag) = true.

(** A line of the move text: no line break in it, and no bracket at its
    start. *)
Definition plain_line (line : str) : Prop :=
  startswith (strip line) (L "[") = false
  /\ forallb (fun c => negb (is_char newline c)) line = true.

(** * Properties *)

(** ** The delta calculator and the categorizer *)

Lemma or_zero_default (x : option Z) : or_zero x = default 0 x.
Proof.
  destruct x as [v|]; simpl; [|reflexivity].
  destruct (Z.eqb_spec v 0); congruence.
Qed.

Lemma delta_no_mate (before_eval after_eval : CloudEval) (is_white_turn : bool) :
  mate before_eval = None -> mate after_eval = None ->
  calculate_evaluation_delta before_eval after_eval is_white_turn =
  (Some (if is_white_turn
         then default 0 (cp after_eval) - default 0 (cp before_eval)
         else default 0 (cp before_eval) - default 0 (cp after_eval)),
   None).
Proof.
  intros Hb Ha. unfold calculate_evaluation_delta.
  rewrite Hb, Ha. simpl. now rewrite !or_zero_default.
Qed.

(** C1. When neither evaluation carries a mate value, the mate delta is
    null and the centipawn delta is [after.cp - before.cp] for a White
    mover and [before.cp - after.cp] for a Black mover, a missing centipawn
    field counting as 0; with [before.cp = 20] and [after.cp = 50] this is
    30 for White and -30 for Black. *)
Theorem centipawn_delta_by_mover (before_eval after_eval : CloudEval) :
  mate before_eval = None -> mate after_eval = None ->
  calculate_evaluation_delta before_eval after_eval true =
    (Some (default 0 (cp after_eval) - default 0 (cp before_eval)), None)
  /\ calculate_evaluation_delta before_eval after_eval false =
    (Some (default 0 (cp before_eval) - default 0 (cp after_eval)), None)
  /\ (cp before_eval = Some 20 -> cp after_eval = Some 50 ->
      calculate_evaluation_delta before_eval after_eval true = (Some 30, None)
      /\ calculate_evaluation_delta before_eval after_eval false = (Some (-30), None)).
Proof.
  intros Hb Ha.
  rewrite !delta_no_mate by assumption.
  split; [reflexivity|]. split; [reflexivity|].
  intros Hb20 Ha50. rewrite Hb20, Ha50. split; reflexivity.
Qed.

Lemma centipawn_delta_by_mover_witness :
  let before_eval := mkCloudEval [] (Some 20) None 0 0 [] in
  let after_eval := mkCloudEval [] (Some 50) None 0 0 [] in
  calculate_evaluation_delta before_eval after_eval true = (Some 30, None)
  /\ calculate_evaluation_delta before_eval after_eval false = (Some (-30), None).
Proof.
  intros before_eval after_eval.
  apply (centipawn_delta_by_mover before_eval after_eval); reflexivity.
Defined.

(** C2. When at least one evaluation carries a mate value, the centipawn
    delta is null and the mate delta is [after.mate] when only the second
    has one, the sentinel -999 when only the first has one, and
    [after.mate - before.mate] when both have one; the mover's colour does
    not matter. *)
Theorem mate_delta_cases (before_eval after_eval : CloudEval)
    (is_white_turn : bool) :
  (forall am, mate before_eval = None -> mate after_eval = Some am ->
     calculate_evaluation_delta before_eval after_eval is_white_turn
     = (None, Some am))
  /\ (forall bm, mate before_eval = Some bm -> mate after_eval = None ->
     calculate_evaluation_delta before_eval after_eval is_white_turn
     = (None, Some (-999)))
  /\ (forall bm am, mate before_eval = Some bm -> mate after_eval = Some am ->
     calculate_evaluation_delta before_eval after_eval is_white_turn
     = (None, Some (am - bm)))
  /\ (mate before_eval <> None \/ mate after_eval <> None ->
     fst (calculate_evaluation_delta before_eval after_eval is_white_turn) = None
     /\ calculate_evaluation_delta before_eval after_eval true
        = calculate_evaluation_delta before_eval after_eval false).
Proof.
  unfold calculate_evaluation_delta.
  repeat split; intros.
  - rewrite H, H0. reflexivity.
  - rewrite H, H0. reflexivity.
  - rewrite H, H0. reflexivity.
  - destruct (mate before_eval), (mate after_eval); simpl; try reflexivity.
    destruct H; congruence.
  - destruct (mate before_eval), (mate after_eval); simpl; try reflexivity.
    destruct H; congruence.
Qed.

Lemma mate_delta_cases_witness :
  calculate_evaluation_delta (mkCloudEval [] None None 0 0 [])
    (mkCloudEval [] None (Some 3) 0 0 []) true = (None, Some 3)
  /\ calculate_evaluation_delta (mkCloudEval [] None (Some 2) 0 0 [])
    (mkCloudEval [] (Some 15) None 0 0 []) false = (None, Some (-999))
  /\ calculate_evaluation_delta (mkCloudEval [] None (Some 5) 0 0 [])
    (mkCloudEval [] None (Some 3) 0 0 []) true = (None, Some (-2))
  /\ calculate_evaluation_delta (mkCloudEval [] None (Some 5) 0 0 [])
    (mkCloudEval [] None (Some 3) 0 0 []) true
    = calculate_evaluation_delta (mkCloudEval [] None (Some 5) 0 0 [])
        (mkCloudEval [] None (Some 3) 0 0 []) false.
Proof.
  split; [|split; [|split]].
  - pose proof (mate_delta_cases (mkCloudEval [] None None 0 0 [])
                  (mkCloudEval [] None (Some 3) 0 0 []) true)
      as (Hnew & _).
    apply (Hnew 3); reflexivity.
  - pose proof (mate_delta_cases (mkCloudEval [] None (Some 2) 0 0 [])
                  (mkCloudEval [] (Some 15) None 0 0 []) false)
      as (_ & Hlost & _).
    apply (Hlost 2); reflexivity.
  - pose proof (mate_delta_cases (mkCloudEval [] None (Some 5) 0 0 [])
                  (mkCloudEval [] None (Some 3) 0 0 []) true)
      as (_ & _ & Hboth & _).
    apply (Hboth 5 3); reflexivity.
  - pose proof (mate_delta_cases (mkCloudEval [] None (Some 5) 0 0 [])
                  (mkCloudEval [] None (Some 3) 0 0 []) true)
      as (_ & _ & _ & Hcolour).
    apply Hcolour. left. discriminate.
Defined.

(** The bucket of a centipawn delta, by its magnitude. *)
Lemma categorize_cp (dc : Z) :
  categorize_move (Some dc) None =
  if Z.abs dc <? 10 then accurate
  else if Z.abs dc <? 50 then good
  else if Z.abs dc <? 100 then inaccuracy
  else if Z.abs dc <? 300 then mistake
  else blunder.
Proof. reflexivity. Qed.

Ltac case_ltb :=
  repeat match goal with
         | |- context [?a <? ?b] => destruct (Z.ltb_spec a b)
         | |- context [?a >? ?b] => rewrite (Z.gtb_ltb a b)
         end.

(** C3. [categorize_move]: with a mate delta, blunder below 0, good above
    0, accurate at 0; without one, by the magnitude of the centipawn
    delta: accurate below 10, good below 50, inaccuracy below 100, mistake
    below 300, blunder from 300 on, so that the severity never decreases
    as the magnitude grows; accurate when both are null. *)
Theorem categorize_move_table :
  (forall dc dm, dm < 0 -> categorize_move dc (Some dm) = blunder)
  /\ (forall dc dm, dm > 0 -> categorize_move dc (Some dm) = good)
  /\ (forall dc, categorize_move dc (Some 0) = accurate)
  /\ (forall dc, Z.abs dc < 10 -> categorize_move (Some dc) None = accurate)
  /\ (forall dc, 10 <= Z.abs dc < 50 -> categorize_move (Some dc) None = good)
  /\ (forall dc, 50 <= Z.abs dc < 100 ->
       categorize_move (Some dc) None = inaccuracy)
  /\ (forall dc, 100 <= Z.abs dc < 300 ->
       categorize_move (Some dc) None = mistake)
  /\ (forall dc, 300 <= Z.abs dc -> categorize_move (Some dc) None = blunder)
  /\ (forall d1 d2, Z.abs d1 <= Z.abs d2 ->
       severity (categorize_move (Some d1) None)
       <= severity (categorize_move (Some d2) None))
  /\ categorize_move None None = accurate.
Proof.
  repeat split; intros; rewrite ?categorize_cp; unfold categorize_move;
    case_ltb; simpl; try reflexivity; try lia.
Qed.

Lemma categorize_move_table_witness :
  categorize_move None (Some (-999)) = blunder
  /\ categorize_move None (Some 3) = good
  /\ categorize_move (Some (-9)) None = accurate
  /\ categorize_move (Some 49) None = good
  /\ categorize_move (Some (-99)) None = inaccuracy
  /\ categorize_move (Some 299) None = mistake
  /\ categorize_move (Some (-300)) None = blunder
  /\ severity (categorize_move (Some 49) None)
     <= severity (categorize_move (Some (-50)) None).
Proof.
  pose proof categorize_move_table as
    (Hneg & Hpos & _ & H10 & H50 & H100 & H300 & Hblunder & Hmono & _).
  repeat apply conj.
  - apply Hneg; lia.
  - apply Hpos; lia.
  - apply H10; simpl; lia.
  - apply H50; simpl; lia.
  - apply H100; simpl; lia.
  - apply H300; simpl; lia.
  - apply Hblunder; simpl; lia.
  - apply Hmono; simpl; lia.
Defined.

(** ** The retry loop of [fetch_cloud_eval] *)

(** C6. With the responses 429, 429, 200: [max_retries = 2] makes two
    requests and raises the rate-limit error, returning no value;
    [max_retries = 3] makes three requests and returns the evaluation
    parsed from the third response. *)
Theorem retry_429_429_200 (has_token : bool) (net : nat -> Response)
    (fen : str) (depth : Z) (t0 t1 t2 : str) (b0 b1 : result Payload)
    (data : Payload) (entry : PvEntry) (others : list PvEntry) :
  net 0%nat = Http 429 t0 b0 ->
  net 1%nat = Http 429 t1 b1 ->
  net 2%nat = Http 200 t2 (Return data) ->
  p_pvs data = Some (entry :: others) ->
  (exists log,
     fetch_cloud_eval has_token net fen depth 2 log0
     = (Raise (mkExn ValueError (L "Rate limit exceeded (429) after 2 attempts")),
        log)
     /\ sent log = 2%nat)
  /\ (exists ev log,
     fetch_cloud_eval has_token net fen depth 3 log0 = (Return ev, log)
     /\ sent log = 3%nat
     /\ parse_cloud_eval fen depth data = Return ev
     /\ cp ev = e_cp entry /\ mate ev = e_mate entry).
Proof.
  intros H0 H1 H2 Hpvs. split.
  - eexists. unfold fetch_cloud_eval, range. simpl.
    rewrite H0. simpl. rewrite H1. simpl. split; reflexivity.
  - unfold fetch_cloud_eval, range. simpl.
    rewrite H0. simpl. rewrite H1. simpl. rewrite H2. simpl.
    unfold parse_cloud_eval. rewrite Hpvs. simpl.
    eexists. eexists. repeat split; reflexivity.
Qed.

Lemma retry_429_429_200_witness :
  let limited := Http 429 [] (Raise (mkExn ValueError [])) in
  let entry := mkPvEntry (Some 18) None (Some (PvText (L "e7e5 g1f3"))) None in
  let data := mkPayload None (Some 5) (Some 30) (Some [entry]) in
  let net := fun k => nth k [limited; limited] (Http 200 [] (Return data)) in
  (exists log,
     fetch_cloud_eval false net (L "startpos") 15 2 log0
     = (Raise (mkExn ValueError (L "Rate limit exceeded (429) after 2 attempts")),
        log)
     /\ sent log = 2%nat)
  /\ (exists ev log,
     fetch_cloud_eval false net (L "startpos") 15 3 log0 = (Return ev, log)
     /\ sent log = 3%nat
     /\ parse_cloud_eval (L "startpos") 15 data = Return ev
     /\ cp ev = Some 18 /\ mate ev = None).
Proof.
  intros limited entry data net.
  apply (retry_429_429_200 false net (L "startpos") 15 [] [] []
           (Raise (mkExn ValueError [])) (Raise (mkExn ValueError []))
           data entry []); reflexivity.
Defined.

(** ** The tasks of [analyze_game] and the event loop *)

Section Gather.
Variable has_token : bool.
Variable net : Task -> nat -> Response.
Variable progress_callback : bool.

(** A task ends with an evaluation, whatever the service answers. *)
Lemma fetch_with_semaphore_returns (fen : option str) (index : nat) (log : NetLog) :
  exists ev log', fetch_with_semaphore has_token net fen index log = (Return ev, log').
Proof.
  unfold fetch_with_semaphore, io_try, io_bind, io_sleep, io_ret.
  destruct fen as [fen|]; [|eauto].
  destruct (fetch_cloud_eval _ _ _ _ _ log) as [[ev|e] log1]; [eauto|].
  destruct (_ || _); [|eauto].
  destruct (fetch_cloud_eval _ _ _ _ _ _) as [[ev|e'] log2]; eauto.
Qed.

Lemma fetched_eval_spec (fen : option str) (index : nat) :
  fst (fetch_with_semaphore has_token net fen index log0)
  = Return (fetched_eval has_token net fen index).
Proof.
  unfold fetched_eval.
  destruct (fetch_with_semaphore_returns fen index log0) as (ev & log' & E).
  rewrite E. reflexivity.
Qed.

Lemma finish_eq (total index : nat) (fen : option str) (st : Loop) :
  finish has_token net progress_callback total index fen st =
  mkLoop (<[index := Some (fetched_eval has_token net fen index)]> (slots st))
         (leave index (in_flight st))
         (S (completed_count st))
         (if progress_callback
          then (progress_percent (S (completed_count st)) total,
                S (completed_count st), total) :: progress_calls st
          else progress_calls st)
         (first_error st).
Proof. unfold finish. rewrite fetched_eval_spec. reflexivity. Qed.

Lemma step_ok fens ev st st' :
  step has_token net progress_callback fens ev st = Some st' ->
  loop_ok has_token net fens st -> loop_ok has_token net fens st'.
Proof.
  intros Hstep (Herr & Hlen & Hslots).
  assert (Hfin : forall index fen, fens !! index = Some fen ->
            loop_ok has_token net fens (finish has_token net progress_callback
                            (length fens) index fen st)).
  { intros index fen Hfen. rewrite finish_eq.
    split; [exact Herr|]. split; [simpl; now rewrite length_insert|].
    simpl. intros i ev' fen' Hi Hf.
    destruct (decide (index = i)) as [->|Hne].
    - rewrite list_lookup_insert_eq in Hi
        by (rewrite Hlen; eapply lookup_lt_Some; eauto).
      congruence.
    - rewrite list_lookup_insert_ne in Hi by assumption. eauto. }
  destruct ev as [index|index]; simpl in Hstep.
  - destruct (fens !! index) as [[fen|]|]; try discriminate.
    destruct (_ && _); [|discriminate].
    injection Hstep as <-. split; [|split]; assumption.
  - destruct (fens !! index) as [[fen|]|] eqn:Hfen; try discriminate.
    + destruct (slots st !! index) as [[?|]|]; try discriminate.
      destruct (existsb _ _); [|discriminate].
      injection Hstep as <-. now apply Hfin.
    + destruct (is_free _ _); [|discriminate].
      injection Hstep as <-. now apply Hfin.
Qed.

Lemma run_ok fens evs : forall st st',
  run has_token net progress_callback fens evs st = Some st' ->
  loop_ok has_token net fens st -> loop_ok has_token net fens st'.
Proof.
  induction evs as [|ev evs IH]; intros st st' Hrun Hok.
  - simpl in Hrun. destruct (first_error st); congruence.
  - simpl in Hrun. destruct (first_error st); [congruence|].
    destruct (step _ _ _ _ _ st) as [st1|] eqn:Hstep; [|discriminate].
    eapply IH; [eassumption|]. eapply step_ok; eassumption.
Qed.

Lemma all_some_lookup {A} (l : list (option A)) (xs : list A) :
  all_some l = Some xs -> forall i, l !! i = Some <$> (xs !! i).
Proof.
  revert xs. induction l as [|[x|] l IH]; intros xs E i; simpl in E.
  - injection E as <-. reflexivity.
  - destruct (all_some l) as [ys|]; [|discriminate].
    injection E as <-. destruct i; simpl; [reflexivity|]. now apply IH.
  - discriminate.
Qed.

Lemma init_ok (fens : list (option str)) :
  loop_ok has_token net fens (mkLoop (replicate (length fens) None) [] 0 [] None).
Proof.
  split; [reflexivity|]. split; [apply length_replicate|].
  simpl. intros i ev fen Hi _.
  apply lookup_replicate in Hi as [? _]. discriminate.
Qed.

(** Whatever the run of the loop, [gather] gives the evaluation of task
    [i] at index [i]. *)
Lemma gather_by_index (fens : list (option str)) (schedule : list Event)
    (gathered : result (list CloudEval)) (st : Loop) :
  gather has_token net progress_callback fens schedule = Some (gathered, st) ->
  gathered = Return (imap (fun i fen => fetched_eval has_token net fen i) fens).
Proof.
  unfold gather. intros Hg.
  destruct (run _ _ _ _ _ _) as [st1|] eqn:Hrun; [|discriminate].
  apply run_ok in Hrun; [|apply init_ok].
  destruct Hrun as (Herr & Hlen & Hslots).
  rewrite Herr in Hg.
  destruct (all_some (slots st1)) as [results|] eqn:Hall; [|discriminate].
  injection Hg as <- <-. f_equal.
  pose proof (all_some_lookup _ _ Hall) as Hlk.
  apply list_eq. intros i. rewrite list_lookup_imap.
  destruct (fens !! i) as [fen|] eqn:Hfen; simpl.
  - assert (Hi : (i < length (slots st1))%nat)
      by (rewrite Hlen; eapply lookup_lt_Some; eauto).
    apply lookup_lt_is_Some in Hi as [o Ho].
    specialize (Hlk i). rewrite Ho in Hlk.
    destruct (results !! i) as [ev|] eqn:Hr; simpl in Hlk; [|discriminate].
    injection Hlk as ->. f_equal. eapply Hslots; eauto.
  - assert (Hi : (length (slots st1) <= i)%nat)
      by (rewrite Hlen; now apply lookup_ge_None).
    apply lookup_ge_None in Hi. specialize (Hlk i). rewrite Hi in Hlk.
    destruct (results !! i); [discriminate|reflexivity].
Qed.
End Gather.

Section Schedules.
Variable has_token : bool.
Variable net : Task -> nat -> Response.
Variable progress_callback : bool.

Lemma max_concurrent_pos : (0 < max_concurrent has_token)%nat.
Proof. unfold max_concurrent. destruct has_token; lia. Qed.

Lemma existsb_eqb_self (i : nat) (l : list nat) :
  existsb (Nat.eqb i) (i :: l) = true.
Proof. simpl. now rewrite Nat.eqb_refl. Qed.

Lemma leave_single (i : nat) : leave i [i] = [].
Proof. unfold leave. simpl. now rewrite Nat.eqb_refl. Qed.

Lemma run_cons fens ev evs (st : Loop) :
  first_error st = None ->
  run has_token net progress_callback fens (ev :: evs) st =
  match step has_token net progress_callback fens ev st with
  | Some st' => run has_token net progress_callback fens evs st'
  | None => None
  end.
Proof. intros Herr. simpl. now rewrite Herr. Qed.

(** One task started and finished, from a loop with no task in flight. *)
Lemma run_one_task fens i fen (st : Loop) :
  fens !! i = Some fen ->
  slots st !! i = Some None ->
  in_flight st = [] ->
  first_error st = None ->
  exists st',
    (forall evs, run has_token net progress_callback fens
                   (schedule_of_order fens [i] ++ evs) st
                 = run has_token net progress_callback fens evs st')
    /\ in_flight st' = []
    /\ first_error st' = None
    /\ slots st' = <[i := Some (fetched_eval has_token net fen i)]> (slots st).
Proof.
  intros Hfen Hslot Hfl Herr.
  assert (Hsched : schedule_of_order fens [i] =
                   match fen with Some _ => [Start i; Finish i] | None => [Finish i] end).
  { unfold schedule_of_order. simpl. rewrite Hfen, app_nil_r. reflexivity. }
  rewrite Hsched. clear Hsched.
  destruct fen as [fen|].
  - set (st1 := mkLoop (slots st) [i] (completed_count st)
                       (progress_calls st) (first_error st)).
    exists (finish has_token net progress_callback (length fens) i (Some fen) st1).
    split.
    + intros evs. cbn [app].
      rewrite run_cons by exact Herr.
      assert (Hs : step has_token net progress_callback fens (Start i) st = Some st1).
      { cbn [step]. rewrite Hfen. unfold is_free. rewrite Hslot, Hfl.
        cbn [existsb negb length andb].
        destruct (Nat.ltb_spec 0 (max_concurrent has_token)) as [_|Hbad];
          [reflexivity|pose proof max_concurrent_pos; lia]. }
      rewrite Hs. rewrite run_cons by exact Herr.
      cbn [step]. rewrite Hfen. cbn [slots st1 in_flight]. rewrite Hslot.
      rewrite existsb_eqb_self. reflexivity.
    + rewrite finish_eq. cbn [in_flight first_error slots st1].
      rewrite leave_single. auto.
  - exists (finish has_token net progress_callback (length fens) i None st).
    split.
    + intros evs. cbn [app]. rewrite run_cons by exact Herr.
      cbn [step]. rewrite Hfen. unfold is_free. rewrite Hslot, Hfl.
      reflexivity.
    + rewrite finish_eq. cbn [in_flight first_error slots]. rewrite Hfl. auto.
Qed.

Lemma run_schedule_of_order fens : forall order st,
  NoDup order ->
  (forall i, i ∈ order -> (i < length fens)%nat /\ slots st !! i = Some None) ->
  in_flight st = [] ->
  first_error st = None ->
  exists st',
    run has_token net progress_callback fens (schedule_of_order fens order) st
    = Some st'
    /\ first_error st' = None
    /\ length (slots st') = length (slots st)
    /\ (forall i, i ∈ order -> exists ev, slots st' !! i = Some (Some ev))
    /\ (forall i, i ∉ order -> slots st' !! i = slots st !! i).
Proof.
  induction order as [|i order IH]; intros st Hnd Hfree Hfl Herr.
  - exists st. simpl. rewrite Herr.
    repeat split; auto. intros i Hi. now apply elem_of_nil in Hi.
  - apply NoDup_cons in Hnd as [Hni Hnd].
    destruct (Hfree i) as [Hlt Hslot]; [left|].
    apply lookup_lt_is_Some in Hlt as [fen Hfen].
    destruct (run_one_task fens i fen st Hfen Hslot Hfl Herr)
      as (st1 & Hrun1 & Hfl1 & Herr1 & Hslots1).
    destruct (IH st1 Hnd) as (st' & Hrun & Herr' & Hlen' & Hdone & Hkeep);
      auto.
    { intros j Hj. destruct (Hfree j) as [Hjl Hjs]; [now right|].
      split; [exact Hjl|]. rewrite Hslots1.
      rewrite list_lookup_insert_ne; [exact Hjs|]. intros ->. contradiction. }
    exists st'. split; [|split; [|split; [|split]]].
    + change (i :: order) with ([i] ++ order).
      unfold schedule_of_order. rewrite flat_map_app.
      fold (schedule_of_order fens [i]). fold (schedule_of_order fens order).
      rewrite Hrun1. exact Hrun.
    + exact Herr'.
    + rewrite Hlen', Hslots1. apply length_insert.
    + intros j Hj. apply elem_of_cons in Hj as [->|Hj]; [|now apply Hdone].
      rewrite (Hkeep i Hni), Hslots1.
      rewrite list_lookup_insert_eq by (eapply lookup_lt_Some; eauto).
      eauto.
    + intros j Hj. apply not_elem_of_cons in Hj as [Hne Hj].
      rewrite (Hkeep j Hj), Hslots1.
      now rewrite list_lookup_insert_ne by congruence.
Qed.

Lemma all_some_filled {A} (l : list (option A)) :
  (forall i, (i < length l)%nat -> exists x, l !! i = Some (Some x)) ->
  exists xs, all_some l = Some xs.
Proof.
  induction l as [|o l IH]; intros Hl; [simpl; eauto|].
  destruct (Hl 0%nat) as [x Hx]; [simpl; lia|].
  simpl in Hx. injection Hx as ->.
  destruct IH as [xs Hxs].
  { intros i Hi. apply (Hl (S i)). simpl. lia. }
  simpl. rewrite Hxs. eauto.
Qed.

(** The tasks may finish in any order: every permutation of the task
    indices is the order of completion of a run of the loop, and
    [gather] then returns. *)
Lemma gather_any_order (fens : list (option str)) (order : list nat) :
  Permutation order (seq 0 (length fens)) ->
  exists st,
    gather has_token net progress_callback fens (schedule_of_order fens order)
    = Some (Return (imap (fun i fen => fetched_eval has_token net fen i) fens), st).
Proof.
  intros Hperm.
  assert (Hin : forall i, i ∈ order <-> (i < length fens)%nat).
  { intros i. rewrite Hperm, elem_of_seq. lia. }
  destruct (run_schedule_of_order fens order
              (mkLoop (replicate (length fens) None) [] 0 [] None))
    as (st & Hrun & Herr & Hlen & Hdone & _); auto.
  { rewrite Hperm. apply NoDup_seq. }
  { intros i Hi. apply Hin in Hi. split; [exact Hi|].
    simpl. now apply lookup_replicate. }
  destruct (all_some_filled (slots st)) as [xs Hxs].
  { intros i Hi. apply Hdone, Hin. simpl in Hlen.
    rewrite length_replicate in Hlen. lia. }
  assert (Hg : gather has_token net progress_callback fens
                 (schedule_of_order fens order) = Some (Return xs, st)).
  { unfold gather. rewrite Hrun, Herr, Hxs. reflexivity. }
  exists st. rewrite Hg. f_equal. f_equal.
  now apply gather_by_index in Hg.
Qed.
End Schedules.

(** ** The loop over the moves *)

Section Moves.
Context `{ChessLib}.

Lemma delta_not_both_null (before_eval after_eval : CloudEval) (w : bool) :
  (mate before_eval <> None \/ mate after_eval <> None ->
     snd (calculate_evaluation_delta before_eval after_eval w) <> None)
  /\ (mate before_eval = None -> mate after_eval = None ->
     fst (calculate_evaluation_delta before_eval after_eval w) <> None)
  /\ calculate_evaluation_delta before_eval after_eval w <> (None, None).
Proof.
  unfold calculate_evaluation_delta.
  destruct (mate before_eval), (mate after_eval); simpl;
    repeat split; try discriminate; intros; try discriminate;
    intuition congruence.
Qed.

(** What one pass through the [try] block leaves. *)
Lemma analyze_move_cases (board : Board) (previous_eval : CloudEval)
    (is_white : bool) (n : nat) (move_san : str) (after : CloudEval) :
  match analyze_move board previous_eval is_white n move_san after with
  | (board', Return r) =>
      (exists mv, parse_san board move_san = Return mv /\ board' = push board mv)
      /\ ply r = n /\ move r = move_san
      /\ player r = (if is_white then white else black)
      /\ before_eval r = previous_eval /\ after_eval r = after
      /\ (delta_cp r, delta_mate r)
         = calculate_evaluation_delta previous_eval after is_white
      /\ category r = categorize_move (delta_cp r) (delta_mate r)
  | (board', Raise _) =>
      match parse_san board move_san with
      | Return mv => board' = push board mv
      | Raise _ => board' = board
      end
  end.
Proof.
  unfold analyze_move.
  destruct (parse_san board move_san) as [mv|e]; [|reflexivity].
  destruct (calculate_evaluation_delta previous_eval after is_white)
    as [dc dm] eqn:Hd.
  destruct (generate_summary _ _ _ _ _) as [s|e]; simpl; [|reflexivity].
  repeat split; eauto.
Qed.

Lemma analyze_moves_acc : forall items board previous_eval is_white n acc,
  analyze_moves board previous_eval is_white n items acc
  = acc ++ analyze_moves board previous_eval is_white n items [].
Proof.
  induction items as [|[m a] items IH]; intros; simpl.
  - now rewrite app_nil_r.
  - destruct (analyze_move _ _ _ _ _ _) as [b' [r|e]].
    + rewrite IH. rewrite (IH _ _ _ _ ([] ++ [r])). now rewrite app_assoc.
    + apply IH.
Qed.

Lemma analyze_moves_cons board previous_eval is_white n m a items :
  analyze_moves board previous_eval is_white n ((m, a) :: items) [] =
  match analyze_move board previous_eval is_white n m a with
  | (board', Return r) =>
      r :: analyze_moves board' a (negb is_white) (S n) items []
  | (board', Raise _) =>
      analyze_moves board' previous_eval is_white (S n) items []
  end.
Proof.
  simpl. destruct (analyze_move _ _ _ _ _ _) as [b' [r|e]]; [|reflexivity].
  now rewrite analyze_moves_acc.
Qed.

(** Every record: its ply is the (1-based when [n = 1]) index of its
    move in the input, never before its place in the report; the record
    carries that move and the evaluation at that index; the players
    alternate along the report; its delta is the one of
    [calculate_evaluation_delta] and is not null twice. *)
Lemma analyze_moves_records : forall items board previous_eval is_white n k r,
  analyze_moves board previous_eval is_white n items [] !! k = Some r ->
  (n + k <= ply r < n + length items)%nat
  /\ items !! (ply r - n)%nat = Some (move r, after_eval r)
  /\ player r = (if xorb is_white (Nat.odd k) then white else black)
  /\ (delta_cp r, delta_mate r)
     = calculate_evaluation_delta (before_eval r) (after_eval r)
         (xorb is_white (Nat.odd k))
  /\ category r = categorize_move (delta_cp r) (delta_mate r)
  /\ (k = 0%nat -> before_eval r = previous_eval).
Proof.
  induction items as [|[m a] items IH]; intros board prev w n k r Hk.
  - destruct k; discriminate.
  - rewrite analyze_moves_cons in Hk.
    pose proof (analyze_move_cases board prev w n m a) as Hc.
    destruct (analyze_move board prev w n m a) as [b' [r0|e]].
    + destruct k as [|k].
      * injection Hk as <-.
        destruct Hc as (_ & Hply & Hmv & Hpl & Hbe & Hae & Hd & Hcat).
        rewrite Hply, Nat.sub_diag. simpl. rewrite xorb_false_r.
        rewrite Hmv, Hae, Hbe. repeat split; auto; try lia.
      * simpl in Hk. apply IH in Hk as (Hr & Hit & Hpl & Hd & Hcat & _).
        simpl length.
        replace (ply r - n)%nat with (S (ply r - S n)) by lia.
        rewrite Nat.odd_succ, <- Nat.negb_odd.
        replace (xorb w (negb (Nat.odd k))) with (xorb (negb w) (Nat.odd k))
          by (destruct w, (Nat.odd k); reflexivity).
        repeat split; auto; try lia; try discriminate.
    + apply IH in Hk as (Hr & Hit & Hpl & Hd & Hcat & Hfirst).
      simpl length.
      replace (ply r - n)%nat with (S (ply r - S n)) by lia.
      repeat split; auto; lia.
Qed.

(** The plies grow along the report. *)
Lemma analyze_moves_increasing : forall items board previous_eval is_white n k1 k2 r1 r2,
  analyze_moves board previous_eval is_white n items [] !! k1 = Some r1 ->
  analyze_moves board previous_eval is_white n items [] !! k2 = Some r2 ->
  (k1 < k2)%nat -> (ply r1 < ply r2)%nat.
Proof.
  induction items as [|[m a] items IH]; intros board prev w n k1 k2 r1 r2 H1 H2 Hlt.
  - destruct k1; discriminate.
  - rewrite analyze_moves_cons in H1, H2.
    pose proof (analyze_move_cases board prev w n m a) as Hc.
    destruct (analyze_move board prev w n m a) as [b' [r0|e]].
    + destruct k2 as [|k2]; [lia|]. simpl in H2.
      destruct k1 as [|k1].
      * injection H1 as <-.
        apply analyze_moves_records in H2.
        destruct Hc as (_ & Hply & _). lia.
      * simpl in H1. eapply IH; eauto. lia.
    + eapply IH; eauto.
Qed.

Lemma analyze_moves_length : forall items board previous_eval is_white n,
  (length (analyze_moves board previous_eval is_white n items []) <= length items)%nat.
Proof.
  induction items as [|[m a] items IH]; intros; [simpl; lia|].
  rewrite analyze_moves_cons.
  destruct (analyze_move _ _ _ _ _ _) as [b' [r0|e]]; simpl.
  - specialize (IH b' a (negb is_white) (S n)). lia.
  - specialize (IH b' previous_eval is_white (S n)). lia.
Qed.

(** When no move is skipped, a record's ply is its place in the
    report. *)
Lemma analyze_moves_no_skip : forall items board previous_eval is_white n k r,
  length (analyze_moves board previous_eval is_white n items []) = length items ->
  analyze_moves board previous_eval is_white n items [] !! k = Some r ->
  ply r = (n + k)%nat.
Proof.
  induction items as [|[m a] items IH]; intros board prev w n k r Hlen Hk.
  - destruct k; discriminate.
  - rewrite analyze_moves_cons in Hlen, Hk.
    pose proof (analyze_move_cases board prev w n m a) as Hc.
    destruct (analyze_move board prev w n m a) as [b' [r0|e]].
    + destruct k as [|k].
      * injection Hk as <-. destruct Hc as (_ & Hply & _). lia.
      * simpl in Hk, Hlen. apply IH in Hk; lia.
    + pose proof (analyze_moves_length items b' prev w (S n)). simpl in Hlen. lia.
Qed.

(** The two loops replay the same moves: a move with a record has a
    position key, the one whose evaluation was fetched for it. *)
Lemma analyze_moves_fens : forall moves evals board previous_eval is_white n k r,
  analyze_moves board previous_eval is_white n (zip moves evals) [] !! k = Some r ->
  exists fen, fens_to_eval board moves !! (ply r - n)%nat = Some (Some fen).
Proof.
  induction moves as [|m moves IH]; intros evals board prev w n k r Hk.
  - destruct k; discriminate.
  - destruct evals as [|a evals]; [destruct k; discriminate|].
    change (zip (m :: moves) (a :: evals)) with ((m, a) :: zip moves evals) in Hk.
    pose proof (analyze_moves_records _ _ _ _ _ _ _ Hk) as (Hr & _).
    rewrite analyze_moves_cons in Hk.
    pose proof (analyze_move_cases board prev w n m a) as Hc.
    simpl fens_to_eval.
    destruct (analyze_move board prev w n m a) as [b' [r0|e]].
    + destruct Hc as ((mv & Hmv & ->) & Hply & _). rewrite Hmv.
      destruct k as [|k].
      * injection Hk as <-. rewrite Hply, Nat.sub_diag. simpl. eauto.
      * simpl in Hk.
        pose proof (analyze_moves_records _ _ _ _ _ _ _ Hk) as (Hr' & _).
        apply IH in Hk as [fen Hfen].
        replace (ply r - n)%nat with (S (ply r - S n)) by lia.
        simpl. eauto.
    + pose proof (analyze_moves_records _ _ _ _ _ _ _ Hk) as (Hr' & _).
      apply IH in Hk as [fen Hfen].
      replace (ply r - n)%nat with (S (ply r - S n)) by lia.
      destruct (parse_san board m) as [mv|e']; subst b'; simpl; eauto.
Qed.
End Moves.

(** ** [analyze_game] *)

Section Report.
Context `{ChessLib}.
Variable has_token : bool.
Variable net : Task -> nat -> Response.
Variable progress_callback : bool.

Lemma fetch_initial_eval_returns (initial_fen : str) :
  fetch_initial_eval has_token net initial_fen
  = Return (initial_eval_of has_token net initial_fen).
Proof.
  unfold initial_eval_of, fetch_initial_eval, try_except.
  destruct (fst _); reflexivity.
Qed.

Lemma fens_to_eval_length : forall moves board,
  length (fens_to_eval board moves) = length moves.
Proof.
  induction moves as [|m moves IH]; intros board; simpl; [reflexivity|].
  destruct (parse_san board m); simpl; now rewrite IH.
Qed.

(** Every run of the event loop that [analyze_game] can see ends with
    the same report. *)
Lemma analyze_game_report (game_data : GameData) (schedule : list Event)
    (outcome : result AnalysisReport) :
  analyze_game has_token net progress_callback game_data schedule = Some outcome ->
  outcome = Return (report_of has_token net game_data).
Proof.
  unfold analyze_game. intros Hrun.
  destruct (gather _ _ _ _ _) as [[gathered st]|] eqn:Hg; [|discriminate].
  apply gather_by_index in Hg. subst gathered.
  injection Hrun as <-.
  rewrite fetch_initial_eval_returns. reflexivity.
Qed.

Lemma analyze_game_any_order (game_data : GameData) (order : list nat) :
  Permutation order (seq 0 (length (gd_moves game_data))) ->
  analyze_game has_token net progress_callback game_data
    (schedule_of_order (fens_to_eval new_board (gd_moves game_data)) order)
  = Some (Return (report_of has_token net game_data)).
Proof.
  intros Hperm. unfold analyze_game.
  destruct (gather_any_order has_token net progress_callback
              (fens_to_eval new_board (gd_moves game_data)) order)
    as [st Hg].
  { now rewrite fens_to_eval_length. }
  rewrite Hg. rewrite fetch_initial_eval_returns. reflexivity.
Qed.

(** The records of the report. *)
Lemma report_records (game_data : GameData) (k : nat) (r : MoveEvaluation) :
  evaluations (report_of has_token net game_data) !! k = Some r ->
  (S k <= ply r <= length (gd_moves game_data))%nat
  /\ gd_moves game_data !! (ply r - 1)%nat = Some (move r)
  /\ (exists fen,
        fens_to_eval new_board (gd_moves game_data) !! (ply r - 1)%nat
        = Some (Some fen)
        /\ after_eval r = fetched_eval has_token net (Some fen) (ply r - 1))
  /\ player r = (if Nat.even k then white else black)
  /\ (delta_cp r, delta_mate r)
     = calculate_evaluation_delta (before_eval r) (after_eval r) (Nat.even k)
  /\ category r = categorize_move (delta_cp r) (delta_mate r)
  /\ (k = 0%nat ->
      before_eval r = initial_eval_of has_token net (board_fen new_board)).
Proof.
  unfold report_of, make_report. cbn [evaluations]. intros Hk.
  pose proof (analyze_moves_records _ _ _ _ _ _ _ Hk)
    as (Hr & Hit & Hpl & Hd & Hcat & Hfirst).
  pose proof (analyze_moves_fens _ _ _ _ _ _ _ _ Hk) as [fen Hfen].
  assert (Hlen : length (zip (gd_moves game_data)
                   (imap (fun i fen => fetched_eval has_token net fen i)
                      (fens_to_eval new_board (gd_moves game_data))))
                 = length (gd_moves game_data)).
  { rewrite length_zip_with, length_imap, fens_to_eval_length. lia. }
  rewrite Hlen in Hr.
  apply lookup_zip_with_Some in Hit as (m & a & Heq & Hm & Ha).
  injection Heq as <- <-.
  rewrite list_lookup_imap, Hfen in Ha. simpl in Ha. injection Ha as Ha.
  replace (xorb true (Nat.odd k)) with (Nat.even k) in Hpl, Hd
    by (rewrite <- Nat.negb_odd; reflexivity).
  repeat split; auto; try lia. eauto.
Qed.
End Report.

(** ** The loop over the moves: when a move has its record *)

Lemma float_of_int_returns (n : Z) :
  Z.abs n < 2 ^ 1023 -> exists f, float_of_int n = Return f.
Proof.
  intros Hn. unfold float_of_int, b64_of_ratio.
  destruct (Z.eqb_spec n 0) as [->|Hnz]; [now eexists|].
  set (a := Z.abs n) in *.
  assert (Ha : 0 < a) by (subst a; lia).
  change (Z.log2 1) with 0. rewrite Z.sub_0_r.
  pose proof (Z.log2_spec a Ha) as [Hlo Hhi].
  pose proof (Z.log2_nonneg a) as Hl0.
  assert (Hl : Z.log2 a < 1023).
  { apply (Z.pow_lt_mono_r_iff 2); lia. }
  destruct (Z.leb_spec 0 (Z.log2 a)) as [_|]; [|lia].
  rewrite Z.mul_1_l.
  destruct (Z.leb_spec (2 ^ Z.log2 a) a) as [_|]; [|lia].
  set (e := Z.max (Z.log2 a - 52) (-1074)).
  assert (He : e < 971) by (subst e; lia).
  destruct (Z.ltb_spec 971 e) as [|_]; [lia|].
  destruct (Z.eqb_spec e 971) as [|_]; [lia|].
  cbn [orb andb]. now eexists.
Qed.

(** An f-string writes an integer below [2^1023]. *)
Lemma int_text_returns (n : Z) :
  Z.abs n < 2 ^ 1023 -> int_text n = Return (str_of_int n).
Proof.
  intros Hn. unfold int_text.
  assert (Hlimit : 2 ^ 1023 < 10 ^ int_max_str_digits) by (vm_compute; reflexivity).
  destruct (Z.leb_spec (10 ^ int_max_str_digits) (Z.abs n)); [lia|reflexivity].
Qed.

Lemma generate_summary_returns (move_san : str) (category : Category)
    (delta_cp delta_mate : option Z) (best_move : option str) :
  (forall dm, delta_mate = Some dm -> Z.abs dm < 2 ^ 1023) ->
  (delta_mate = None -> forall dc, delta_cp = Some dc -> Z.abs dc < 2 ^ 1023) ->
  exists summary,
    generate_summary move_san category delta_cp delta_mate best_move
    = Return summary.
Proof.
  intros Hmate Hsize. unfold generate_summary.
  destruct delta_mate as [dm|].
  { rewrite (int_text_returns dm (Hmate dm eq_refl)). now eexists. }
  destruct delta_cp as [dc|]; [|now eexists].
  destruct (float_of_int_returns dc (Hsize eq_refl dc eq_refl)) as [f Hf].
  rewrite Hf. now eexists.
Qed.

Section Complete.
Context `{ChessLib}.

Lemma analyze_move_returns (board : Board) (previous_eval : CloudEval)
    (is_white : bool) (n : nat) (move_san : str) (after : CloudEval) (mv : Move) :
  parse_san board move_san = Return mv ->
  ordinary previous_eval -> ordinary after ->
  exists r, analyze_move board previous_eval is_white n move_san after
            = (push board mv, Return r)
            /\ ply r = n.
Proof.
  intros Hmv [Hprev Hprev_mate] [Hafter Hafter_mate].
  pose proof (analyze_move_cases board previous_eval is_white n move_san after)
    as Hcases.
  unfold analyze_move in *. rewrite Hmv in *.
  destruct (calculate_evaluation_delta previous_eval after is_white)
    as [dc dm] eqn:Hd.
  match goal with
  | |- context [generate_summary ?m ?c ?a ?b ?d] =>
      destruct (generate_summary_returns m c a b d) as [s Hs]
  end.
  - intros dm0 ->. unfold calculate_evaluation_delta in Hd.
    change (2 ^ 1023) with (2 * 2 ^ 1022).
    destruct (mate previous_eval) as [bm|], (mate after) as [am|];
      cbn [is_not_None orb default from_option id] in *;
      try (injection Hd as _ <-); try discriminate Hd; lia.
  - intros -> dc0 ->. unfold calculate_evaluation_delta in Hd.
    destruct (is_not_None (mate previous_eval) || is_not_None (mate after)).
    + destruct (mate previous_eval), (mate after); discriminate.
    + injection Hd as <-.
      change (2 ^ 1023) with (2 * 2 ^ 1022). destruct is_white; lia.
  - rewrite Hs in *. cbn [bind] in *. eexists. split; [reflexivity|].
    destruct Hcases as (_ & Hply & _). exact Hply.
Qed.

Lemma analyze_moves_complete : forall items board previous_eval is_white n,
  replays board (map fst items) -> ordinary previous_eval ->
  Forall ordinary (map snd items) ->
  length (analyze_moves board previous_eval is_white n items []) = length items.
Proof.
  induction items as [|[m a] items IH]; intros board prev w n Hrep Hprev Hall;
    [reflexivity|].
  cbn [map fst snd replays] in Hrep, Hall.
  destruct (parse_san board m) as [mv|e] eqn:Hmv; [|contradiction].
  inversion Hall as [|? ? Ha Hrest]; subst.
  destruct (analyze_move_returns board prev w n m a mv Hmv Hprev Ha) as (r & Hr & _).
  rewrite analyze_moves_cons, Hr. cbn [length]. f_equal.
  now apply IH.
Qed.

(** A move that replays on the board the loop has reached has its
    record, whatever moves were skipped before it. *)
Lemma analyze_moves_has_record : forall items board previous_eval is_white n i
    move_san after mv,
  ordinary previous_eval -> Forall ordinary (map snd items) ->
  items !! i = Some (move_san, after) ->
  parse_san (board_before board (map fst items) i) move_san = Return mv ->
  exists r,
    In r (analyze_moves board previous_eval is_white n items [])
    /\ ply r = (n + i)%nat.
Proof.
  induction items as [|[m a] items IH];
    intros board prev w n i move_san after mv Hprev Hall Hi Hmv;
    [discriminate|].
  cbn [map fst snd] in Hall, Hmv.
  inversion Hall as [|? ? Ha Hrest]; subst.
  rewrite analyze_moves_cons.
  destruct i as [|i].
  - injection Hi as -> ->. cbn [board_before] in Hmv.
    destruct (analyze_move_returns board prev w n move_san after mv Hmv Hprev Ha)
      as (r & Hr & Hply).
    rewrite Hr. exists r. split; [now left|lia].
  - cbn [lookup list_lookup] in Hi. cbn [board_before] in Hmv.
    destruct (parse_san board m) as [mv0|e] eqn:Hm.
    + destruct (analyze_move_returns board prev w n m a mv0 Hm Hprev Ha)
        as (r0 & Hr0 & _).
      rewrite Hr0.
      destruct (IH (push board mv0) a (negb w) (S n) i move_san after mv
                  Ha Hrest Hi Hmv) as (r & Hin & Hply).
      exists r. split; [now right|lia].
    + assert (Hskip : analyze_move board prev w n m a = (board, Raise e)).
      { unfold analyze_move. now rewrite Hm. }
      rewrite Hskip.
      destruct (IH board prev w (S n) i move_san after mv Hprev Hrest Hi Hmv)
        as (r & Hin & Hply).
      exists r. split; [exact Hin|lia].
Qed.

(** The position keys of the first loop are the positions after the
    moves. *)
Lemma fens_to_eval_lookup : forall moves board i,
  fens_to_eval board moves !! i
  = match moves !! i with
    | Some move_san =>
        Some match parse_san (board_before board moves i) move_san with
             | Return mv => Some (board_fen (push (board_before board moves i) mv))
             | Raise _ => None
             end
    | None => None
    end.
Proof.
  induction moves as [|m moves IH]; intros board i; [now destruct i|].
  cbn [fens_to_eval]. destruct i as [|i].
  - cbn [board_before lookup list_lookup].
    destruct (parse_san board m); reflexivity.
  - cbn [board_before].
    destruct (parse_san board m) as [mv|e]; cbn [lookup list_lookup]; apply IH.
Qed.

End Complete.


(** A position key of the game is the position after its move. *)
Lemma fens_position `{ChessLib} (moves : list str) (i : nat) (fen : str) :
  fens_to_eval new_board moves !! i = Some (Some fen)
  <-> position_after moves i = Some fen.
Proof.
  rewrite fens_to_eval_lookup. unfold position_after.
  destruct (moves !! i) as [move_san|]; [|split; discriminate].
  destruct (parse_san _ move_san); split; congruence.
Qed.

(** C5, as the code has it.  A record's ply is the 1-based index of its
    move in the input list, so the plies grow along the report and skip
    the moves that did not replay; the players alternate along the report,
    White first.  A record whose ply is its place in the report has White
    on an odd ply and Black on an even one, and so has every record when
    no move is skipped. *)
Theorem ply_counts_input_moves `{ChessLib} (has_token : bool)
    (net : Task -> nat -> Response) (progress_callback : bool)
    (game_data : GameData) (schedule : list Event) (report : AnalysisReport) :
  analyze_game has_token net progress_callback game_data schedule
    = Some (Return report) ->
  (forall k r, evaluations report !! k = Some r ->
     (S k <= ply r <= length (gd_moves game_data))%nat
     /\ gd_moves game_data !! (ply r - 1)%nat = Some (move r)
     /\ player r = (if Nat.even k then white else black)
     /\ (ply r = S k ->
         (Nat.odd (ply r) = true -> player r = white)
         /\ (Nat.even (ply r) = true -> player r = black)))
  /\ (forall k1 k2 r1 r2,
        evaluations report !! k1 = Some r1 ->
        evaluations report !! k2 = Some r2 ->
        (k1 < k2)%nat -> (ply r1 < ply r2)%nat)
  /\ (length (evaluations report) = length (gd_moves game_data) ->
      white_plays_odd report).
Proof.
  intros Hrun. apply analyze_game_report in Hrun. injection Hrun as ->.
  assert (Hrec : forall k r,
            evaluations (report_of has_token net game_data) !! k = Some r ->
            (S k <= ply r <= length (gd_moves game_data))%nat
            /\ gd_moves game_data !! (ply r - 1)%nat = Some (move r)
            /\ player r = (if Nat.even k then white else black)
            /\ (ply r = S k ->
                (Nat.odd (ply r) = true -> player r = white)
                /\ (Nat.even (ply r) = true -> player r = black))).
  { intros k r Hk.
    apply report_records in Hk as (Hr & Hm & _ & Hpl & _).
    repeat split; auto; try lia.
    - intros Hodd. rewrite H0, Nat.odd_succ in Hodd. now rewrite Hpl, Hodd.
    - intros Hev. rewrite H0, Nat.even_succ, <- Nat.negb_even in Hev.
      rewrite Hpl. now destruct (Nat.even k). }
  split; [exact Hrec|]. split.
  - unfold report_of, make_report. cbn [evaluations].
    intros k1 k2 r1 r2 H1 H2 Hlt. eapply analyze_moves_increasing; eauto.
  - intros Hlen. unfold white_plays_odd. apply Forall_lookup_2. intros k r Hk.
    destruct (Hrec k r Hk) as (_ & _ & _ & Hplace). apply Hplace.
    unfold report_of, make_report in Hk, Hlen. cbn [evaluations] in Hk, Hlen.
    eapply analyze_moves_no_skip in Hk; [lia|].
    rewrite Hlen, length_zip_with, length_imap, fens_to_eval_length. lia.
Qed.

Lemma ply_counts_input_moves_witness :
  let fens := @fens_to_eval MiniChess new_board (gd_moves three_move_game) in
  let report := @report_of MiniChess true net_cp18 three_move_game in
  @analyze_game MiniChess true net_cp18 true three_move_game
    (schedule_of_order fens [0; 1; 2]%nat) = Some (Return report)
  /\ white_plays_odd report.
Proof.
  intros fens report.
  assert (Hrun : @analyze_game MiniChess true net_cp18 true three_move_game
                   (schedule_of_order fens [0; 1; 2]%nat) = Some (Return report))
    by (vm_compute; reflexivity).
  split; [exact Hrun|].
  apply (@ply_counts_input_moves MiniChess true net_cp18 true three_move_game
           (schedule_of_order fens [0; 1; 2]%nat) report Hrun).
  vm_compute. reflexivity.
Defined.

(** C5, as stated, fails: in the game e4, Zz9, e5 the second move does not
    replay, and the record of e5 has the odd ply 3 and the player Black. *)
Lemma odd_ply_black_after_skipped_move :
  match @analyze_game MiniChess false net_404 false skipped_game
          (schedule_of_order
             (@fens_to_eval MiniChess new_board (gd_moves skipped_game))
             [0; 1; 2]%nat) with
  | Some (Return report) =>
      map (fun r => (ply r, move r, player r)) (evaluations report)
      = [(1%nat, L "e4", white); (3%nat, L "e5", black)]
      /\ ~ white_plays_odd report
  | _ => False
  end.
Proof.
  rewrite (@analyze_game_any_order MiniChess false net_404 false skipped_game
             [0; 1; 2]%nat) by reflexivity.
  split; [vm_compute; reflexivity|].
  unfold white_plays_odd. intros Hall.
  apply Forall_lookup_1 with (i := 1%nat)
    (x := mkMoveEvaluation 3 (L "e5") black
            (placeholder (L "e4 ")) (placeholder (L "e4 e5 "))
            (Some 0) None accurate None
            (mkSummary (L "e5") accurate (DeltaCp (Fin 0 0)) None)) in Hall.
  - destruct Hall as [Hodd _]. specialize (Hodd eq_refl). discriminate.
  - vm_compute. reflexivity.
Qed.

(** The report of a game, record by record. *)
Lemma report_pairs `{ChessLib} (has_token : bool)
    (net : Task -> nat -> Response) (game_data : GameData) :
  let moves := gd_moves game_data in
  let report := report_of has_token net game_data in
  (forall r, In r (evaluations report) ->
     exists i fen,
       ply r = S i /\ moves !! i = Some (move r)
       /\ position_after moves i = Some fen
       /\ after_eval r = fetched_eval has_token net (Some fen) i)
  /\ (ordinary (initial_eval_of has_token net (board_fen new_board)) ->
      (forall i fen, ordinary (fetched_eval has_token net fen i)) ->
      (forall i fen, position_after moves i = Some fen ->
         exists r, In r (evaluations report) /\ ply r = S i)
      /\ (replays new_board moves ->
          length (evaluations report) = length moves
          /\ forall i r, evaluations report !! i = Some r -> ply r = S i)).
Proof.
  intros moves report. split.
  - intros r Hin. apply list_elem_of_In, list_elem_of_lookup_1 in Hin as [k Hk].
    apply report_records in Hk as (Hr & Hm & (fen & Hfen & Hafter) & _).
    exists (ply r - 1)%nat, fen.
    split; [lia|]. split; [exact Hm|]. split; [|exact Hafter].
    now apply fens_position.
  - intros Hinit Hfetched.
    set (fens := fens_to_eval new_board moves).
    set (evals := imap (fun i fen => fetched_eval has_token net fen i) fens).
    assert (Hlen_evals : length evals = length moves).
    { subst evals fens. now rewrite length_imap, fens_to_eval_length. }
    assert (Hfst : map fst (zip moves evals) = moves) by (apply fst_zip; lia).
    assert (Hsnd : map snd (zip moves evals) = evals) by (apply snd_zip; lia).
    assert (Hord : Forall ordinary (map snd (zip moves evals))).
    { rewrite Hsnd. subst evals. apply Forall_lookup_2. intros i ev Hi.
      rewrite list_lookup_imap in Hi.
      destruct (fens !! i) as [fen|]; [|discriminate]. injection Hi as <-.
      apply Hfetched. }
    assert (Hrecords : evaluations report
                       = analyze_moves new_board
                           (initial_eval_of has_token net (board_fen new_board))
                           true 1 (zip moves evals) []) by reflexivity.
    split.
    + intros i fen Hpos. rewrite Hrecords.
      unfold position_after in Hpos.
      destruct (moves !! i) as [move_san|] eqn:Hmove; [|discriminate].
      destruct (parse_san (board_before new_board moves i) move_san)
        as [mv|e] eqn:Hmv; [|discriminate].
      assert (Hev : exists after, evals !! i = Some after).
      { apply lookup_lt_is_Some. rewrite Hlen_evals.
        now apply lookup_lt_Some in Hmove. }
      destruct Hev as [after Hafter].
      destruct (analyze_moves_has_record (zip moves evals) new_board
                  (initial_eval_of has_token net (board_fen new_board)) true 1 i
                  move_san after mv Hinit Hord) as (r & Hin & Hply).
      * apply lookup_zip_with_Some. eauto.
      * now rewrite Hfst.
      * exists r. split; [exact Hin|lia].
    + intros Hrep.
      assert (Hlen : length (evaluations report) = length moves).
      { rewrite Hrecords, analyze_moves_complete.
        - rewrite length_zip_with. lia.
        - now rewrite Hfst.
        - exact Hinit.
        - exact Hord. }
      split; [exact Hlen|].
      intros i r Hi. rewrite Hrecords in Hi, Hlen.
      eapply analyze_moves_no_skip in Hi; [lia|].
      rewrite Hlen, length_zip_with. lia.
Qed.

(** C8. The report does not depend on the order in which the fetches
    complete, and pairs each record with the evaluation of its own move.
    Every permutation of the tasks is the completion order of a run, and
    every run returns the same report.  In it a record of half-move index
    [i + 1] carries move [i] and the evaluation that task [i] fetched for
    the position after move [i].  With evaluations of ordinary size every
    move that replays has its record; when all the moves replay the
    report has one record for each of the N moves, and the record at
    index [i] is paired with move [i] and the evaluation of the position
    after it. *)
Theorem evaluations_paired_by_index `{ChessLib} (has_token : bool)
    (net : Task -> nat -> Response) (progress_callback : bool)
    (game_data : GameData) :
  let moves := gd_moves game_data in
  let fens := fens_to_eval new_board moves in
  exists report,
    (forall order,
       Permutation order (seq 0 (length moves)) ->
       analyze_game has_token net progress_callback game_data
         (schedule_of_order fens order)
       = Some (Return report))
    /\ (forall schedule outcome,
       analyze_game has_token net progress_callback game_data schedule
       = Some outcome ->
       outcome = Return report)
    /\ (forall r, In r (evaluations report) ->
       exists i fen,
         ply r = S i /\ moves !! i = Some (move r)
         /\ position_after moves i = Some fen
         /\ after_eval r = fetched_eval has_token net (Some fen) i)
    /\ (ordinary (initial_eval_of has_token net (board_fen new_board)) ->
        (forall i fen, ordinary (fetched_eval has_token net fen i)) ->
        (forall i fen, position_after moves i = Some fen ->
           exists r, In r (evaluations report) /\ ply r = S i)
        /\ (replays new_board moves ->
            length (evaluations report) = length moves
            /\ forall i, (i < length moves)%nat ->
                 exists r fen,
                   evaluations report !! i = Some r
                   /\ ply r = S i /\ moves !! i = Some (move r)
                   /\ position_after moves i = Some fen
                   /\ after_eval r = fetched_eval has_token net (Some fen) i)).
Proof.
  intros moves fens.
  exists (report_of has_token net game_data).
  destruct (report_pairs has_token net game_data) as [Hpairs Hexist].
  split; [|split; [|split]].
  - intros order. apply analyze_game_any_order.
  - intros schedule outcome. apply analyze_game_report.
  - exact Hpairs.
  - intros Hinit Hfetched.
    destruct (Hexist Hinit Hfetched) as [Hhas Hall].
    split; [exact Hhas|].
    intros Hrep. destruct (Hall Hrep) as [Hlen Hply].
    split; [exact Hlen|].
    intros i Hi.
    destruct (lookup_lt_is_Some_2 (evaluations (report_of has_token net game_data)) i)
      as [r Hr]; [fold moves in Hlen; lia|].
    pose proof (Hply i r Hr) as Hplace.
    destruct (Hpairs r) as (j & fen & Hj & Hmove & Hpos & Hafter).
    { apply list_elem_of_In. eapply list_elem_of_lookup_2. exact Hr. }
    assert (j = i) as -> by lia.
    exists r, fen. repeat split; assumption.
Qed.

Lemma evaluations_paired_by_index_witness :
  let moves := gd_moves three_move_game in
  let fens := @fens_to_eval MiniChess new_board moves in
  exists report,
    @analyze_game MiniChess true net_cp18 true three_move_game
      (schedule_of_order fens [2; 0; 1]%nat) = Some (Return report)
    /\ length (evaluations report) = 3%nat
    /\ exists r fen,
         evaluations report !! 1%nat = Some r
         /\ ply r = 2%nat /\ moves !! 1%nat = Some (move r)
         /\ @position_after MiniChess moves 1 = Some fen
         /\ after_eval r = fetched_eval true net_cp18 (Some fen) 1.
Proof.
  intros moves fens.
  destruct (@evaluations_paired_by_index MiniChess true net_cp18 true
              three_move_game)
    as (report & Horder & _ & _ & Hexist).
  exists report. split.
  - apply Horder. apply (Permutation_cons_app [0; 1]%nat [] 2%nat). reflexivity.
  - destruct Hexist as [_ Hall].
    + vm_compute. split; reflexivity.
    + intros i [fen|]; vm_compute; split; reflexivity.
    + destruct Hall as [Hlen Hrecord]; [vm_compute; exact I|].
      split; [exact Hlen|]. apply Hrecord. simpl. lia.
Defined.

(** C9. No failure of a fetch ends the analysis.  The evaluation of the
    initial position is the zero-valued placeholder when its fetch raises;
    the task of a move always ends with an evaluation, which is the
    placeholder unless one of its fetches returned it (for a move without
    a position key it is the empty placeholder); and [analyze_game] returns
    a report on every run of the event loop, of which there is one for
    every game. *)
Theorem analyze_game_absorbs_failures `{ChessLib} (has_token : bool)
    (net : Task -> nat -> Response) (progress_callback : bool)
    (game_data : GameData) :
  (forall initial_fen,
     exists ev, fetch_initial_eval has_token net initial_fen = Return ev
     /\ (forall e log,
           fetch_cloud_eval has_token (net InitialPosition) initial_fen 15 2 log0
           = (Raise e, log) ->
           ev = mkCloudEval initial_fen (Some 0) None 0 0 []))
  /\ (forall fen index log,
     exists ev log',
       fetch_with_semaphore has_token net fen index log = (Return ev, log')
       /\ match fen with
          | None => ev = mkCloudEval [] (Some 0) None 0 0 []
          | Some f =>
              ev = mkCloudEval f (Some 0) None 0 0 []
              \/ exists log1 log2,
                   fetch_cloud_eval has_token (net (AfterMove index)) f 15 2 log1
                   = (Return ev, log2)
          end)
  /\ (forall schedule outcome,
     analyze_game has_token net progress_callback game_data schedule = Some outcome ->
     exists report, outcome = Return report)
  /\ (exists schedule report,
     analyze_game has_token net progress_callback game_data schedule
     = Some (Return report)).
Proof.
  split; [|split; [|split]].
  - intros initial_fen. unfold fetch_initial_eval, try_except.
    destruct (fetch_cloud_eval _ _ _ _ _ log0) as [[ev|e] log] eqn:E; simpl.
    + eexists. split; [reflexivity|]. intros e log' [=].
    + eexists. split; [reflexivity|]. intros; reflexivity.
  - intros fen index log.
    unfold fetch_with_semaphore, io_try, io_bind, io_sleep, io_ret, placeholder.
    destruct fen as [f|]; [|eauto].
    destruct (fetch_cloud_eval _ _ _ _ _ log) as [[ev|e] log1] eqn:E1; [eauto 7|].
    destruct (_ || _); [|eauto].
    destruct (fetch_cloud_eval _ _ _ _ _ (log_sleep 500 log1))
      as [[ev|e'] log2] eqn:E2; eauto 7.
  - intros schedule outcome Hrun. apply analyze_game_report in Hrun. eauto.
  - eexists. eexists. apply analyze_game_any_order. reflexivity.
Qed.

Lemma analyze_game_absorbs_failures_witness :
  @fetch_initial_eval false net_404 (L "startpos")
    = Return (mkCloudEval (L "startpos") (Some 0) None 0 0 [])
  /\ exists report,
       @analyze_game MiniChess false net_404 false skipped_game
         (schedule_of_order
            (@fens_to_eval MiniChess new_board (gd_moves skipped_game))
            [1; 2; 0]%nat)
       = Some (Return report).
Proof.
  pose proof (@analyze_game_absorbs_failures MiniChess false net_404 false
                skipped_game) as (Hinit & _ & Hrun & _).
  split.
  - destruct (Hinit (L "startpos")) as (ev & Hev & Hzero).
    rewrite Hev. f_equal. eapply Hzero. vm_compute. reflexivity.
  - assert (Hs : @analyze_game MiniChess false net_404 false skipped_game
                   (schedule_of_order
                      (@fens_to_eval MiniChess new_board (gd_moves skipped_game))
                      [1; 2; 0]%nat)
                 = Some (Return (@report_of MiniChess false net_404 skipped_game)))
      by (vm_compute; reflexivity).
    destruct (Hrun _ _ Hs) as [report Hreport].
    exists report. rewrite Hs, Hreport. reflexivity.
Defined.

(** C10. [calculate_evaluation_delta] never returns two nulls: with a
    mate value on either side the mate delta is not null, otherwise the
    centipawn delta is not null.  So no record of a report has two null
    deltas, and [analyze_game] never reaches the both-null default of
    [categorize_move]. *)
Theorem delta_never_both_null `{ChessLib} (has_token : bool)
    (net : Task -> nat -> Response) (progress_callback : bool) :
  (forall before_eval after_eval is_white_turn,
     (mate before_eval <> None \/ mate after_eval <> None ->
        snd (calculate_evaluation_delta before_eval after_eval is_white_turn)
        <> None)
     /\ (mate before_eval = None -> mate after_eval = None ->
        fst (calculate_evaluation_delta before_eval after_eval is_white_turn)
        <> None)
     /\ calculate_evaluation_delta before_eval after_eval is_white_turn
        <> (None, None))
  /\ (forall game_data schedule report,
     analyze_game has_token net progress_callback game_data schedule
       = Some (Return report) ->
     Forall (fun r =>
               (exists is_white_turn,
                  (delta_cp r, delta_mate r)
                  = calculate_evaluation_delta (before_eval r) (after_eval r)
                      is_white_turn)
               /\ category r = categorize_move (delta_cp r) (delta_mate r)
               /\ (delta_cp r, delta_mate r) <> (None, None))
            (evaluations report)).
Proof.
  split.
  - intros. apply delta_not_both_null.
  - intros game_data schedule report Hrun.
    apply analyze_game_report in Hrun. injection Hrun as ->.
    apply Forall_lookup_2. intros k r Hk.
    apply report_records in Hk as (_ & _ & _ & _ & Hd & Hcat & _).
    split; [eauto|]. split; [exact Hcat|].
    rewrite Hd. apply delta_not_both_null.
Qed.

Lemma delta_never_both_null_witness :
  snd (calculate_evaluation_delta (mkCloudEval [] (Some 15) (Some 2) 0 0 [])
         (mkCloudEval [] (Some 40) None 0 0 []) true) <> None
  /\ fst (calculate_evaluation_delta (mkCloudEval [] None None 0 0 [])
         (mkCloudEval [] None None 0 0 []) false) <> None
  /\ Forall (fun r => (delta_cp r, delta_mate r) <> (None, None))
       (evaluations (@report_of MiniChess true net_cp18 three_move_game)).
Proof.
  pose proof (@delta_never_both_null MiniChess true net_cp18 true)
    as (Hdelta & Hreport).
  split; [|split].
  - apply Hdelta. left. discriminate.
  - apply Hdelta; reflexivity.
  - eapply Forall_impl.
    + apply (Hreport three_move_game
               (schedule_of_order
                  (@fens_to_eval MiniChess new_board (gd_moves three_move_game))
                  [0; 1; 2]%nat)).
      vm_compute. reflexivity.
    + intros r (_ & _ & Hr). exact Hr.
Defined.

(** ** [parse_pgn_moves] on blank text *)

Lemma lstrip_blank (s : str) : forallb is_space s = true -> lstrip_by is_space s = [].
Proof.
  induction s as [|c s IH]; simpl; [reflexivity|].
  intros Hs. apply andb_prop in Hs as [Hc Hs]. rewrite Hc. now apply IH.
Qed.

Lemma strip_blank (s : str) : forallb is_space s = true -> strip s = [].
Proof. intros Hs. unfold strip. now rewrite lstrip_blank. Qed.

Lemma forallb_rev (p : ascii -> bool) (s : str) :
  forallb p (rev s) = forallb p s.
Proof.
  induction s as [|c s IH]; simpl; [reflexivity|].
  rewrite forallb_app, IH. simpl. rewrite andb_true_r. apply andb_comm.
Qed.

Lemma split_blank (sep : ascii) : forall s cur,
  forallb is_space s = true -> forallb is_space cur = true ->
  Forall (fun line => forallb is_space line = true) (split_on_from sep cur s).
Proof.
  induction s as [|c s IH]; intros cur Hs Hcur; simpl.
  - constructor; [|constructor]. now rewrite forallb_rev.
  - simpl in Hs. apply andb_prop in Hs as [Hc Hs].
    destruct (Ascii.eqb c sep).
    + constructor; [now rewrite forallb_rev|]. now apply IH.
    + apply IH; [exact Hs|]. simpl. now rewrite Hc.
Qed.

Lemma collect_blank_lines : forall lines acc,
  Forall (fun line => forallb is_space line = true) lines ->
  fold_left
    (fun move_text line =>
       let line := strip line in
       if negb (is_empty line) && negb (startswith line (L "["))
       then move_text ++ L " " ++ line
       else move_text) lines acc = acc.
Proof.
  induction lines as [|line lines IH]; intros acc Hall; [reflexivity|].
  apply Forall_cons in Hall as [Hline Hall]. simpl.
  rewrite (strip_blank line Hline). simpl. now apply IH.
Qed.

(** C7. On an empty or whitespace-only text, [parse_pgn_moves] returns
    the empty list of moves (it has no way to raise), given that the PGN
    reader of the chess library finds no move in such a text. *)
Theorem parse_pgn_moves_blank `{ChessLib} (pgn : str) :
  forallb is_space pgn = true ->
  (forall game, read_game pgn = Return (Some game) -> mainline game = []) ->
  parse_pgn_moves pgn = [].
Proof.
  intros Hblank Hlib. unfold parse_pgn_moves.
  assert (Htext : collect_move_text pgn = []).
  { unfold collect_move_text. apply collect_blank_lines.
    now apply split_blank. }
  rewrite Htext.
  change (re_sub_empty pat_brackets (re_sub_empty pat_braces (strip [])))
    with (@nil ascii).
  change (fallback_moves []) with (@nil str).
  destruct (read_game pgn) as [[game|]|e] eqn:Hread; try reflexivity.
  rewrite (Hlib game eq_refl).
  destruct (game_board game); reflexivity.
Qed.

Lemma parse_pgn_moves_blank_witness :
  @parse_pgn_moves MiniChess (L "") = []
  /\ @parse_pgn_moves MiniChess [" "; newline; "009"; " "]%char = [].
Proof.
  split.
  - apply (@parse_pgn_moves_blank MiniChess (L "")); [reflexivity|].
    intros game Hgame. vm_compute in Hgame. discriminate.
  - apply (@parse_pgn_moves_blank MiniChess [" "; newline; "009"; " "]%char);
      [reflexivity|].
    intros game Hgame. vm_compute in Hgame. discriminate.
Defined.

(** ** The matcher on the patterns of the evaluation comments *)

Lemma rmatch_seq {R} r1 r2 s g (k : str -> option str -> option R) :
  rmatch (Seq r1 r2) s g k = rmatch r1 s g (fun s1 g1 => rmatch r2 s1 g1 k).
Proof. reflexivity. Qed.

Lemma rmatch_alt {R} r1 r2 s g (k : str -> option str -> option R) :
  rmatch (Alt r1 r2) s g k =
  match rmatch r1 s g k with
  | Some x => Some x
  | None => rmatch r2 s g k
  end.
Proof. reflexivity. Qed.

Lemma rmatch_star {R} greedy r s g (k : str -> option str -> option R) :
  rmatch (Star greedy r) s g k =
  star_loop (fun s1 g1 k1 => rmatch r s1 g1 k1) greedy k (length s) s g.
Proof. reflexivity. Qed.

Lemma rmatch_group {R} r s g (k : str -> option str -> option R) :
  rmatch (Group r) s g k =
  rmatch r s g (fun s1 _ => k s1 (Some (take (length s - length s1) s))).
Proof. reflexivity. Qed.

Lemma rmatch_chr_ok {R} (p : ascii -> bool) c s g (k : str -> option str -> option R) :
  p c = true -> rmatch (Chr p) (c :: s) g k = k s g.
Proof. intros Hp. simpl. now rewrite Hp. Qed.

Lemma rmatch_chr_stop {R} (p : ascii -> bool) s g (k : str -> option str -> option R) :
  stops p s = true -> rmatch (Chr p) s g k = None.
Proof.
  destruct s as [|c s]; simpl; [reflexivity|].
  intros Hp. apply negb_true_iff in Hp. now rewrite Hp.
Qed.

Lemma rmatch_word {R} (w : str) s g (k : str -> option str -> option R) :
  rmatch (word w) (w ++ s) g k = k s g.
Proof.
  induction w as [|c w IH]; simpl; [reflexivity|].
  unfold is_char. rewrite Ascii.eqb_refl. apply IH.
Qed.

(** A repetition that cannot start gives the text on as it is. *)
Lemma star_stop {R} (p : ascii -> bool) s g (k : str -> option str -> option R) :
  stops p s = true -> rmatch (star (Chr p)) s g k = k s g.
Proof.
  intros Hs. unfold star. rewrite rmatch_star.
  destruct (length s) as [|fuel]; [reflexivity|].
  cbn [star_loop]. now rewrite rmatch_chr_stop.
Qed.

Lemma star_loop_chars {R} (p : ascii -> bool) (k : str -> option str -> option R)
    rest g x :
  stops p rest = true -> k rest g = Some x ->
  forall ds fuel, forallb p ds = true -> (length ds <= fuel)%nat ->
  star_loop (fun s1 g1 k1 => rmatch (Chr p) s1 g1 k1) true k fuel (ds ++ rest) g
  = Some x.
Proof.
  intros Hstop Hk. induction ds as [|d ds IH]; intros fuel Hds Hfuel.
  - destruct fuel as [|fuel]; [exact Hk|].
    cbn [star_loop app]. now rewrite rmatch_chr_stop.
  - destruct fuel as [|fuel]; [simpl in Hfuel; lia|].
    simpl in Hds. apply andb_prop in Hds as [Hd Hds].
    cbn [star_loop]. change ((d :: ds) ++ rest) with (d :: (ds ++ rest)).
    rewrite rmatch_chr_ok by exact Hd.
    destruct (Nat.ltb_spec (length (ds ++ rest)) (length (d :: ds ++ rest)))
      as [_|Hbad]; [|simpl in Hbad; lia].
    rewrite IH; [reflexivity|exact Hds|simpl in Hfuel; lia].
Qed.

(** A greedy repetition of a class takes all the characters of the class
    when what follows accepts the rest. *)
Lemma star_chars {R} (p : ascii -> bool) ds rest g
    (k : str -> option str -> option R) x :
  forallb p ds = true -> stops p rest = true -> k rest g = Some x ->
  rmatch (star (Chr p)) (ds ++ rest) g k = Some x.
Proof.
  intros Hds Hstop Hk. unfold star. rewrite rmatch_star.
  apply star_loop_chars; auto. rewrite length_app. lia.
Qed.

Lemma plus_chars {R} (p : ascii -> bool) d ds rest g
    (k : str -> option str -> option R) x :
  forallb p (d :: ds) = true -> stops p rest = true -> k rest g = Some x ->
  rmatch (plus (Chr p)) ((d :: ds) ++ rest) g k = Some x.
Proof.
  intros Hds Hstop Hk. simpl in Hds. apply andb_prop in Hds as [Hd Hds].
  unfold plus. rewrite rmatch_seq. cbn [app].
  rewrite rmatch_chr_ok by exact Hd. now apply (star_chars p ds rest g k x).
Qed.

Lemma plus_stop {R} (p : ascii -> bool) s g (k : str -> option str -> option R) :
  stops p s = true -> rmatch (plus (Chr p)) s g k = None.
Proof. intros Hs. unfold plus. rewrite rmatch_seq. now apply rmatch_chr_stop. Qed.

Lemma opt_lit_taken {R} (a : ascii) s g (k : str -> option str -> option R) x :
  k s g = Some x -> rmatch (opt (lit a)) (a :: s) g k = Some x.
Proof.
  intros Hk. unfold opt, lit. rewrite rmatch_alt, rmatch_chr_ok, Hk;
    [reflexivity|apply Ascii.eqb_refl].
Qed.

Lemma opt_lit_absent {R} (a : ascii) s g (k : str -> option str -> option R) :
  stops (is_char a) s = true -> rmatch (opt (lit a)) s g k = k s g.
Proof.
  intros Hs. unfold opt, lit. rewrite rmatch_alt.
  now rewrite rmatch_chr_stop.
Qed.

(** The head of every pattern: [[%eval] and spaces. *)
Lemma eval_head_match {R} v g (k : str -> option str -> option R) :
  stops is_space v = true ->
  rmatch eval_head (L "[%eval " ++ v) g k = k v g.
Proof.
  intros Hv. unfold eval_head.
  change (L "[%eval " ++ v) with (L "[%eval" ++ " "%char :: v).
  rewrite rmatch_seq, rmatch_word. unfold plus, ws.
  rewrite rmatch_seq, rmatch_chr_ok by reflexivity.
  now apply (star_stop is_space).
Qed.

Lemma eval_head_needs_bracket {R} s g (k : str -> option str -> option R) :
  stops (is_char "[") s = true -> rmatch eval_head s g k = None.
Proof.
  intros Hs. unfold eval_head. rewrite rmatch_seq.
  change (L "[%eval") with ("["%char :: L "%eval"). cbn [word].
  rewrite rmatch_seq. now apply rmatch_chr_stop.
Qed.

Lemma re_search_here (p : re) (s : str) (m : Match) :
  match_here p s = Some m -> re_search p s = Some ([], m).
Proof. intros Hm. destruct s; simpl; now rewrite Hm. Qed.

Lemma re_search_no_bracket (p : re) :
  (forall t, stops (is_char "[") t = true -> match_here p t = None) ->
  forall s, no_bracket s = true -> re_search p s = None.
Proof.
  intros Hp. induction s as [|c s IH]; intros Hs.
  - simpl. now rewrite Hp.
  - simpl in Hs. apply andb_prop in Hs as [Hc Hs].
    cbn [re_search]. rewrite Hp by exact Hc. now rewrite IH.
Qed.

(** A pattern that starts with the head and does not match at the start
    of an annotation matches nowhere in it. *)
Lemma re_search_annotation_none (r : re) (v : str) :
  no_bracket v = true ->
  match_here (Seq eval_head r) (annotation v) = None ->
  re_search (Seq eval_head r) (annotation v) = None.
Proof.
  intros Hv Hm. unfold annotation in *.
  change (L "[%eval " ++ v ++ L "]") with ("["%char :: (L "%eval " ++ v ++ L "]")) in *.
  cbn [re_search]. rewrite Hm.
  rewrite re_search_no_bracket; [reflexivity| |].
  - intros t Ht. unfold match_here. rewrite rmatch_seq.
    now apply eval_head_needs_bracket.
  - unfold no_bracket in *. rewrite !forallb_app, Hv. reflexivity.
Qed.

(** The group of a pattern "head, prefix, ( group ), ]" on an annotation
    whose value is the prefix followed by a text the group takes. *)
Lemma group_captures (pre : str) (r : re) (v : str) :
  stops is_space (pre ++ v ++ L "]") = true ->
  takes r v (L "]") ->
  exists m,
    match_here (Seq eval_head (Seq (word pre) (Seq (Group r) (lit "]"))))
      (annotation (pre ++ v)) = Some m
    /\ group1 m = Some v.
Proof.
  intros Hsp Htakes. eexists.
  unfold match_here, annotation.
  rewrite <- (app_assoc pre v), rmatch_seq, eval_head_match by exact Hsp.
  rewrite rmatch_seq, rmatch_word, rmatch_seq, rmatch_group.
  split.
  - apply Htakes. cbv beta. change (L "]") with ["]"%char]. unfold lit.
    rewrite rmatch_chr_ok by apply Ascii.eqb_refl.
    reflexivity.
  - cbn [group1]. f_equal. rewrite length_app. cbn [length].
    replace (length v + 1 - 1)%nat with (length v) by lia.
    now rewrite take_app_length.
Qed.

(** The ten digits. *)
Lemma digit_cases (d : ascii) :
  is_digit d = true ->
  In d ["0"; "1"; "2"; "3"; "4"; "5"; "6"; "7"; "8"; "9"]%char.
Proof.
  destruct d as [[] [] [] [] [] [] [] []]; intros Hd;
    try discriminate Hd; simpl; tauto.
Qed.

Ltac by_digit d H :=
  apply digit_cases in H; simpl in H;
  repeat (destruct H as [<-|H]; [reflexivity|]); destruct H.

Lemma digit_not_space d : is_digit d = true -> is_space d = false.
Proof. intros Hd. by_digit d Hd. Qed.

Lemma digit_is_not d (a : ascii) :
  is_digit a = false -> is_digit d = true -> is_char a d = false.
Proof.
  intros Ha Hd. unfold is_char.
  destruct (Ascii.eqb_spec a d) as [->|]; [congruence|reflexivity].
Qed.

(** An optional sign character and digits, as the groups of three of the
    patterns have them. *)
Lemma takes_signed_digits (a : ascii) (sign : bool) (ds rest : str) :
  is_digit a = false ->
  is_digits ds = true -> stops is_digit rest = true ->
  takes (Seq (opt (lit a)) (plus dig)) ((if sign then [a] else []) ++ ds) rest.
Proof.
  intros Ha Hds Hrest R k g x Hk.
  unfold is_digits in Hds. apply andb_prop in Hds as [Hne Hds].
  destruct ds as [|d ds]; [discriminate|].
  assert (Hd : is_digit d = true) by (simpl in Hds; now apply andb_prop in Hds).
  rewrite rmatch_seq. destruct sign.
  - cbn [app]. apply opt_lit_taken. now apply plus_chars.
  - cbn [app]. rewrite opt_lit_absent
      by (simpl; now rewrite (digit_is_not d a Ha Hd)).
    now apply plus_chars.
Qed.

(** A decimal number, as the group of the second pattern has it. *)
Lemma takes_decimal (neg : bool) (ip : str) (fp : option str) :
  is_digits ip = true -> forallb is_digit (default [] fp) = true ->
  takes (seqs [opt (lit "-"); plus dig; opt (lit "."); star dig])
        (decimal_text neg ip fp) (L "]").
Proof.
  intros Hip Hfp R k g x Hk. unfold decimal_text.
  unfold is_digits in Hip. apply andb_prop in Hip as [Hne Hip].
  destruct ip as [|d ip]; [discriminate|].
  assert (Hd : is_digit d = true) by (simpl in Hip; now apply andb_prop in Hip).
  cbn [seqs]. rewrite rmatch_seq, <- !app_assoc.
  set (tail := match fp with Some f => L "." ++ f | None => [] end ++ L "]").
  assert (Hafter : rmatch (Seq (plus dig) (Seq (opt (lit ".")) (star dig)))
                     ((d :: ip) ++ tail) g k = Some x).
  { rewrite rmatch_seq. subst tail.
    destruct fp as [f|]; simpl in Hfp.
    - apply plus_chars; [exact Hip|reflexivity|].
      rewrite rmatch_seq.
      change ((L "." ++ f) ++ L "]") with ("."%char :: (f ++ L "]")).
      apply opt_lit_taken. now apply (star_chars is_digit f (L "]")).
    - apply plus_chars; [exact Hip|reflexivity|].
      rewrite rmatch_seq, opt_lit_absent by reflexivity.
      now rewrite (star_stop is_digit) by reflexivity. }
  destruct neg.
  - apply (opt_lit_taken "-"). exact Hafter.
  - cbn [app]. rewrite opt_lit_absent; [exact Hafter|].
    cbn [stops app]. now rewrite (digit_is_not d "-" eq_refl Hd).
Qed.

Lemma forallb_pointwise {A} (f g : A -> bool) (l : list A) :
  (forall a, f a = g a) -> forallb f l = forallb g l.
Proof. intros Hfg. induction l as [|a l IH]; simpl; [|rewrite Hfg, IH]; reflexivity. Qed.

(** Any text without a closing bracket, as the group of the pattern of
    [parse_eval_comment] has it. *)
Lemma takes_unbracketed (v : str) :
  v <> [] -> forallb (fun c => negb (is_char "]" c)) v = true ->
  takes (plus (none_of (L "]"))) v (L "]").
Proof.
  intros Hne Hv R k g x Hk. destruct v as [|c v]; [contradiction|].
  unfold none_of. apply plus_chars; [|reflexivity|exact Hk].
  etransitivity; [|exact Hv]. apply forallb_pointwise.
  intros a. change (L "]") with ["]"%char]. cbn [existsb].
  now rewrite orb_false_r.
Qed.

(** ** Numbers from the text of digits *)

Lemma lstrip_keep (p : ascii -> bool) (s : str) :
  stops p s = true -> lstrip_by p s = s.
Proof.
  destruct s as [|c s]; simpl; [reflexivity|].
  intros Hc. apply negb_true_iff in Hc. now rewrite Hc.
Qed.

Lemma stops_of_forallb (p : ascii -> bool) (s : str) :
  forallb (fun c => negb (p c)) s = true -> stops p s = true.
Proof. destruct s; simpl; [reflexivity|]. intros Hs. now apply andb_prop in Hs. Qed.

Lemma strip_keep (s : str) : no_space s = true -> strip s = s.
Proof.
  intros Hs. unfold strip, rstrip_by.
  rewrite (lstrip_keep is_space s) by now apply stops_of_forallb.
  rewrite lstrip_keep, rev_involutive; [reflexivity|].
  apply stops_of_forallb. unfold no_space in Hs. now rewrite forallb_rev.
Qed.

(** The whitespace of [int] and [float] is whitespace of [str.strip]. *)
Lemma num_space_is_space (c : ascii) :
  is_num_space c = true -> is_space c = true.
Proof.
  destruct c as [[] [] [] [] [] [] [] []]; vm_compute; intros Hc;
    first [reflexivity | discriminate Hc].
Qed.

Lemma num_strip_keep (s : str) : no_space s = true -> num_strip s = s.
Proof.
  intros Hs.
  assert (Hnum : forallb (fun c => negb (is_num_space c)) s = true).
  { unfold no_space in Hs. rewrite forallb_forall in Hs |- *.
    intros c Hc. specialize (Hs c Hc).
    destruct (is_num_space c) eqn:Hn; [|reflexivity].
    now rewrite (num_space_is_space c Hn) in Hs. }
  unfold num_strip, rstrip_by.
  rewrite (lstrip_keep is_num_space s) by now apply stops_of_forallb.
  rewrite lstrip_keep, rev_involutive; [reflexivity|].
  apply stops_of_forallb. now rewrite forallb_rev.
Qed.

Lemma digits_no_space (ds : str) :
  forallb is_digit ds = true -> no_space ds = true.
Proof.
  induction ds as [|d ds IH]; simpl; [reflexivity|].
  intros Hds. apply andb_prop in Hds as [Hd Hds].
  now rewrite (digit_not_space d Hd), IH.
Qed.

Lemma py_digits_run : forall ds acc n,
  forallb is_digit ds = true ->
  py_digits ds acc n false
  = Some (fold_left (fun a c => 10 * a + digit_val c) ds acc,
          n + Z.of_nat (length ds)).
Proof.
  induction ds as [|d ds IH]; intros acc n Hds; simpl.
  - now rewrite Z.add_0_r.
  - simpl in Hds. apply andb_prop in Hds as [Hd Hds].
    rewrite Hd, IH by exact Hds. do 2 f_equal. lia.
Qed.

Lemma py_digitpart_digits (ds : str) :
  is_digits ds = true ->
  py_digitpart ds = Some (number ds, Z.of_nat (length ds)).
Proof.
  unfold is_digits. intros Hds. apply andb_prop in Hds as [Hne Hds].
  destruct ds as [|d ds]; [discriminate|].
  unfold py_digitpart.
  assert (Hd : is_digit d = true) by (simpl in Hds; now apply andb_prop in Hds).
  rewrite Hd, py_digits_run by exact Hds. reflexivity.
Qed.

Lemma take_sign_digit (d : ascii) (s : str) :
  is_digit d = true -> take_sign (d :: s) = (false, d :: s).
Proof.
  intros Hd. unfold take_sign.
  now rewrite (digit_is_not d "-" eq_refl Hd), (digit_is_not d "+" eq_refl Hd).
Qed.

(** [int] of digits with an optional sign: the number they write, unless
    they are more than [int_max_str_digits]. *)
Lemma py_int_signed (sg ds : str) :
  In sg [[]; L "-"; L "+"] -> is_digits ds = true ->
  py_int (sg ++ ds)
  = if int_max_str_digits <? Z.of_nat (length ds) then None
    else Some (apply_sign (str_eqb sg (L "-")) (number ds)).
Proof.
  intros Hsg Hds. unfold py_int.
  pose proof Hds as Hds'. unfold is_digits in Hds'.
  apply andb_prop in Hds' as [Hne Hall].
  assert (Hns : no_space (sg ++ ds) = true).
  { unfold no_space. rewrite forallb_app. fold (no_space ds).
    rewrite (digits_no_space ds Hall).
    destruct Hsg as [<-|[<-|[<-|[]]]]; reflexivity. }
  rewrite num_strip_keep by exact Hns.
  destruct Hsg as [<-|[<-|[<-|[]]]].
  - destruct ds as [|d ds]; [discriminate|].
    assert (Hd : is_digit d = true) by (simpl in Hall; now apply andb_prop in Hall).
    cbn [app]. rewrite take_sign_digit by exact Hd. cbv beta iota.
    now rewrite py_digitpart_digits.
  - change (take_sign (L "-" ++ ds)) with (true, ds). cbv beta iota.
    now rewrite py_digitpart_digits.
  - change (take_sign (L "+" ++ ds)) with (false, ds). cbv beta iota.
    now rewrite py_digitpart_digits.
Qed.

Lemma int_reads_digits (ds : str) :
  int_reads ds = true ->
  is_digits ds = true /\ (int_max_str_digits <? Z.of_nat (length ds)) = false.
Proof.
  unfold int_reads. intros Hds. apply andb_prop in Hds as [Hds Hlen].
  split; [exact Hds|]. apply Z.ltb_ge. now apply Z.leb_le.
Qed.

Lemma py_int_signed_read (sg ds : str) :
  In sg [[]; L "-"; L "+"] -> int_reads ds = true ->
  py_int (sg ++ ds) = Some (apply_sign (str_eqb sg (L "-")) (number ds)).
Proof.
  intros Hsg Hds. apply int_reads_digits in Hds as [Hds Hlen].
  now rewrite py_int_signed, Hlen.
Qed.

Lemma py_int_digits (ds : str) :
  int_reads ds = true -> py_int ds = Some (number ds).
Proof. intros Hds. apply (py_int_signed_read [] ds); simpl; auto. Qed.

Lemma py_int_minus (ds : str) :
  int_reads ds = true -> py_int ("-"%char :: ds) = Some (- number ds).
Proof. intros Hds. apply (py_int_signed_read (L "-") ds); simpl; auto. Qed.

(** Beyond the limit [int] raises, whatever the sign. *)
Lemma py_int_too_long (sg ds : str) :
  In sg [[]; L "-"; L "+"] -> is_digits ds = true ->
  int_max_str_digits < Z.of_nat (length ds) ->
  py_int (sg ++ ds) = None.
Proof.
  intros Hsg Hds Hlen. rewrite py_int_signed by assumption.
  apply Z.ltb_lt in Hlen. now rewrite Hlen.
Qed.

Lemma number_app (a b : str) :
  number (a ++ b) = number a * 10 ^ Z.of_nat (length b) + number b.
Proof.
  unfold number. rewrite fold_left_app.
  generalize (fold_left (fun acc c => 10 * acc + digit_val c) a 0).
  induction b as [|c b IH]; intros z.
  - simpl. lia.
  - cbn [fold_left length]. rewrite IH, (IH (10 * 0 + digit_val c)).
    rewrite Nat2Z.inj_succ, Z.pow_succ_r by lia. lia.
Qed.

Lemma split_at_first_absent (p : ascii -> bool) (s : str) :
  forallb (fun c => negb (p c)) s = true -> split_at_first p s = (s, None).
Proof.
  induction s as [|c s IH]; simpl; [reflexivity|].
  intros Hs. apply andb_prop in Hs as [Hc Hs]. apply negb_true_iff in Hc.
  now rewrite Hc, IH.
Qed.

Lemma split_at_first_found (p : ascii -> bool) (a : str) (c : ascii) (b : str) :
  forallb (fun c => negb (p c)) a = true -> p c = true ->
  split_at_first p (a ++ c :: b) = (a, Some b).
Proof.
  intros Ha Hc. induction a as [|x a IH]; simpl.
  - now rewrite Hc.
  - simpl in Ha. apply andb_prop in Ha as [Hx Ha]. apply negb_true_iff in Hx.
    now rewrite Hx, IH.
Qed.

Lemma digits_without (p : ascii -> bool) (ds : str) :
  (forall d, is_digit d = true -> p d = false) ->
  forallb is_digit ds = true -> forallb (fun c => negb (p c)) ds = true.
Proof.
  intros Hp. induction ds as [|d ds IH]; simpl; [reflexivity|].
  intros Hds. apply andb_prop in Hds as [Hd Hds].
  now rewrite (Hp d Hd), IH.
Qed.

Lemma digit_not_e d : is_digit d = true -> is_e d = false.
Proof. intros Hd. by_digit d Hd. Qed.

Lemma digit_lower d : is_digit d = true -> lower_char d = d.
Proof. intros Hd. by_digit d Hd. Qed.

(** A text that starts with a digit is none of the words [float]
    knows. *)
Lemma not_a_word (d a : ascii) (s w : str) :
  is_digit d = true -> is_digit a = false ->
  str_eqb (lower (d :: s)) (a :: w) = false.
Proof.
  intros Hd Ha. unfold str_eqb. cbn [lower map startswith].
  rewrite (digit_lower d Hd).
  destruct (Ascii.eqb_spec a d) as [->|]; [congruence|].
  simpl. apply andb_false_r.
Qed.

Lemma not_a_word_of (d : ascii) (s w : str) :
  is_digit d = true -> stops is_digit w = true ->
  str_eqb (lower (d :: s)) w = false.
Proof.
  intros Hd Hw. destruct w as [|a w]; [reflexivity|].
  apply not_a_word; [exact Hd|]. simpl in Hw. now apply negb_true_iff in Hw.
Qed.

Lemma decimal_body_no (p : ascii -> bool) (ip : str) (fp : option str) :
  (forall d, is_digit d = true -> p d = false) -> p "."%char = false ->
  forallb is_digit ip = true -> forallb is_digit (default [] fp) = true ->
  forallb (fun c => negb (p c))
    (ip ++ match fp with Some f => L "." ++ f | None => [] end) = true.
Proof.
  intros Hp Hdot Hip Hfp. rewrite forallb_app, (digits_without p ip Hp Hip).
  destruct fp as [f|]; [|reflexivity].
  simpl in Hfp. cbn [L list_ascii_of_string app forallb]. rewrite Hdot.
  now rewrite (digits_without p f Hp Hfp).
Qed.

(** The mantissa of a decimal number. *)
Lemma py_mantissa_decimal (ip : str) (fp : option str) :
  is_digits ip = true -> forallb is_digit (default [] fp) = true ->
  py_mantissa (ip ++ match fp with Some f => L "." ++ f | None => [] end)
  = Some (number (ip ++ default [] fp), Z.of_nat (length (default [] fp))).
Proof.
  intros Hip Hfp. pose proof Hip as Hip'. unfold is_digits in Hip'.
  apply andb_prop in Hip' as [Hne Hall].
  assert (Hnodot : forallb (fun c => negb (is_char "." c)) ip = true).
  { apply digits_without; [|exact Hall].
    intros d Hd. now apply (digit_is_not d "." eq_refl). }
  unfold py_mantissa. destruct fp as [f|]; cbn [default].
  - change (L "." ++ f) with ("."%char :: f).
    rewrite split_at_first_found by (exact Hnodot || reflexivity).
    destruct ip as [|d ip]; [discriminate|].
    destruct f as [|c f].
    + rewrite py_digitpart_digits by exact Hip. now rewrite app_nil_r.
    + rewrite py_digitpart_digits by exact Hip.
      rewrite py_digitpart_digits by (unfold is_digits; exact Hfp).
      now rewrite number_app.
  - rewrite app_nil_r, split_at_first_absent by exact Hnodot.
    now rewrite py_digitpart_digits.
Qed.

(** [float] of a decimal number is the binary64 nearest to its value. *)
Lemma py_float_decimal (neg : bool) (ip : str) (fp : option str) :
  is_digits ip = true -> forallb is_digit (default [] fp) = true ->
  py_float (decimal_text neg ip fp)
  = Some (b64_of_ratio (decimal_num neg ip fp) (decimal_den fp)).
Proof.
  intros Hip Hfp. pose proof Hip as Hip'. unfold is_digits in Hip'.
  apply andb_prop in Hip' as [Hne Hall].
  set (body := ip ++ match fp with Some f => L "." ++ f | None => [] end).
  assert (Hns : no_space (decimal_text neg ip fp) = true).
  { unfold no_space, decimal_text. rewrite forallb_app.
    rewrite (decimal_body_no is_space ip fp) by (auto using digit_not_space).
    destruct neg; reflexivity. }
  assert (Hsign : take_sign (decimal_text neg ip fp) = (neg, body)).
  { unfold decimal_text. fold body. destruct neg; [reflexivity|].
    subst body. destruct ip as [|d ip]; [discriminate|].
    cbn [app]. apply take_sign_digit.
    simpl in Hall. now apply andb_prop in Hall. }
  unfold py_float. rewrite num_strip_keep, Hsign by exact Hns.
  assert (Hbody : exists d s, body = d :: s /\ is_digit d = true).
  { subst body. destruct ip as [|d ip]; [discriminate|].
    simpl in Hall. apply andb_prop in Hall as [Hd _]. cbn [app]. eauto. }
  destruct Hbody as (d & s & Hbody & Hd).
  rewrite Hbody, !(not_a_word_of d s) by (exact Hd || reflexivity).
  rewrite <- Hbody. cbn [orb].
  rewrite split_at_first_absent
    by (apply decimal_body_no; auto using digit_not_e).
  subst body. rewrite py_mantissa_decimal by assumption.
  cbn [py_exponent]. unfold decimal_num, decimal_den.
  set (k := Z.of_nat (length (default [] fp))).
  destruct (Z.leb_spec 0 (0 - k)) as [Hk|Hk].
  - assert (k = 0) as -> by lia. simpl. now rewrite Z.mul_1_r.
  - replace (- (0 - k)) with k by lia. reflexivity.
Qed.
(** ** Binary64 numbers: what a float holds without rounding *)

Lemma pow2_pos (x : Z) : 0 < 2 ^ x \/ x < 0.
Proof. destruct (Z.le_gt_cases 0 x); [left; now apply Z.pow_pos_nonneg|now right]. Qed.

Lemma pow2_lt (a b : Z) : 0 <= a -> 2 ^ a < 2 ^ b -> a < b.
Proof.
  intros Ha Hlt. destruct (Z.le_gt_cases b a) as [Hle|]; [exfalso|assumption].
  destruct (Z.le_gt_cases 0 b) as [Hb|Hb].
  - pose proof (Z.pow_le_mono_r 2 b a ltac:(lia) Hle). lia.
  - rewrite (Z.pow_neg_r 2 b Hb) in Hlt.
    pose proof (Z.pow_pos_nonneg 2 a ltac:(lia) Ha). lia.
Qed.

Lemma pow2_sum (x y : Z) : 0 <= x -> 0 <= y -> 2 ^ (x + y) = 2 ^ x * 2 ^ y.
Proof. intros Hx Hy. now apply Z.pow_add_r. Qed.

(** The exponent [b64_of_ratio] starts from is not above the ratio. *)
Lemma scaled_below (a d : Z) :
  0 < a -> 0 < d ->
  let l := Z.log2 a - Z.log2 d in
  let above := if 0 <=? l then d * 2 ^ l <=? a else d <=? a * 2 ^ (- l) in
  let l' := if above then l else l - 1 in
  if 0 <=? l' then d * 2 ^ l' <= a else d <= a * 2 ^ (- l').
Proof.
  intros Ha Hd. cbv zeta.
  pose proof (Z.log2_spec a Ha) as [HA1 HA2].
  pose proof (Z.log2_spec d Hd) as [HD1 HD2].
  pose proof (Z.log2_nonneg a) as Hla. pose proof (Z.log2_nonneg d) as Hld.
  rewrite Z.pow_succ_r in HA2, HD2 by assumption.
  set (la := Z.log2 a) in *. set (ld := Z.log2 d) in *.
  assert (HAp : 0 < 2 ^ la) by (apply Z.pow_pos_nonneg; lia).
  assert (HDp : 0 < 2 ^ ld) by (apply Z.pow_pos_nonneg; lia).
  destruct (Z.leb_spec 0 (la - ld)) as [Hl|Hl].
  - destruct (Z.leb_spec (d * 2 ^ (la - ld)) a) as [Hab|Hab].
    + destruct (Z.leb_spec 0 (la - ld)); [exact Hab|lia].
    + destruct (Z.leb_spec 0 (la - ld - 1)) as [Hl1|Hl1].
      * assert (HQ : 2 ^ la = 2 ^ ld * 2 * 2 ^ (la - ld - 1)).
        { replace la with (ld + 1 + (la - ld - 1)) at 1 by lia.
          rewrite !pow2_sum by lia. reflexivity. }
        assert (HQp : 0 < 2 ^ (la - ld - 1)) by (apply Z.pow_pos_nonneg; lia).
        set (A := 2 ^ la) in *. set (Dp := 2 ^ ld) in *.
        set (Q := 2 ^ (la - ld - 1)) in *. nia.
      * assert (la = ld) by lia.
        replace (- (la - ld - 1)) with 1 by lia.
        change (2 ^ 1) with 2. replace la with ld in * by lia. lia.
  - destruct (Z.leb_spec d (a * 2 ^ (- (la - ld)))) as [Hab|Hab].
    + destruct (Z.leb_spec 0 (la - ld)); [lia|exact Hab].
    + destruct (Z.leb_spec 0 (la - ld - 1)); [lia|].
      assert (HQ : 2 * 2 ^ ld = 2 ^ la * 2 ^ (- (la - ld - 1))).
      { rewrite <- pow2_sum by lia. rewrite <- (Z.pow_succ_r 2 ld) by lia.
        f_equal; lia. }
      set (A := 2 ^ la) in *. set (Dp := 2 ^ ld) in *.
      set (Q := 2 ^ (- (la - ld - 1))) in *. nia.
Qed.

(** A power of two that is not above the ratio [M * 2^y] is at most
    [2^y] times [M]. *)
Lemma value_exponent (a d M x y : Z) :
  0 < a -> 0 < d -> 0 < M ->
  (if 0 <=? x then d * 2 ^ x <= a else d <= a * 2 ^ (- x)) ->
  (if 0 <=? y then M * 2 ^ y * d = a else M * d = a * 2 ^ (- y)) ->
  y <= x -> 2 ^ (x - y) <= M.
Proof.
  intros Ha Hd HM Hx Hy Hyx.
  assert (HP : 0 < 2 ^ (x - y)) by (apply Z.pow_pos_nonneg; lia).
  destruct (Z.leb_spec 0 y) as [Hy0|Hy0].
  - destruct (Z.leb_spec 0 x) as [_|]; [|lia].
    assert (HQ : 2 ^ x = 2 ^ (x - y) * 2 ^ y).
    { rewrite <- pow2_sum by lia. f_equal; lia. }
    assert (HYp : 0 < 2 ^ y) by (apply Z.pow_pos_nonneg; lia).
    rewrite HQ in Hx.
    set (P := 2 ^ (x - y)) in *. set (Y := 2 ^ y) in *.
    assert (d * (P * Y) <= d * (M * Y)) by nia.
    assert (P * Y <= M * Y) by nia. nia.
  - assert (HYp : 0 < 2 ^ (- y)) by (apply Z.pow_pos_nonneg; lia).
    destruct (Z.leb_spec 0 x) as [Hx0|Hx0].
    + assert (HXp : 0 < 2 ^ x) by (apply Z.pow_pos_nonneg; lia).
      assert (HQ : 2 ^ (x - y) = 2 ^ x * 2 ^ (- y)).
      { rewrite <- pow2_sum by lia. f_equal; lia. }
      rewrite HQ. set (X := 2 ^ x) in *. set (Y := 2 ^ (- y)) in *.
      assert (d * X * Y <= a * Y) by nia.
      assert (d * (X * Y) <= d * M) by nia. nia.
    + assert (HXp : 0 < 2 ^ (- x)) by (apply Z.pow_pos_nonneg; lia).
      assert (HQ : 2 ^ (- y) = 2 ^ (- x) * 2 ^ (x - y)).
      { rewrite <- pow2_sum by lia. f_equal; lia. }
      rewrite HQ in Hy.
      set (P := 2 ^ (x - y)) in *. set (X := 2 ^ (- x)) in *.
      assert (d * P <= a * X * P) by nia.
      assert (d * P <= d * M) by nia. nia.
Qed.

(** On a binary64 number [b64_of_ratio] does not round. *)
Lemma b64_of_ratio_exact (n d : Z) :
  0 < d -> is_binary64 n d ->
  exists m e, b64_of_ratio n d = Fin m e /\ float_is m e n d.
Proof.
  intros Hd (m0 & e0 & Hm0 & He0 & Hval).
  unfold b64_of_ratio.
  destruct (Z.eqb_spec n 0) as [->|Hn].
  { exists 0, 0. split; [reflexivity|]. unfold float_is. simpl. lia. }
  set (a := Z.abs n).
  assert (Ha : 0 < a) by (subst a; lia).
  set (M := Z.abs m0).
  assert (HvalM : if 0 <=? e0 then M * 2 ^ e0 * d = a else M * d = a * 2 ^ (- e0)).
  { unfold float_is in Hval. subst M a.
    destruct (0 <=? e0).
    - rewrite <- Hval, !Z.abs_mul, (Z.abs_eq d), (Z.abs_eq (2 ^ e0)); [reflexivity| |lia].
      apply Z.pow_nonneg. lia.
    - apply (f_equal Z.abs) in Hval.
      rewrite !Z.abs_mul, (Z.abs_eq d), (Z.abs_eq (2 ^ (- e0))) in Hval;
        [exact Hval| |lia].
      apply Z.pow_nonneg. lia. }
  assert (HM : 0 < M).
  { subst M. destruct (Z.eq_dec m0 0) as [->|]; [|lia]. exfalso.
    unfold float_is in Hval. destruct (Z.leb_spec 0 e0); [lia|].
    assert (0 < 2 ^ (- e0)) by (apply Z.pow_pos_nonneg; lia). nia. }
  pose proof (scaled_below a d Ha Hd) as Hbelow. cbv zeta in Hbelow.
  set (l' := if (if 0 <=? Z.log2 a - Z.log2 d
                 then d * 2 ^ (Z.log2 a - Z.log2 d) <=? a
                 else d <=? a * 2 ^ (- (Z.log2 a - Z.log2 d)))
             then Z.log2 a - Z.log2 d else Z.log2 a - Z.log2 d - 1) in *.
  assert (Hl' : l' - 52 <= e0).
  { destruct (Z.le_gt_cases l' e0) as [|Hgt]; [lia|].
    pose proof (value_exponent a d M l' e0 Ha Hd HM Hbelow HvalM ltac:(lia)) as Hp.
    assert (l' - e0 < 53); [|lia].
    apply pow2_lt; [lia|]. subst M. lia. }
  cbv zeta.
  set (e := Z.max (l' - 52) (-1074)).
  assert (He : e <= e0) by (subst e; lia).
  set (Q := M * 2 ^ (e0 - e)).
  assert (HR : 0 < 2 ^ (e0 - e)) by (apply Z.pow_pos_nonneg; lia).
  assert (Hnum : (if 0 <=? e then a else a * 2 ^ (- e))
                 = Q * (if 0 <=? e then d * 2 ^ e else d)
                 /\ 0 < (if 0 <=? e then d * 2 ^ e else d)).
  { subst Q. destruct (Z.leb_spec 0 e) as [He1|He1].
    - destruct (Z.leb_spec 0 e0) as [_|]; [|lia].
      assert (HEp : 0 < 2 ^ e) by (apply Z.pow_pos_nonneg; lia).
      assert (HS : 2 ^ e0 = 2 ^ (e0 - e) * 2 ^ e).
      { rewrite <- pow2_sum by lia. f_equal; lia. }
      rewrite HS in HvalM. split; [|nia].
      rewrite <- HvalM. ring.
    - split; [|lia].
      destruct (Z.leb_spec 0 e0) as [He2|He2].
      + assert (HS : 2 ^ (e0 - e) = 2 ^ e0 * 2 ^ (- e)).
        { rewrite <- pow2_sum by lia. f_equal; lia. }
        rewrite HS, <- HvalM. ring.
      + assert (HS : 2 ^ (- e) = 2 ^ (- e0) * 2 ^ (e0 - e)).
        { rewrite <- pow2_sum by lia. f_equal; lia. }
        rewrite HS.
        replace (a * (2 ^ (- e0) * 2 ^ (e0 - e)))
          with (a * 2 ^ (- e0) * 2 ^ (e0 - e)) by ring.
        rewrite <- HvalM. ring. }
  destruct Hnum as [Hnum Hden].
  set (num := if 0 <=? e then a else a * 2 ^ (- e)) in *.
  set (den := if 0 <=? e then d * 2 ^ e else d) in *.
  rewrite Hnum, Z.div_mul, Z.mod_mul by lia.
  change (2 * 0) with 0.
  destruct (Z.ltb_spec 0 den) as [_|]; [|lia].
  assert (HQ : Q < 2 ^ 53 \/ e < 971).
  { destruct (Z.eq_dec e 971) as [He971|]; [left|right; lia].
    subst Q. replace (e0 - e) with 0 by lia. subst M. simpl. lia. }
  assert (Hfin : (971 <? e) || (e =? 971) && (Q =? 2 ^ 53) = false).
  { destruct (Z.ltb_spec 971 e); [lia|]. cbn [orb].
    destruct (Z.eqb_spec e 971); [|reflexivity]. cbn [andb].
    destruct (Z.eqb_spec Q (2 ^ 53)); [lia|reflexivity]. }
  rewrite Hfin.
  exists (apply_sign (n <? 0) Q), e. split; [reflexivity|].
  unfold float_is. subst num den.
  assert (Hsign : forall z, apply_sign (n <? 0) Q * z = apply_sign (n <? 0) (Q * z)).
  { intros z. unfold apply_sign. destruct (n <? 0); ring. }
  assert (Hn' : apply_sign (n <? 0) a = n).
  { unfold apply_sign. subst a. destruct (Z.ltb_spec n 0); lia. }
  destruct (Z.leb_spec 0 e) as [He1|He1].
  - rewrite <- Z.mul_assoc, Hsign.
    replace (Q * (2 ^ e * d)) with (Q * (d * 2 ^ e)) by ring.
    now rewrite <- Hnum.
  - rewrite Hsign, <- Hnum.
    rewrite <- Hn' at 2. unfold apply_sign. destruct (n <? 0); ring.
Qed.

(** Being a binary64 number is a property of the ratio. *)
Lemma float_is_ratio (m e n d n' d' : Z) :
  0 < d -> 0 < d' -> n * d' = n' * d ->
  float_is m e n d -> float_is m e n' d'.
Proof.
  unfold float_is. intros Hd Hd' Heq Hval.
  destruct (0 <=? e).
  - apply (Z.mul_reg_r _ _ d); [lia|]. rewrite <- Heq, <- Hval. ring.
  - apply (Z.mul_reg_r _ _ d); [lia|].
    replace (n' * 2 ^ (- e) * d) with (n' * d * 2 ^ (- e)) by ring.
    rewrite <- Heq.
    replace (n * d' * 2 ^ (- e)) with (n * 2 ^ (- e) * d') by ring.
    rewrite <- Hval. ring.
Qed.

Lemma is_binary64_ratio (n d n' d' : Z) :
  0 < d -> 0 < d' -> n * d' = n' * d ->
  is_binary64 n d -> is_binary64 n' d'.
Proof.
  intros Hd Hd' Heq (m & e & Hm & He & Hval).
  exists m, e. split; [exact Hm|]. split; [exact He|].
  exact (float_is_ratio m e n d n' d' Hd Hd' Heq Hval).
Qed.

(** Equal ratios have the same integer part. *)
Lemma quot_ratio (a b c d : Z) :
  0 < b -> 0 < d -> a * d = c * b -> Z.quot a b = Z.quot c d.
Proof.
  intros Hb Hd Heq.
  assert (Hpos : forall a c, 0 <= a -> 0 <= c -> a * d = c * b -> a / b = c / d).
  { clear a c Heq. intros a c Ha Hc Heq.
    pose proof (Z.div_mod a b ltac:(lia)) as Ha'.
    pose proof (Z.mod_pos_bound a b Hb) as Hr.
    set (q := a / b) in *. set (r := a mod b) in *.
    apply (Z.div_unique_pos c d q (c - d * q)); [|lia].
    split; nia. }
  destruct (Z.le_gt_cases 0 a) as [Ha|Ha].
  - assert (Hc : 0 <= c) by nia.
    rewrite !Z.quot_div_nonneg by lia. now apply Hpos.
  - assert (Hc : c < 0) by nia.
    assert (Ha' : Z.quot a b = - Z.quot (- a) b).
    { rewrite Z.quot_opp_l by lia. lia. }
    assert (Hc' : Z.quot c d = - Z.quot (- c) d).
    { rewrite Z.quot_opp_l by lia. lia. }
    rewrite Ha', Hc'. f_equal.
    rewrite !Z.quot_div_nonneg by lia. apply Hpos; lia.
Qed.

(** [int] of a float is the integer part of the number it holds. *)
Lemma int_of_float_is (m e n d : Z) :
  0 < d -> float_is m e n d -> int_of_float (Fin m e) = Some (Z.quot n d).
Proof.
  unfold float_is, int_of_float. intros Hd Hval. f_equal.
  destruct (Z.leb_spec 0 e) as [He|He].
  - rewrite <- Hval. symmetry. apply Z.quot_mul. lia.
  - apply quot_ratio; [apply Z.pow_pos_nonneg; lia|lia|exact Hval].
Qed.

(** The code's conversion of a number of pawns that binary64 holds, its
    hundredfold too: the float product and the truncation give the
    centipawns of the specification. *)
Lemma binary64_centipawns (n d : Z) :
  0 < d -> is_binary64 n d -> is_binary64 (100 * n) d ->
  int_of_float (float_mul (b64_of_ratio n d) (Fin 100 0))
  = Some (centipawns_of_pawns n d).
Proof.
  intros Hd Hn H100.
  destruct (b64_of_ratio_exact n d Hd Hn) as (m & e & -> & Hval).
  unfold float_mul. rewrite Z.add_0_r. unfold centipawns_of_pawns.
  unfold float_is in Hval.
  destruct (Z.leb_spec 0 e) as [He|He].
  - assert (Hprod : m * 100 * 2 ^ e * d = 100 * n * 1) by (rewrite <- Hval; ring).
    pose proof (is_binary64_ratio (100 * n) d (m * 100 * 2 ^ e) 1 Hd ltac:(lia)
                  ltac:(lia) H100) as Hb.
    destruct (b64_of_ratio_exact _ 1 ltac:(lia) Hb) as (m2 & e2 & -> & Hval2).
    apply int_of_float_is; [exact Hd|].
    apply (float_is_ratio m2 e2 (m * 100 * 2 ^ e) 1); auto; lia.
  - assert (HP : 0 < 2 ^ (- e)) by (apply Z.pow_pos_nonneg; lia).
    assert (Hprod : m * 100 * d = 100 * n * 2 ^ (- e))       by (replace (m * 100 * d) with (100 * (m * d)) by ring; rewrite Hval; ring).
    pose proof (is_binary64_ratio (100 * n) d (m * 100) (2 ^ (- e)) Hd HP
                  ltac:(lia) H100) as Hb.
    destruct (b64_of_ratio_exact _ _ HP Hb) as (m2 & e2 & -> & Hval2).
    apply int_of_float_is; [exact Hd|].
    apply (float_is_ratio m2 e2 (m * 100) (2 ^ (- e))); auto; lia.
Qed.

(** ** The two parsers of evaluation comments *)

Lemma re_search_ext (p1 p2 : re) :
  (forall t, match_here p1 t = match_here p2 t) ->
  forall s, re_search p1 s = re_search p2 s.
Proof.
  intros Hp. induction s as [|c s IH]; cbn [re_search]; rewrite Hp; [reflexivity|].
  now rewrite IH.
Qed.

Lemma stops_app (p : ascii -> bool) (v r : str) :
  v <> [] -> stops p v = true -> stops p (v ++ r) = true.
Proof. destruct v; [contradiction|auto]. Qed.

(** Where a decimal number starts. *)
Lemma decimal_stops (p : ascii -> bool) (neg : bool) (ip : str) (fp : option str) (r : str) :
  (forall d, is_digit d = true -> p d = false) -> p "-"%char = false ->
  is_digits ip = true ->
  stops p (decimal_text neg ip fp ++ r) = true.
Proof.
  intros Hp Hminus Hip. unfold is_digits in Hip.
  apply andb_prop in Hip as [Hne Hall].
  destruct ip as [|d ip]; [discriminate|].
  simpl in Hall. apply andb_prop in Hall as [Hd _].
  unfold decimal_text. destruct neg; cbn [L list_ascii_of_string app stops].
  - now rewrite Hminus.
  - now rewrite (Hp d Hd).
Qed.

Lemma decimal_without (p : ascii -> bool) (neg : bool) (ip : str) (fp : option str) :
  (forall d, is_digit d = true -> p d = false) ->
  p "-"%char = false -> p "."%char = false ->
  is_digits ip = true -> forallb is_digit (default [] fp) = true ->
  forallb (fun c => negb (p c)) (decimal_text neg ip fp) = true.
Proof.
  intros Hp Hminus Hdot Hip Hfp. unfold is_digits in Hip.
  apply andb_prop in Hip as [_ Hall].
  unfold decimal_text. rewrite forallb_app, decimal_body_no by assumption.
  destruct neg; cbn [L list_ascii_of_string forallb]; [now rewrite Hminus|reflexivity].
Qed.

Lemma decimal_nonempty (neg : bool) (ip : str) (fp : option str) :
  is_digits ip = true -> decimal_text neg ip fp <> [].
Proof.
  unfold is_digits, decimal_text. intros Hip.
  destruct ip as [|d ip]; [discriminate|]. now destruct neg.
Qed.

(** The first pattern, [cp=], does not match a value that starts
    otherwise. *)
Lemma pat_cp_no_match (v : str) :
  stops is_space (v ++ L "]") = true ->
  stops (is_char "c") (v ++ L "]") = true ->
  no_bracket v = true ->
  re_search pat_cp (annotation v) = None.
Proof.
  intros Hsp Hc Hv. unfold pat_cp. cbn [seqs].
  apply re_search_annotation_none; [exact Hv|].
  unfold match_here, annotation. rewrite rmatch_seq, eval_head_match by exact Hsp.
  change (L "cp=") with ("c"%char :: L "p="). cbn [word].
  rewrite !rmatch_seq. now apply rmatch_chr_stop.
Qed.

(** The second pattern does not match a mate value. *)
Lemma pat_pawns_no_match (v : str) :
  no_bracket v = true ->
  re_search pat_pawns (annotation ("#"%char :: v)) = None.
Proof.
  intros Hv. unfold pat_pawns. cbn [seqs].
  apply re_search_annotation_none; [exact Hv|].
  unfold match_here, annotation.
  rewrite rmatch_seq, eval_head_match by reflexivity.
  rewrite rmatch_seq, rmatch_group, rmatch_seq.
  rewrite opt_lit_absent by reflexivity.
  rewrite rmatch_seq. now apply plus_stop.
Qed.

(** The third pattern does not match a mate value with a plus sign. *)
Lemma pat_mate_no_match (v : str) :
  no_bracket v = true ->
  re_search pat_mate (annotation ("#"%char :: "+"%char :: v)) = None.
Proof.
  intros Hv. unfold pat_mate. cbn [seqs].
  apply re_search_annotation_none; [exact Hv|].
  unfold match_here, annotation.
  rewrite rmatch_seq, eval_head_match by reflexivity.
  rewrite rmatch_seq. cbn [app]. unfold lit at 1.
  rewrite rmatch_chr_ok by reflexivity.
  rewrite rmatch_seq, rmatch_group, rmatch_seq.
  rewrite opt_lit_absent by reflexivity.
  now apply plus_stop.
Qed.

(** A pattern "head, prefix, ( group ), ]" finds the value after the
    prefix. *)
Lemma re_search_group (pattern : re) (pre : str) (r : re) (v : str) :
  (forall t, match_here pattern t
             = match_here (Seq eval_head (Seq (word pre) (Seq (Group r) (lit "]")))) t) ->
  stops is_space (pre ++ v ++ L "]") = true ->
  takes r v (L "]") ->
  exists m, re_search pattern (annotation (pre ++ v)) = Some ([], m)
            /\ group1 m = Some v.
Proof.
  intros Heq Hsp Htakes.
  destruct (group_captures pre r v Hsp Htakes) as (m & Hm & Hg).
  exists m. split; [|exact Hg].
  rewrite (re_search_ext _ _ Heq). now apply re_search_here.
Qed.

Lemma digits_stop_at_bracket (sg ds : str) (p : ascii -> bool) :
  In sg [[]; L "-"; L "+"] -> is_digits ds = true ->
  (forall d, is_digit d = true -> p d = false) ->
  p "-"%char = false -> p "+"%char = false ->
  forallb (fun c => negb (p c)) (sg ++ ds) = true.
Proof.
  intros Hsg Hds Hp Hm Hplus. unfold is_digits in Hds.
  apply andb_prop in Hds as [_ Hall].
  rewrite forallb_app, (digits_without p ds Hp Hall).
  destruct Hsg as [<-|[<-|[<-|[]]]]; cbn [L list_ascii_of_string forallb];
    rewrite ?Hm, ?Hplus; reflexivity.
Qed.

Lemma parse_eval_from_comment_annotation (v : str) :
  parse_eval_from_comment (annotation v) =
  let (cp, mate) := first_eval_match eval_patterns (annotation v) in
  if is_not_None cp || is_not_None mate then Some (mkPgnEval cp mate) else None.
Proof. reflexivity. Qed.

(** [parse_eval_comment] on a value without spaces or brackets: the
    value is what [int] or [float] is given. *)
Lemma parse_eval_comment_value (v : str) :
  v <> [] -> no_space v = true ->
  forallb (fun c => negb (is_char "]" c)) v = true ->
  parse_eval_comment (annotation v) =
  if startswith v (L "#") then
    match py_int (drop 1 v) with
    | Some mate_value => Some (mkPgnEval None (Some mate_value))
    | None => None
    end
  else
    match py_float v with
    | Some f => cp_eval (int_of_float (float_mul f (Fin 100 0)))
    | None => None
    end.
Proof.
  intros Hne Hns Hv.
  destruct (re_search_group pat_eval_any [] (plus (none_of (L "]"))) v)
    as (m & Hm & Hg).
  - intros t. reflexivity.
  - cbn [app]. apply stops_app; [exact Hne|]. now apply stops_of_forallb.
  - now apply takes_unbracketed.
  - unfold parse_eval_comment. cbn [app] in Hm. rewrite Hm, Hg.
    cbn [default from_option id]. rewrite strip_keep by exact Hns. reflexivity.
Qed.

(** [parse_eval_comment] on a decimal value: the float of the value,
    times 100, truncated. *)
Lemma parse_eval_comment_decimal (neg : bool) (ip : str) (fp : option str) :
  is_digits ip = true -> forallb is_digit (default [] fp) = true ->
  parse_eval_comment (annotation (decimal_text neg ip fp))
  = cp_eval (int_of_float
               (float_mul (b64_of_ratio (decimal_num neg ip fp) (decimal_den fp))
                          (Fin 100 0))).
Proof.
  intros Hip Hfp.
  rewrite parse_eval_comment_value.
  - assert (Hhash : startswith (decimal_text neg ip fp) (L "#") = false).
    { assert (Hs : stops (is_char "#") (decimal_text neg ip fp ++ []) = true).
      { apply decimal_stops; auto.
        intros d Hd. now apply (digit_is_not d "#" eq_refl). }
      rewrite app_nil_r in Hs.
      pose proof (decimal_nonempty neg ip fp Hip) as Hne.
      destruct (decimal_text neg ip fp) as [|c s]; [contradiction|].
      cbn [stops] in Hs. apply negb_true_iff in Hs. unfold is_char in Hs.
      cbn [startswith L list_ascii_of_string]. now rewrite Hs. }
    rewrite Hhash, py_float_decimal by assumption. reflexivity.
  - now apply decimal_nonempty.
  - apply decimal_without; auto using digit_not_space.
  - apply decimal_without; auto. intros d Hd. now apply (digit_is_not d "]" eq_refl).
Qed.

Lemma parse_eval_comment_mate (sg ds : str) :
  In sg [[]; L "-"; L "+"] -> is_digits ds = true ->
  parse_eval_comment (annotation ("#"%char :: sg ++ ds))
  = if int_max_str_digits <? Z.of_nat (length ds) then None
    else Some (mkPgnEval None (Some (apply_sign (str_eqb sg (L "-")) (number ds)))).
Proof.
  intros Hsg Hds. rewrite parse_eval_comment_value.
  - cbn [startswith L list_ascii_of_string drop]. rewrite Ascii.eqb_refl. cbn [andb].
    rewrite drop_0, py_int_signed by assumption.
    destruct (int_max_str_digits <? Z.of_nat (length ds)); now destruct (sg ++ ds).
  - discriminate.
  - unfold no_space. cbn [forallb].
    rewrite (digits_stop_at_bracket sg ds is_space); auto using digit_not_space.
  - cbn [forallb].
    rewrite (digits_stop_at_bracket sg ds (is_char "]")); auto.
    intros d Hd. now apply (digit_is_not d "]" eq_refl).
Qed.

(** What [parse_eval_from_comment] finds in a decimal value. *)
Lemma parse_eval_from_comment_decimal (neg : bool) (ip : str) (fp : option str) :
  is_digits ip = true -> forallb is_digit (default [] fp) = true ->
  parse_eval_from_comment (annotation (decimal_text neg ip fp)) =
  match fp with
  | Some _ =>
      cp_eval (int_of_float
                 (float_mul (b64_of_ratio (decimal_num neg ip fp) (decimal_den fp))
                            (Fin 100 0)))
  | None =>
      if int_max_str_digits <? Z.of_nat (length ip) then None
      else Some (mkPgnEval (Some (apply_sign neg (number ip))) None)
  end.
Proof.
  intros Hip Hfp. rewrite parse_eval_from_comment_annotation.
  set (v := decimal_text neg ip fp).
  assert (Hnb : no_bracket v = true).
  { apply decimal_without; auto. intros d Hd. now apply (digit_is_not d "[" eq_refl). }
  unfold eval_patterns. cbn [first_eval_match].
  rewrite pat_cp_no_match; [|apply decimal_stops; auto using digit_not_space
                            |apply decimal_stops; auto;
                             intros d Hd; now apply (digit_is_not d "c" eq_refl)
                            |exact Hnb].
  destruct (re_search_group pat_pawns []
              (seqs [opt (lit "-"); plus dig; opt (lit "."); star dig]) v)
    as (m & Hm & Hg).
  { intros t. reflexivity. }
  { apply decimal_stops; auto using digit_not_space. }
  { now apply takes_decimal. }
  cbn [app] in Hm. rewrite Hm, Hg. cbn [default from_option id]. unfold eval_of_value.
  subst v. destruct fp as [f|].
  - assert (Hdot : existsb (is_char ".") (decimal_text neg ip (Some f)) = true).
    { unfold decimal_text. rewrite !existsb_app.
      cbn [L list_ascii_of_string existsb app]. cbn.
      now rewrite !orb_true_r. }
    rewrite Hdot, py_float_decimal by assumption.
    destruct (int_of_float _); reflexivity.
  - assert (Hdot : existsb (is_char ".") (decimal_text neg ip None) = false).
    { apply not_true_is_false. intros Hex.
      apply existsb_exists in Hex as (c & Hin & Hc).
      pose proof (decimal_without (is_char ".") neg ip None) as Hw.
      unfold is_digits in Hip. unfold decimal_text in Hin.
      rewrite app_nil_r in Hin. apply in_app_or in Hin as [Hin|Hin].
      - destruct neg; [|destruct Hin].
        destruct Hin as [<-|[]]. discriminate.
      - apply andb_prop in Hip as [_ Hall].
        rewrite forallb_forall in Hall. specialize (Hall c Hin).
        now rewrite (digit_is_not c "." eq_refl Hall) in Hc. }
    rewrite Hdot.
    assert (Hint : py_int (decimal_text neg ip None)
                   = if int_max_str_digits <? Z.of_nat (length ip) then None
                     else Some (apply_sign neg (number ip))).
    { unfold decimal_text. rewrite app_nil_r.
      destruct neg.
      - now rewrite (py_int_signed (L "-") ip) by (simpl; auto).
      - now rewrite (py_int_signed [] ip) by (simpl; auto). }
    rewrite Hint.
    destruct (int_max_str_digits <? Z.of_nat (length ip)); reflexivity.
Qed.

Lemma remove_plus_digits (ds : str) :
  forallb is_digit ds = true -> remove_plus ds = ds.
Proof.
  induction ds as [|d ds IH]; [reflexivity|].
  intros Hds. simpl in Hds. apply andb_prop in Hds as [Hd Hds].
  unfold remove_plus in *. cbn [List.filter].
  rewrite (digit_is_not d "+" eq_refl Hd). cbn [negb]. now rewrite IH.
Qed.

(** [int] of the digits of a mate value, read or refused. *)
Lemma mate_value_eval (neg : bool) (sg ds : str) :
  py_int (sg ++ ds)
  = (if int_max_str_digits <? Z.of_nat (length ds) then None
     else Some (apply_sign neg (number ds))) ->
  (let (cp, mate) := ((None : option Z), py_int (sg ++ ds)) in
   if is_not_None cp || is_not_None mate then Some (mkPgnEval cp mate) else None)
  = if int_max_str_digits <? Z.of_nat (length ds) then None
    else Some (mkPgnEval None (Some (apply_sign neg (number ds)))).
Proof.
  intros ->. destruct (int_max_str_digits <? Z.of_nat (length ds)); reflexivity.
Qed.

(** What [parse_eval_from_comment] finds in a mate value. *)
Lemma parse_eval_from_comment_mate (sg ds : str) :
  In sg [[]; L "-"; L "+"] -> is_digits ds = true ->
  parse_eval_from_comment (annotation ("#"%char :: sg ++ ds))
  = if int_max_str_digits <? Z.of_nat (length ds) then None
    else Some (mkPgnEval None (Some (apply_sign (str_eqb sg (L "-")) (number ds)))).
Proof.
  intros Hsg Hds. rewrite parse_eval_from_comment_annotation.
  pose proof Hds as Hds'. unfold is_digits in Hds'.
  apply andb_prop in Hds' as [Hne Hall].
  assert (Hnb : no_bracket (sg ++ ds) = true).
  { apply digits_stop_at_bracket; auto.
    intros d Hd. now apply (digit_is_not d "[" eq_refl). }
  unfold eval_patterns. cbn [first_eval_match].
  rewrite pat_cp_no_match; [|reflexivity|reflexivity|exact Hnb].
  rewrite pat_pawns_no_match by exact Hnb.
  destruct Hsg as [<-|[<-|[<-|[]]]].
  - destruct (re_search_group pat_mate (L "#")
                (Seq (opt (lit "-")) (plus dig)) ds) as (m & Hm & Hg).
    { intros t. reflexivity. }
    { reflexivity. }
    { apply (takes_signed_digits "-" false ds (L "]")); auto. }
    cbn [app L list_ascii_of_string] in Hm. cbn [app]. rewrite Hm, Hg.
    cbn [default from_option id]. unfold eval_of_value.
    rewrite remove_plus_digits by exact Hall.
    apply (mate_value_eval false [] ds).
    now rewrite (py_int_signed [] ds) by (simpl; auto).
  - destruct (re_search_group pat_mate (L "#")
                (Seq (opt (lit "-")) (plus dig)) (L "-" ++ ds)) as (m & Hm & Hg).
    { intros t. reflexivity. }
    { reflexivity. }
    { apply (takes_signed_digits "-" true ds (L "]")); auto. }
    cbn [app L list_ascii_of_string] in Hm, Hg. cbn [app L list_ascii_of_string].
    rewrite Hm, Hg. cbn [default from_option id]. unfold eval_of_value.
    change (remove_plus ("-"%char :: ds)) with ("-"%char :: remove_plus ds).
    rewrite remove_plus_digits by exact Hall.
    apply (mate_value_eval true (L "-") ds).
    now rewrite (py_int_signed (L "-") ds) by (simpl; auto).
  - cbn [app L list_ascii_of_string].
    rewrite pat_mate_no_match
      by (apply (digits_stop_at_bracket [] ds); simpl; auto;
          intros d Hd; now apply (digit_is_not d "[" eq_refl)).
    destruct (re_search_group pat_mate_plus (L "#")
                (Seq (opt (lit "+")) (plus dig)) (L "+" ++ ds)) as (m & Hm & Hg).
    { intros t. reflexivity. }
    { reflexivity. }
    { apply (takes_signed_digits "+" true ds (L "]")); auto. }
    cbn [app L list_ascii_of_string] in Hm, Hg.
    rewrite Hm, Hg. cbn [default from_option id]. unfold eval_of_value.
    change (remove_plus ("+"%char :: ds)) with (remove_plus ds).
    rewrite remove_plus_digits by exact Hall.
    apply (mate_value_eval false [] ds).
    now rewrite (py_int_signed [] ds) by (simpl; auto).
Qed.

(** The powers of ten are positive. *)
Lemma decimal_den_pos (fp : option str) : 0 < decimal_den fp.
Proof. unfold decimal_den. apply Z.pow_pos_nonneg; lia. Qed.

(** C4, as stated, fails for [parse_eval_from_comment]: it does not read
    every decimal value as pawns.  The value of [[%eval 1]] is 1 pawn, 100
    centipawns, and the parser returns [cp = 1]. *)
Lemma integer_value_is_not_read_as_pawns :
  ~ reads_pawns parse_eval_from_comment.
Proof.
  intros Hclaim.
  specialize (Hclaim false (L "1") None eq_refl eq_refl).
  vm_compute in Hclaim. discriminate.
Qed.

(** C4, as the code has it.  In an annotation [[%eval <value>]]:
    - a value [#] followed by an integer that [int] reads, with an
      optional sign, gives that integer as [mate] and a null [cp], in both
      parsers;
    - [parse_eval_comment] reads a decimal value as pawns and gives the
      centipawns, the value times 100 truncated to an integer;
    - [parse_eval_from_comment] does so for a value with a decimal point,
      and reads a value without one as an integer of centipawns.
    The conversion from pawns is stated for the values that binary64
    arithmetic converts without rounding, and for the example of the
    specification: [[%eval #-2]] gives [mate = -2] and [[%eval 0.23]] gives
    [cp = 23] in both parsers. *)
Theorem eval_comment_values :
  (forall sg ds,
     In sg [[]; L "-"; L "+"] -> int_reads ds = true ->
     let mate_eval :=
       Some (mkPgnEval None (Some (apply_sign (str_eqb sg (L "-")) (number ds)))) in
     parse_eval_comment (annotation ("#"%char :: sg ++ ds)) = mate_eval
     /\ parse_eval_from_comment (annotation ("#"%char :: sg ++ ds)) = mate_eval)
  /\ (forall neg ip fp,
     is_digits ip = true -> forallb is_digit (default [] fp) = true ->
     converts_exactly neg ip fp ->
     parse_eval_comment (annotation (decimal_text neg ip fp))
     = Some (mkPgnEval
               (Some (centipawns_of_pawns (decimal_num neg ip fp) (decimal_den fp)))
               None))
  /\ (forall neg ip f,
     is_digits ip = true -> forallb is_digit f = true ->
     converts_exactly neg ip (Some f) ->
     parse_eval_from_comment (annotation (decimal_text neg ip (Some f)))
     = Some (mkPgnEval
               (Some (centipawns_of_pawns (decimal_num neg ip (Some f))
                                          (decimal_den (Some f))))
               None))
  /\ (forall neg ip,
     int_reads ip = true ->
     parse_eval_from_comment (annotation (decimal_text neg ip None))
     = Some (mkPgnEval (Some (apply_sign neg (number ip))) None))
  /\ parse_eval_comment (L "[%eval #-2]") = Some (mkPgnEval None (Some (-2)))
  /\ parse_eval_from_comment (L "[%eval #-2]") = Some (mkPgnEval None (Some (-2)))
  /\ parse_eval_comment (L "[%eval 0.23]") = Some (mkPgnEval (Some 23) None)
  /\ parse_eval_from_comment (L "[%eval 0.23]") = Some (mkPgnEval (Some 23) None).
Proof.
  split; [|split; [|split; [|split]]].
  - intros sg ds Hsg Hds mate_eval.
    apply int_reads_digits in Hds as [Hds Hlen]. split.
    + now rewrite parse_eval_comment_mate, Hlen.
    + now rewrite parse_eval_from_comment_mate, Hlen.
  - intros neg ip fp Hip Hfp [Hvalue Hhundred].
    rewrite parse_eval_comment_decimal by assumption.
    now rewrite binary64_centipawns by (assumption || apply decimal_den_pos).
  - intros neg ip f Hip Hf [Hvalue Hhundred].
    rewrite (parse_eval_from_comment_decimal neg ip (Some f)) by assumption.
    now rewrite binary64_centipawns by (assumption || apply decimal_den_pos).
  - intros neg ip Hip. apply int_reads_digits in Hip as [Hip Hlen].
    now rewrite (parse_eval_from_comment_decimal neg ip None), Hlen.
  - repeat split; vm_compute; reflexivity.
Qed.

Lemma eval_comment_values_witness :
  parse_eval_comment (L "[%eval #+3]") = Some (mkPgnEval None (Some 3))
  /\ parse_eval_from_comment (L "[%eval #+3]") = Some (mkPgnEval None (Some 3))
  /\ parse_eval_comment (L "[%eval 1.5]") = Some (mkPgnEval (Some 150) None)
  /\ parse_eval_from_comment (L "[%eval -0.25]") = Some (mkPgnEval (Some (-25)) None)
  /\ parse_eval_comment (L "[%eval 20]") = Some (mkPgnEval (Some 2000) None)
  /\ parse_eval_from_comment (L "[%eval 20]") = Some (mkPgnEval (Some 20) None).
Proof.
  pose proof eval_comment_values as (Hmate & Hpawns & Hdot & Hint & _).
  split; [|split; [|split; [|split; [|split]]]].
  - apply (Hmate (L "+") (L "3")); [simpl; auto|reflexivity].
  - apply (Hmate (L "+") (L "3")); [simpl; auto|reflexivity].
  - apply (Hpawns false (L "1") (Some (L "5"))); [reflexivity|reflexivity|].
    split; [exists 3, (-1)|exists 150, 0];
      (split; [vm_compute; reflexivity|]); (split; [lia|]);
      vm_compute; reflexivity.
  - apply (Hdot true (L "0") (L "25")); [reflexivity|reflexivity|].
    split; [exists (-1), (-2)|exists (-25), 0];
      (split; [vm_compute; reflexivity|]); (split; [lia|]);
      vm_compute; reflexivity.
  - apply (Hpawns false (L "20") None); [reflexivity|reflexivity|].
    split; [exists 20, 0|exists 2000, 0];
      (split; [vm_compute; reflexivity|]); (split; [lia|]);
      vm_compute; reflexivity.
  - apply (Hint false (L "20")); reflexivity.
Defined.

(** * Further properties *)

(** ** [fetch_cloud_eval]: the retry loop in general *)

(** The loop from attempt [a] on, with [n] attempts left: it ends with
    the data of a successful response, or raises at the last attempt the
    error of that attempt; it is never exhausted. *)
Lemma attempts_loop_end (has_token : bool) (max_retries : Z)
    (net : nat -> Response) :
  forall (n a : nat) (last_error : option Exn) (log : NetLog),
  (a + n)%nat = Z.to_nat max_retries -> (0 < n)%nat ->
  match attempts_loop has_token max_retries net (map Z.of_nat (seq a n))
          last_error log with
  | (Broke data, log') =>
      exists k status text,
        (k < n)%nat /\ sent log' = (sent log + k + 1)%nat
        /\ net (sent log + k)%nat = Http status text (Return data)
        /\ is_success status = true
  | (Raised e, log') =>
      sent log' = (sent log + n)%nat
      /\ attempt_body has_token max_retries (max_retries - 1)
           (net (sent log + n - 1)%nat) = Throw e
  | (Exhausted _, _) => False
  end.
Proof.
  induction n as [|n IH]; intros a last_error log Han Hn; [lia|].
  cbn [seq map attempts_loop].
  assert (Hlast : n = 0%nat -> Z.of_nat a = max_retries - 1) by lia.
  assert (Hlt : (Z.of_nat a <? max_retries - 1) = negb (n =? 0)%nat).
  { destruct (Nat.eqb_spec n 0); destruct (Z.ltb_spec (Z.of_nat a) (max_retries - 1));
      simpl; try reflexivity; lia. }
  assert (Hnext : forall last log1, sent log1 = S (sent log) -> n <> 0%nat ->
            match attempts_loop has_token max_retries net
                    (map Z.of_nat (seq (S a) n)) last log1 with
            | (Broke data, log') =>
                exists k status text,
                  (k < S n)%nat /\ sent log' = (sent log + k + 1)%nat
                  /\ net (sent log + k)%nat = Http status text (Return data)
                  /\ is_success status = true
            | (Raised e, log') =>
                sent log' = (sent log + S n)%nat
                /\ attempt_body has_token max_retries (max_retries - 1)
                     (net (sent log + S n - 1)%nat) = Throw e
            | (Exhausted _, _) => False
            end).
  { intros last log1 Hs Hn0.
    specialize (IH (S a) last log1 ltac:(lia) ltac:(lia)).
    destruct (attempts_loop _ _ _ _ last log1) as [[data|le|e] log'].
    - destruct IH as (k & status & text & Hk & Hsent & Hnet & Hok).
      exists (S k), status, text. rewrite Hs in Hsent, Hnet.
      repeat split; try lia; [|exact Hok].
      replace (sent log + S k)%nat with (S (sent log) + k)%nat by lia. exact Hnet.
    - exact IH.
    - destruct IH as [Hsent Hbody]. rewrite Hs in Hsent, Hbody.
      split; [lia|].
      replace (sent log + S n - 1)%nat with (S (sent log) + n - 1)%nat by lia.
      exact Hbody. }
  destruct (attempt_body has_token max_retries (Z.of_nat a) (net (sent log)))
    as [wait|data|e] eqn:Hbody.
  - (* a 429 before the last attempt *)
    assert (Hn0 : n <> 0%nat).
    { intros ->. unfold attempt_body in Hbody.
      destruct (net (sent log)) as [status text body|e0]; [|discriminate].
      destruct (status =? 404); [discriminate|].
      destruct (status =? 429).
      - rewrite Hlt in Hbody. cbn [Nat.eqb negb] in Hbody.
        destruct (int_text max_retries); discriminate.
      - destruct (negb (is_success status)); [discriminate|].
        destruct body; discriminate. }
    apply Hnext; [reflexivity|exact Hn0].
  - exists 0%nat. unfold attempt_body in Hbody.
    destruct (net (sent log)) as [status text body|e0] eqn:Hnet; [|discriminate].
    destruct (status =? 404); [discriminate|].
    destruct (status =? 429).
    { destruct (Z.of_nat a <? max_retries - 1);
        [destruct (Z.of_nat a <? 2)|];
        destruct (int_text max_retries); discriminate. }
    destruct (is_success status) eqn:Hok; [|discriminate].
    destruct body as [d|e0]; [|discriminate].
    injection Hbody as ->. exists status, text. cbn [sent log_request].
    rewrite Nat.add_0_r. repeat split; auto; lia.
  - rewrite Hlt. destruct (Nat.eqb_spec n 0) as [->|Hn0]; cbn [negb].
    + cbn [sent log_request]. split; [lia|].
      replace (sent log + 1 - 1)%nat with (sent log) by lia.
      now rewrite <- (Hlast eq_refl).
    + apply Hnext; [reflexivity|exact Hn0].
Qed.

Lemma range_seq (n : Z) : range n = map Z.of_nat (seq 0 (Z.to_nat n)).
Proof. reflexivity. Qed.

Lemma requests_at_most (has_token : bool)
    (net : nat -> Response) (fen : str) (depth max_retries : Z)
    (log log' : NetLog) (outcome : result CloudEval) :
  fetch_cloud_eval has_token net fen depth max_retries log = (outcome, log') ->
  (sent log' <= sent log + Z.to_nat max_retries)%nat.
Proof.
  unfold fetch_cloud_eval. rewrite range_seq. intros Hrun.
  destruct (Z.le_gt_cases max_retries 0) as [Hmr|Hmr].
  - assert (Hn : Z.to_nat max_retries = 0%nat) by lia.
    rewrite Hn in *. cbn [seq map attempts_loop] in Hrun.
    injection Hrun as <- <-. lia.
  - pose proof (attempts_loop_end has_token max_retries net
                  (Z.to_nat max_retries) 0 None log ltac:(lia) ltac:(lia)) as Hend.
    destruct (attempts_loop _ _ _ _ None log) as [[data|le|e] log1].
    + destruct Hend as (k & status & text & Hk & Hsent & _).
      injection Hrun as <- <-. lia.
    + destruct Hend.
    + destruct Hend as [Hsent _]. injection Hrun as <- <-. lia.
Qed.

(** X1. [fetch_cloud_eval] never sends more than [max_retries] requests,
    and with [max_retries <= 0] it sends none and fails on the unassigned
    [data]. *)
Theorem fetch_cloud_eval_request_bound (has_token : bool)
    (net : nat -> Response) (fen : str) (depth max_retries : Z)
    (log log' : NetLog) (outcome : result CloudEval) :
  fetch_cloud_eval has_token net fen depth max_retries log = (outcome, log') ->
  (sent log <= sent log' <= sent log + Z.to_nat max_retries)%nat
  /\ (1 <= max_retries -> (sent log < sent log')%nat)
  /\ (max_retries <= 0 ->
      log' = log /\ exists e, outcome = Raise e /\ kind e = UnboundLocalError).
Proof.
  unfold fetch_cloud_eval. rewrite range_seq. intros Hrun.
  destruct (Z.le_gt_cases max_retries 0) as [Hmr|Hmr].
  - assert (Hn : Z.to_nat max_retries = 0%nat) by lia.
    rewrite Hn in *. cbn [seq map attempts_loop] in Hrun.
    injection Hrun as <- <-.
    repeat split; try lia. eexists. split; reflexivity.
  - pose proof (attempts_loop_end has_token max_retries net
                  (Z.to_nat max_retries) 0 None log ltac:(lia) ltac:(lia)) as Hend.
    destruct (attempts_loop _ _ _ _ None log) as [[data|le|e] log1].
    + destruct Hend as (k & status & text & Hk & Hsent & _).
      injection Hrun as <- <-. repeat split; try lia.
    + destruct Hend.
    + destruct Hend as [Hsent _]. injection Hrun as <- <-.
      repeat split; try lia.
Qed.

Lemma fetch_cloud_eval_request_bound_witness :
  (sent (snd (fetch_cloud_eval false (net_404 InitialPosition) (L "startpos")
                15 3 log0)) <= 3)%nat
  /\ snd (fetch_cloud_eval true (net_404 InitialPosition) (L "startpos")
            15 0 log0) = log0.
Proof.
  split.
  - destruct (fetch_cloud_eval false (net_404 InitialPosition) (L "startpos")
                15 3 log0) as [outcome log'] eqn:Hrun.
    pose proof (fetch_cloud_eval_request_bound _ _ _ _ _ _ _ _ Hrun)
      as ((_ & Hle) & _).
    exact Hle.
  - destruct (fetch_cloud_eval true (net_404 InitialPosition) (L "startpos")
                15 0 log0) as [outcome log'] eqn:Hrun.
    pose proof (fetch_cloud_eval_request_bound _ _ _ _ _ _ _ _ Hrun)
      as (_ & _ & Hzero).
    apply Hzero. lia.
Defined.

(** X2. [fetch_cloud_eval] returns a value only for a response with a
    2xx status and a JSON body: the value is the one parsed from the body
    of the last request sent, and no request follows it. *)
Theorem fetch_cloud_eval_returns_parsed_success (has_token : bool)
    (net : nat -> Response) (fen : str) (depth max_retries : Z)
    (log log' : NetLog) (ev : CloudEval) :
  fetch_cloud_eval has_token net fen depth max_retries log = (Return ev, log') ->
  (sent log < sent log')%nat
  /\ exists status text data,
       net (sent log' - 1)%nat = Http status text (Return data)
       /\ 200 <= status <= 299
       /\ parse_cloud_eval fen depth data = Return ev.
Proof.
  unfold fetch_cloud_eval. rewrite range_seq. intros Hrun.
  destruct (Z.le_gt_cases max_retries 0) as [Hmr|Hmr].
  - assert (Hn : Z.to_nat max_retries = 0%nat) by lia.
    rewrite Hn in *. cbn [seq map attempts_loop] in Hrun. discriminate.
  - pose proof (attempts_loop_end has_token max_retries net
                  (Z.to_nat max_retries) 0 None log ltac:(lia) ltac:(lia)) as Hend.
    destruct (attempts_loop _ _ _ _ None log) as [[data|le|e] log1].
    + destruct Hend as (k & status & text & Hk & Hsent & Hnet & Hok).
      injection Hrun as Hparse <-. split; [lia|].
      exists status, text, data.
      replace (sent log1 - 1)%nat with (sent log + k)%nat by lia.
      unfold is_success in Hok. apply andb_prop in Hok as [Hlo Hhi].
      repeat split; auto; lia.
    + destruct Hend.
    + discriminate.
Qed.

Lemma fetch_cloud_eval_returns_parsed_success_witness :
  exists status text data,
    net_cp18 InitialPosition 0%nat = Http status text (Return data)
    /\ 200 <= status <= 299
    /\ parse_cloud_eval (L "startpos") 15 data
       = Return (mkCloudEval (L "startpos") (Some 18) None 30 5000
                   [L "e7e5"; L "g1f3"]).
Proof.
  destruct (fetch_cloud_eval_returns_parsed_success true
              (net_cp18 InitialPosition) (L "startpos") 15 2 log0
              (mkNetLog 1 [])
              (mkCloudEval (L "startpos") (Some 18) None 30 5000
                 [L "e7e5"; L "g1f3"]) eq_refl)
    as (_ & status & text & data & Hnet & Hstatus & Hparse).
  exists status, text, data. auto.
Defined.

(** X3. With [max_retries >= 1], when [fetch_cloud_eval] raises, one of
    two things has happened.  Either the loop was left on a response with
    a 2xx status and a JSON body, the last request sent, and the exception
    is the one raised while that body is parsed after the loop; or all
    [max_retries] requests were sent and the exception is the one of the
    last attempt.  The errors of the earlier attempts, a 404 among them,
    are retried, and the loop is never left without an outcome. *)
Theorem fetch_cloud_eval_raises_at_last_attempt (has_token : bool)
    (net : nat -> Response) (fen : str) (depth max_retries : Z)
    (log log' : NetLog) (e : Exn) :
  1 <= max_retries ->
  fetch_cloud_eval has_token net fen depth max_retries log = (Raise e, log') ->
  (exists status text data,
     (sent log < sent log' <= sent log + Z.to_nat max_retries)%nat
     /\ net (sent log' - 1)%nat = Http status text (Return data)
     /\ 200 <= status <= 299
     /\ parse_cloud_eval fen depth data = Raise e)
  \/ (sent log' = (sent log + Z.to_nat max_retries)%nat
      /\ attempt_body has_token max_retries (max_retries - 1)
           (net (sent log' - 1)%nat) = Throw e).
Proof.
  unfold fetch_cloud_eval. rewrite range_seq. intros Hmr Hrun.
  pose proof (attempts_loop_end has_token max_retries net
                (Z.to_nat max_retries) 0 None log ltac:(lia) ltac:(lia)) as Hend.
  destruct (attempts_loop _ _ _ _ None log) as [[data|le|e0] log1].
  - destruct Hend as (k & status & text & Hk & Hsent & Hnet & Hok).
    injection Hrun as Hparse <-. left. exists status, text, data.
    replace (sent log1 - 1)%nat with (sent log + k)%nat by lia.
    unfold is_success in Hok. apply andb_prop in Hok as [Hlo Hhi].
    repeat split; auto; lia.
  - destruct Hend.
  - destruct Hend as [Hsent Hbody]. injection Hrun as <- <-. right.
    split; [exact Hsent|].
    replace (sent log1 - 1)%nat with (sent log + Z.to_nat max_retries - 1)%nat
      by lia.
    exact Hbody.
Qed.

Lemma fetch_cloud_eval_raises_at_last_attempt_witness :
  let outcome := fetch_cloud_eval false (net_404 InitialPosition)
                   (L "startpos") 15 3 log0 in
  sent (snd outcome) = 3%nat
  /\ slept (snd outcome) = [2000; 1000]
  /\ exists e, fst outcome = Raise e /\ kind e = ValueError.
Proof.
  intros outcome.
  assert (Hrun : outcome
                 = (Raise (mkExn ValueError
                      (L "Cloud eval not available for this position (404) - position may not be evaluated yet")),
                    mkNetLog 3 [2000; 1000])) by (vm_compute; reflexivity).
  destruct (fetch_cloud_eval_raises_at_last_attempt false
              (net_404 InitialPosition) (L "startpos") 15 3 log0 _ _
              ltac:(lia) Hrun) as [(status & text & data & _ & Hnet & _)|[Hsent _]].
  - discriminate Hnet.
  - rewrite Hrun. split; [exact Hsent|]. split; [reflexivity|].
    eexists. split; reflexivity.
Defined.

(** ** [fetch_cloud_eval]: the principal variation of the response *)

Lemma lstrip_empty_blank (p : ascii -> bool) (s : str) :
  lstrip_by p s = [] -> forallb p s = true.
Proof.
  induction s as [|c s IH]; simpl; [reflexivity|].
  destruct (p c); [exact IH|discriminate].
Qed.

Lemma lstrip_head (p : ascii -> bool) (s : str) :
  stops p (lstrip_by p s) = true.
Proof.
  induction s as [|c s IH]; simpl; [reflexivity|].
  destruct (p c) eqn:Hc; [exact IH|]. simpl. now rewrite Hc.
Qed.

Lemma strip_empty_blank (s : str) : strip s = [] -> forallb is_space s = true.
Proof.
  unfold strip, rstrip_by. intros Hs.
  assert (Hr : lstrip_by is_space (rev (lstrip_by is_space s)) = []).
  { apply (f_equal (@rev ascii)) in Hs. now rewrite rev_involutive in Hs. }
  apply lstrip_empty_blank in Hr. rewrite forallb_rev in Hr.
  pose proof (lstrip_head is_space s) as Hhead.
  destruct (lstrip_by is_space s) as [|c t] eqn:Hl.
  - now apply lstrip_empty_blank.
  - simpl in Hr, Hhead. apply andb_prop in Hr as [Hc _].
    rewrite Hc in Hhead. discriminate.
Qed.

Lemma split_ws_blank : forall s, forallb is_space s = true -> split_ws_from [] s = [].
Proof.
  induction s as [|c s IH]; [reflexivity|].
  simpl. intros Hs. apply andb_prop in Hs as [Hc Hs]. rewrite Hc. now apply IH.
Qed.

(** The fields of [str.split()] are not empty and hold no whitespace. *)
Lemma split_ws_fields : forall s cur,
  no_space cur = true ->
  Forall (fun field => field <> [] /\ no_space field = true) (split_ws_from cur s).
Proof.
  induction s as [|c s IH]; intros cur Hcur; simpl.
  - destruct cur as [|x cur]; constructor; [|constructor].
    split; [|unfold no_space in *; now rewrite forallb_rev].
    intros Hrev. apply (f_equal (@length ascii)) in Hrev.
    rewrite length_rev in Hrev. discriminate.
  - destruct (is_space c) eqn:Hc.
    + destruct cur as [|x cur]; [now apply IH|].
      constructor; [|now apply IH].
      split; [|unfold no_space in *; now rewrite forallb_rev].
      intros Hrev. apply (f_equal (@length ascii)) in Hrev.
      rewrite length_rev in Hrev. discriminate.
    + apply IH. unfold no_space in *. simpl. now rewrite Hc.
Qed.

(** X4. When the first entry of [pvs] gives its moves as a text that is
    not empty, the principal variation of the parsed evaluation is the
    list of the whitespace-separated fields of that text: no move of it is
    empty or holds whitespace, and a text of whitespace only gives no
    move. *)
Theorem parse_cloud_eval_moves_text (fen : str) (depth : Z) (data : Payload)
    (entry : PvEntry) (others : list PvEntry) (text : str) :
  p_pvs data = Some (entry :: others) ->
  e_moves entry = Some (PvText text) ->
  text <> [] ->
  exists ev,
    parse_cloud_eval fen depth data = Return ev
    /\ pv ev = split_ws text
    /\ Forall (fun m => m <> [] /\ no_space m = true) (pv ev)
    /\ (forallb is_space text = true -> pv ev = []).
Proof.
  intros Hpvs Hmoves Htext. unfold parse_cloud_eval. rewrite Hpvs.
  cbn [bind]. rewrite Hmoves.
  destruct text as [|c text]; [contradiction|]. cbn [pv_truthy is_empty negb].
  eexists. split; [reflexivity|]. cbn [pv].
  assert (Hpv : (if negb (is_empty (strip (c :: text)))
                 then split_ws (c :: text) else [])
                = split_ws (c :: text)).
  { destruct (strip (c :: text)) eqn:Hs; [|reflexivity].
    cbn [is_empty negb]. symmetry. apply split_ws_blank.
    now apply strip_empty_blank. }
  rewrite Hpv. split; [reflexivity|]. split.
  - now apply split_ws_fields.
  - apply split_ws_blank.
Qed.

Lemma parse_cloud_eval_moves_text_witness :
  exists ev,
    parse_cloud_eval (L "startpos") 15
      (mkPayload None None None
         (Some [mkPvEntry (Some 18) None (Some (PvText (L " e7e5  g1f3 "))) None]))
    = Return ev
    /\ pv ev = [L "e7e5"; L "g1f3"].
Proof.
  destruct (parse_cloud_eval_moves_text (L "startpos") 15
              (mkPayload None None None
                 (Some [mkPvEntry (Some 18) None
                          (Some (PvText (L " e7e5  g1f3 "))) None]))
              (mkPvEntry (Some 18) None (Some (PvText (L " e7e5  g1f3 "))) None)
              [] (L " e7e5  g1f3 ") eq_refl eq_refl ltac:(discriminate))
    as (ev & Hev & Hpv & _).
  exists ev. split; [exact Hev|]. rewrite Hpv. reflexivity.
Defined.

(** ** The task of one move *)

Section TaskCost.
Variable has_token : bool.
Variable net : Task -> nat -> Response.

Lemma fetch_twice_bound (fen : str) (index : nat) (log log' : NetLog)
    (outcome : result CloudEval) :
  fetch_cloud_eval has_token (net (AfterMove index)) fen 15 2 log = (outcome, log') ->
  (sent log' <= sent log + 2)%nat.
Proof.
  intros Hrun.
  now apply requests_at_most in Hrun.
Qed.

(** A service that answers 404 to every request of a task. *)
Lemma fetch_all_404 (fen : str) (index : nat) (log : NetLog) :
  (forall k, exists text body, net (AfterMove index) k = Http 404 text body) ->
  fetch_cloud_eval has_token (net (AfterMove index)) fen 15 2 log
  = (Raise (mkExn ValueError
       (L "Cloud eval not available for this position (404) - position may not be evaluated yet")),
     mkNetLog (S (S (sent log))) (1000 :: slept log)).
Proof.
  intros H404. unfold fetch_cloud_eval. change (range 2) with [0; 1].
  cbn [attempts_loop].
  destruct (H404 (sent log)) as (t0 & b0 & H0). rewrite H0.
  change (attempt_body has_token 2 0 (Http 404 t0 b0))
    with (Throw (mkExn ValueError
      (L "Cloud eval not available for this position (404) - position may not be evaluated yet"))).
  change (0 <? 2 - 1) with true. cbv iota.
  cbn [log_request log_sleep sent slept].
  destruct (H404 (S (sent log))) as (t1 & b1 & H1). rewrite H1.
  change (attempt_body has_token 2 1 (Http 404 t1 b1))
    with (Throw (mkExn ValueError
      (L "Cloud eval not available for this position (404) - position may not be evaluated yet"))).
  change (1 <? 2 - 1) with false. cbv iota.
  reflexivity.
Qed.
End TaskCost.

(** X5. The task of one move sends at most four requests (none for a
    move without a position key).  When the service answers 404 to every
    request of the task, the task sends two requests, waits one second in
    between, and ends with the zero placeholder for the position. *)
Theorem fetch_with_semaphore_cost (has_token : bool)
    (net : Task -> nat -> Response) (fen : option str) (index : nat)
    (outcome : result CloudEval) (log' : NetLog) :
  fetch_with_semaphore has_token net fen index log0 = (outcome, log') ->
  (sent log' <= 4)%nat
  /\ (fen = None -> sent log' = 0%nat)
  /\ (forall f, fen = Some f ->
      (forall k, exists text body, net (AfterMove index) k = Http 404 text body) ->
      outcome = Return (mkCloudEval f (Some 0) None 0 0 [])
      /\ sent log' = 2%nat /\ slept log' = [1000]).
Proof.
  unfold fetch_with_semaphore, io_try, io_bind, io_sleep, io_ret.
  intros Hrun. destruct fen as [f|].
  - split; [|split; [discriminate|]].
    + destruct (fetch_cloud_eval _ _ _ _ _ log0) as [[ev|e] log1] eqn:E1.
      * apply fetch_twice_bound in E1. injection Hrun as <- <-. simpl in E1. lia.
      * apply fetch_twice_bound in E1. simpl in E1.
        destruct (_ || _).
        -- destruct (fetch_cloud_eval _ _ _ _ _ (log_sleep 500 log1))
             as [[ev|e'] log2] eqn:E2;
             apply fetch_twice_bound in E2; simpl in E2;
             injection Hrun as <- <-; lia.
        -- injection Hrun as <- <-. lia.
    + intros f' [= <-] H404.
      rewrite (fetch_all_404 has_token net f index log0 H404) in Hrun.
      cbn [message] in Hrun.
      change (contains (L "429") _ || contains (L "rate limit") _)
        with false in Hrun.
      injection Hrun as <- <-. repeat split.
  - injection Hrun as <- <-.
    split; [simpl; lia|]. split; [reflexivity|discriminate].
Qed.

Lemma fetch_with_semaphore_cost_witness :
  fetch_with_semaphore false net_404 (Some (L "e4 ")) 0 log0
  = (Return (mkCloudEval (L "e4 ") (Some 0) None 0 0 []), mkNetLog 2 [1000]).
Proof.
  destruct (fetch_with_semaphore false net_404 (Some (L "e4 ")) 0 log0)
    as [outcome log'] eqn:Hrun.
  destruct (fetch_with_semaphore_cost false net_404 (Some (L "e4 ")) 0
              outcome log' Hrun) as (_ & _ & H404).
  destruct (H404 (L "e4 ") eq_refl) as (-> & Hsent & Hslept).
  - intros k. eexists. eexists. reflexivity.
  - destruct log' as [n sl]. simpl in Hsent, Hslept. now subst.
Defined.

(** ** The event loop: the progress calls *)

Section LoopInvariants.
Variable has_token : bool.
Variable net : Task -> nat -> Response.
Variable progress_callback : bool.

Lemma filled_insert : forall (l : list (option CloudEval)) i ev,
  l !! i = Some None -> filled (<[i := Some ev]> l) = S (filled l).
Proof.
  unfold filled. induction l as [|o l IH]; intros i ev Hi; [discriminate|].
  destruct i as [|i]; simpl in *.
  - injection Hi as ->. reflexivity.
  - destruct o; simpl; now rewrite IH.
Qed.

Lemma calls_until_S (c total : nat) :
  calls_until (S c) total
  = (progress_percent (S c) total, S c, total) :: calls_until c total.
Proof.
  unfold calls_until. rewrite seq_S, rev_app_distr. reflexivity.
Qed.

Lemma step_progress fens ev (st st' : Loop) :
  step has_token net progress_callback fens ev st = Some st' ->
  progress_ok progress_callback (length fens) st -> progress_ok progress_callback (length fens) st'.
Proof.
  intros Hstep [Hcount Hcalls].
  assert (Hfin : forall index fen, slots st !! index = Some None ->
            progress_ok progress_callback (length fens)
              (finish has_token net progress_callback (length fens) index fen st)).
  { intros index fen Hslot. rewrite finish_eq. split; cbn [completed_count slots progress_calls].
    - now rewrite filled_insert, Hcount.
    - rewrite Hcalls. destruct progress_callback; [|reflexivity].
      now rewrite calls_until_S. }
  destruct ev as [index|index]; cbn [step] in Hstep.
  - destruct (fens !! index) as [[fen|]|]; try discriminate.
    destruct (_ && _); [|discriminate].
    injection Hstep as <-. split; assumption.
  - destruct (fens !! index) as [[fen|]|]; try discriminate.
    + destruct (slots st !! index) as [[?|]|] eqn:Hslot; try discriminate.
      destruct (existsb _ _); [|discriminate].
      injection Hstep as <-. now apply Hfin.
    + unfold is_free in Hstep.
      destruct (slots st !! index) as [[?|]|] eqn:Hslot; try discriminate.
      destruct (negb _); [|discriminate].
      injection Hstep as <-. now apply Hfin.
Qed.

Lemma run_progress fens evs : forall st st',
  run has_token net progress_callback fens evs st = Some st' ->
  progress_ok progress_callback (length fens) st -> progress_ok progress_callback (length fens) st'.
Proof.
  induction evs as [|ev evs IH]; intros st st' Hrun Hok.
  - simpl in Hrun. destruct (first_error st); congruence.
  - simpl in Hrun. destruct (first_error st); [congruence|].
    destruct (step _ _ _ _ _ st) as [st1|] eqn:Hstep; [|discriminate].
    eapply IH; [eassumption|]. eapply step_progress; eassumption.
Qed.

Lemma filled_all_some (l : list (option CloudEval)) (xs : list CloudEval) :
  all_some l = Some xs -> filled l = length l.
Proof.
  unfold filled. revert xs. induction l as [|[x|] l IH]; intros xs E; simpl in *.
  - reflexivity.
  - destruct (all_some l) as [ys|]; [|discriminate]. now rewrite (IH ys).
  - discriminate.
Qed.
End LoopInvariants.

Lemma filled_start (n : nat) : filled (replicate n None) = 0%nat.
Proof. unfold filled. induction n as [|n IH]; [reflexivity|exact IH]. Qed.

(** A ratio of one is the float 1.0. *)
Lemma b64_of_ratio_same (z : Z) : 0 < z -> b64_of_ratio z z = Fin (2 ^ 52) (-52).
Proof.
  intros Hz. unfold b64_of_ratio.
  destruct (Z.eqb_spec z 0) as [->|_]; [lia|].
  rewrite Z.abs_eq, Z.sub_diag by lia.
  change (0 <=? 0) with true. cbv iota.
  rewrite Z.pow_0_r, Z.mul_1_r, Z.leb_refl.
  change (Z.max (0 - 52) (-1074)) with (-52).
  change (0 <=? -52) with false. cbv iota.
  change (- -52) with 52.
  replace (z * 2 ^ 52) with (2 ^ 52 * z) by lia.
  rewrite Z.div_mul, Z.mod_mul by lia.
  change (2 * 0) with 0.
  destruct (Z.ltb_spec 0 z) as [_|]; [|lia].
  change ((971 <? -52) || (-52 =? 971) && (2 ^ 52 =? 2 ^ 53)) with false.
  cbv iota.
  destruct (Z.ltb_spec z 0) as [|_]; [lia|]. reflexivity.
Qed.

Lemma progress_percent_done (n : nat) :
  (0 < n)%nat -> progress_percent n n = Some 100.
Proof.
  intros Hn. unfold progress_percent.
  rewrite b64_of_ratio_same by lia. vm_compute. reflexivity.
Qed.

(** X7. The progress callback is called once for each task that ends, in
    the order in which they end: the k-th call reports [k] completed tasks
    of the total, whatever the order of the tasks; when [gather] returns
    the counter is the number of moves and the last call reported 100
    percent. *)
Theorem progress_calls_count_up (has_token : bool)
    (net : Task -> nat -> Response) (fens : list (option str))
    (schedule : list Event) (st : Loop) :
  run has_token net true fens schedule (loop_start fens) = Some st ->
  completed_count st = filled (slots st)
  /\ progress_calls st = calls_until (completed_count st) (length fens)
  /\ (forall results, all_some (slots st) = Some results -> fens <> [] ->
      completed_count st = length fens
      /\ exists earlier,
           progress_calls st = (Some 100, length fens, length fens) :: earlier).
Proof.
  intros Hrun.
  pose proof (run_ok _ _ _ _ _ _ _ Hrun (init_ok has_token net fens))
    as (_ & Hlen & _).
  apply run_progress in Hrun;
    [|split; [symmetry; apply filled_start|reflexivity]].
  destruct Hrun as [Hcount Hcalls].
  split; [exact Hcount|]. split; [exact Hcalls|].
  intros results Hall Hne.
  apply filled_all_some in Hall.
  assert (Hn : completed_count st = length fens) by congruence.
  split; [exact Hn|].
  rewrite Hcalls, Hn.
  destruct (length fens) as [|n] eqn:Hfens.
  - destruct fens; [contradiction|discriminate].
  - rewrite calls_until_S, progress_percent_done by lia. eauto.
Qed.

Lemma progress_calls_count_up_witness :
  let fens := @fens_to_eval MiniChess new_board (gd_moves three_move_game) in
  exists st,
    run false net_cp18 true fens (schedule_of_order fens [2; 0; 1]%nat)
      (loop_start fens) = Some st
    /\ progress_calls st = [(Some 100, 3%nat, 3%nat); (Some 66, 2%nat, 3%nat);
                            (Some 33, 1%nat, 3%nat)].
Proof.
  intros fens.
  destruct (run false net_cp18 true fens (schedule_of_order fens [2; 0; 1]%nat)
              (loop_start fens)) as [st|] eqn:Hrun.
  - exists st. split; [reflexivity|].
    destruct (progress_calls_count_up false net_cp18 fens _ st Hrun)
      as (_ & Hcalls & _).
    rewrite Hcalls.
    assert (Hst : completed_count st = 3%nat).
    { vm_compute in Hrun. injection Hrun as <-. reflexivity. }
    rewrite Hst. vm_compute. reflexivity.
  - vm_compute in Hrun. discriminate.
Defined.

(** ** The report of [analyze_game]: counts and chaining *)

Lemma count_if_le (f g : MoveEvaluation -> bool) (l : list MoveEvaluation) :
  (forall e, f e = true -> g e = true) -> count_if f l <= count_if g l.
Proof.
  intros Hfg. unfold count_if. apply inj_le.
  induction l as [|e l IH]; simpl; [lia|].
  destruct (f e) eqn:Hf.
  - rewrite (Hfg e Hf). simpl. lia.
  - destruct (g e); simpl; lia.
Qed.

Lemma count_if_disjoint (f g : MoveEvaluation -> bool) (l : list MoveEvaluation) :
  (forall e, f e = true -> g e = false) ->
  count_if f l + count_if g l <= Z.of_nat (length l).
Proof.
  intros Hfg. unfold count_if.
  induction l as [|e l IH]; simpl; [lia|].
  destruct (f e) eqn:Hf.
  - rewrite (Hfg e Hf). simpl length. lia.
  - destruct (g e); simpl length; lia.
Qed.

(** X8. The counts of a report: [total_moves] is the number of records,
    at most the number of input moves; on each side the blunders are
    among the mistakes; the mistakes of the two sides together are at most
    [total_moves]; the report carries the game it was given. *)
Theorem report_counts `{ChessLib} (has_token : bool)
    (net : Task -> nat -> Response) (progress_callback : bool)
    (game_data0 : GameData) (schedule : list Event) (report : AnalysisReport) :
  analyze_game has_token net progress_callback game_data0 schedule
    = Some (Return report) ->
  total_moves report = Z.of_nat (length (evaluations report))
  /\ 0 <= total_moves report <= Z.of_nat (length (gd_moves game_data0))
  /\ 0 <= white_blunders report <= white_mistakes report
  /\ 0 <= black_blunders report <= black_mistakes report
  /\ white_mistakes report + black_mistakes report <= total_moves report
  /\ game_id report = gd_game_id game_data0
  /\ game_data report = game_data0.
Proof.
  intros Hrun. apply analyze_game_report in Hrun. injection Hrun as ->.
  unfold report_of, make_report.
  cbn [total_moves evaluations white_blunders white_mistakes black_blunders
       black_mistakes game_id game_data].
  set (records := analyze_moves _ _ _ _ _ _).
  assert (Hlen : (length records <= length (gd_moves game_data0))%nat).
  { subst records. etransitivity; [apply analyze_moves_length|].
    rewrite length_zip_with. lia. }
  assert (Hblunder : forall c, Category_eqb c blunder = true -> is_mistake c = true).
  { intros c Hc. unfold is_mistake. rewrite Hc. apply orb_true_r. }
  split; [reflexivity|]. split; [lia|].
  split; [split; [unfold count_if; lia|]|].
  { apply count_if_le. intros e He. apply andb_prop in He as [Hs Hc].
    now rewrite Hs, (Hblunder _ Hc). }
  split; [split; [unfold count_if; lia|]|].
  { apply count_if_le. intros e He. apply andb_prop in He as [Hs Hc].
    now rewrite Hs, (Hblunder _ Hc). }
  split; [|split; reflexivity].
  apply count_if_disjoint. intros e He. apply andb_prop in He as [Hs _].
  destruct (player e); [reflexivity|discriminate].
Qed.

Lemma report_counts_witness :
  let report := @report_of MiniChess true net_cp18 three_move_game in
  white_mistakes report + black_mistakes report <= total_moves report
  /\ total_moves report = 3.
Proof.
  intros report.
  destruct (@report_counts MiniChess true net_cp18 true three_move_game
              (schedule_of_order
                 (@fens_to_eval MiniChess new_board (gd_moves three_move_game))
                 [0; 1; 2]%nat) report)
    as (Htotal & _ & _ & _ & Hsum & _).
  - vm_compute. reflexivity.
  - split; [exact Hsum|]. rewrite Htotal. vm_compute. reflexivity.
Defined.

Section Chain.
Context `{ChessLib}.

Lemma analyze_moves_chain : forall items board previous_eval is_white n k r1 r2,
  analyze_moves board previous_eval is_white n items [] !! k = Some r1 ->
  analyze_moves board previous_eval is_white n items [] !! S k = Some r2 ->
  before_eval r2 = after_eval r1.
Proof.
  induction items as [|[m a] items IH]; intros board prev w n k r1 r2 H1 H2.
  - destruct k; discriminate.
  - rewrite analyze_moves_cons in H1, H2.
    pose proof (analyze_move_cases board prev w n m a) as Hc.
    destruct (analyze_move board prev w n m a) as [b' [r0|e]].
    + simpl in H2. destruct k as [|k].
      * injection H1 as <-.
        apply analyze_moves_records in H2 as (_ & _ & _ & _ & _ & Hfirst).
        destruct Hc as (_ & _ & _ & _ & _ & Hae & _).
        rewrite Hae. now apply Hfirst.
      * simpl in H1. eapply IH; eauto.
    + eapply IH; eauto.
Qed.
End Chain.

(** X9. The records of a report are chained: the first record starts
    from the evaluation of the initial position, and every other record
    starts from the evaluation after the record before it, also when moves
    in between were skipped. *)
Theorem report_evaluations_chained `{ChessLib} (has_token : bool)
    (net : Task -> nat -> Response) (progress_callback : bool)
    (game_data0 : GameData) (schedule : list Event) (report : AnalysisReport) :
  analyze_game has_token net progress_callback game_data0 schedule
    = Some (Return report) ->
  (forall r, evaluations report !! 0%nat = Some r ->
     before_eval r = initial_eval_of has_token net (board_fen new_board))
  /\ (forall k r1 r2,
     evaluations report !! k = Some r1 ->
     evaluations report !! S k = Some r2 ->
     before_eval r2 = after_eval r1).
Proof.
  intros Hrun. apply analyze_game_report in Hrun. injection Hrun as ->.
  split.
  - intros r Hr. apply report_records in Hr as (_ & _ & _ & _ & _ & _ & Hfirst).
    now apply Hfirst.
  - unfold report_of, make_report. cbn [evaluations].
    intros k r1 r2. apply analyze_moves_chain.
Qed.

Lemma report_evaluations_chained_witness :
  let report := @report_of MiniChess false net_404 skipped_game in
  match evaluations report !! 0%nat, evaluations report !! 1%nat with
  | Some r1, Some r2 => before_eval r2 = after_eval r1
  | _, _ => False
  end.
Proof.
  intros report.
  destruct (@report_evaluations_chained MiniChess false net_404 false skipped_game
              (schedule_of_order
                 (@fens_to_eval MiniChess new_board (gd_moves skipped_game))
                 [0; 1; 2]%nat) report) as (_ & Hchain).
  - vm_compute. reflexivity.
  - destruct (evaluations report !! 0%nat) as [r1|] eqn:E1;
      [|vm_compute in E1; discriminate].
    destruct (evaluations report !! 1%nat) as [r2|] eqn:E2;
      [|vm_compute in E2; discriminate].
    exact (Hchain 0%nat r1 r2 E1 E2).
Defined.

(** ** [backend/game_stats.py]: the categorizer and the statistics *)

(** X10. The label of [categorize_move_from_evals] does not depend on the
    direction of the change nor on the mover: the evaluations swapped give
    the same label. *)
Theorem categorize_from_evals_symmetric (before_eval after_eval : option PgnEval) :
  categorize_move_from_evals before_eval after_eval
  = categorize_move_from_evals after_eval before_eval.
Proof.
  destruct before_eval as [[bc bm]|], after_eval as [[ac am]|]; try reflexivity.
  unfold categorize_move_from_evals; cbn [pe_cp pe_mate].
  rewrite orb_comm. destruct (is_not_None am || is_not_None bm); [reflexivity|].
  destruct bc as [b|], ac as [a|]; try reflexivity.
  replace (Z.abs (b - a)) with (Z.abs (a - b)) by lia. reflexivity.
Qed.

(** X11. The two categorizers on the same pair of centipawn values, for
    either mover: the label of [categorize_move_from_evals] is never more
    severe than the one [categorize_move] gives to the delta of
    [calculate_evaluation_delta], it is at most one step milder, and the
    two agree exactly when the change is below 10 or at least 200. *)
Theorem stats_label_never_harsher (b a : Z) (is_white_turn : bool)
    (fen_b fen_a : str) (depth_b depth_a nodes_b nodes_a : Z)
    (pv_b pv_a : list str) :
  let before_eval := mkCloudEval fen_b (Some b) None depth_b nodes_b pv_b in
  let after_eval := mkCloudEval fen_a (Some a) None depth_a nodes_a pv_a in
  let delta := calculate_evaluation_delta before_eval after_eval is_white_turn in
  let live := categorize_move (fst delta) (snd delta) in
  let stored :=
    categorize_move_from_evals (Some (mkPgnEval (Some b) None))
      (Some (mkPgnEval (Some a) None)) in
  severity stored <= severity live <= severity stored + 1
  /\ (stored = live <-> Z.abs (a - b) < 10 \/ 200 <= Z.abs (a - b)).
Proof.
  cbv zeta. unfold calculate_evaluation_delta, categorize_move_from_evals.
  cbn [mate cp is_not_None orb pe_cp pe_mate fst snd].
  assert (Hz : forall v, or_zero (Some v) = v).
  { intros v. unfold or_zero. destruct (Z.eqb_spec v 0); lia. }
  rewrite !Hz.
  assert (Habs : Z.abs (if is_white_turn then a - b else b - a) = Z.abs (a - b)).
  { destruct is_white_turn; lia. }
  unfold categorize_move. rewrite Habs.
  set (d := Z.abs (a - b)).
  destruct (Z.ltb_spec d 10), (Z.ltb_spec d 50), (Z.ltb_spec d 100),
    (Z.ltb_spec d 200), (Z.ltb_spec d 300); try lia;
    cbn [severity]; (split; [lia|]);
    (split; [intros Heq; try discriminate Heq; lia | intros Hd; try reflexivity; lia]).
Qed.

Lemma str_eqb_eq (a b : str) : str_eqb a b = true <-> a = b.
Proof.
  unfold str_eqb. split.
  - intros Hab. apply andb_prop in Hab as [Hlen Hpre].
    apply Nat.eqb_eq in Hlen.
    revert b Hlen Hpre. induction a as [|c a IH]; intros [|c' b] Hlen Hpre;
      try reflexivity; try discriminate.
    cbn [startswith] in Hpre. apply andb_prop in Hpre as [Hc Hpre].
    apply Ascii.eqb_eq in Hc. subst c'. f_equal. apply IH; [|exact Hpre].
    simpl in Hlen. lia.
  - intros ->. rewrite Nat.eqb_refl. cbn [andb].
    induction b as [|c b IH]; [reflexivity|].
    cbn [startswith]. now rewrite Ascii.eqb_refl, IH.
Qed.

Lemma category_name_inj (c1 c2 : Category) :
  category_name c1 = category_name c2 -> c1 = c2.
Proof. destruct c1, c2; intros Heq; try reflexivity; discriminate Heq. Qed.

Lemma count_category_field (c : Category) (counts : CategoryCounts) (category : str) :
  count_of c (count_category counts category)
  = count_of c counts + (if str_eqb category (category_name c) then 1 else 0).
Proof.
  assert (Hne : forall c1 c2,
            str_eqb category (category_name c1) = true -> c1 <> c2 ->
            str_eqb category (category_name c2) = false).
  { intros c1 c2 H1 Hc. destruct (str_eqb category (category_name c2)) eqn:H2;
      [|reflexivity].
    apply str_eqb_eq in H1, H2. exfalso. apply Hc, category_name_inj. congruence. }
  unfold count_category.
  change (L "accurate") with (category_name accurate).
  change (L "good") with (category_name good).
  change (L "inaccuracy") with (category_name inaccuracy).
  change (L "mistake") with (category_name mistake).
  change (L "blunder") with (category_name blunder).
  destruct (str_eqb category (category_name accurate)) eqn:Ha.
  { destruct c; cbn [count_of n_accurate n_good n_inaccuracy n_mistake n_blunder];
      first [rewrite Ha | rewrite (Hne _ _ Ha) by discriminate]; lia. }
  destruct (str_eqb category (category_name good)) eqn:Hg.
  { destruct c; cbn [count_of n_accurate n_good n_inaccuracy n_mistake n_blunder];
      first [rewrite Hg | rewrite (Hne _ _ Hg) by discriminate]; lia. }
  destruct (str_eqb category (category_name inaccuracy)) eqn:Hi.
  { destruct c; cbn [count_of n_accurate n_good n_inaccuracy n_mistake n_blunder];
      first [rewrite Hi | rewrite (Hne _ _ Hi) by discriminate]; lia. }
  destruct (str_eqb category (category_name mistake)) eqn:Hm.
  { destruct c; cbn [count_of n_accurate n_good n_inaccuracy n_mistake n_blunder];
      first [rewrite Hm | rewrite (Hne _ _ Hm) by discriminate]; lia. }
  destruct (str_eqb category (category_name blunder)) eqn:Hb.
  { destruct c; cbn [count_of n_accurate n_good n_inaccuracy n_mistake n_blunder];
      first [rewrite Hb | rewrite (Hne _ _ Hb) by discriminate]; lia. }
  destruct c; rewrite ?Ha, ?Hg, ?Hi, ?Hm, ?Hb; lia.
Qed.

Lemma fold_counts (c : Category) (entries : list EvalEntry) (counts : CategoryCounts) :
  count_of c
    (fold_left
       (fun counts eval_data =>
          count_category counts (default (L "accurate") (en_category eval_data)))
       entries counts)
  = count_of c counts + how_many (has_label c) entries.
Proof.
  unfold how_many. revert counts.
  induction entries as [|d entries IH]; intros counts; cbn [fold_left List.filter].
  - simpl. lia.
  - rewrite IH, count_category_field. unfold has_label at 2.
    destruct (str_eqb _ (category_name c)); simpl length; lia.
Qed.

Lemma how_many_bounds {A} (f : A -> bool) (l : list A) :
  0 <= how_many f l <= Z.of_nat (length l).
Proof.
  unfold how_many. split; [lia|]. apply inj_le.
  induction l as [|x l IH]; simpl; [lia|]. destruct (f x); simpl; lia.
Qed.

Lemma has_label_once (c1 c2 : Category) (d : EvalEntry) :
  has_label c1 d = true -> has_label c2 d = true -> c1 = c2.
Proof.
  unfold has_label. intros H1 H2. apply str_eqb_eq in H1, H2.
  apply category_name_inj. congruence.
Qed.

Lemma labels_disjoint (entries : list EvalEntry) :
  how_many (has_label accurate) entries + how_many (has_label good) entries
  + how_many (has_label inaccuracy) entries + how_many (has_label mistake) entries
  + how_many (has_label blunder) entries
  = how_many (fun d => existsb (fun c => has_label c d)
                         [accurate; good; inaccuracy; mistake; blunder]) entries.
Proof.
  unfold how_many. induction entries as [|d entries IH]; [reflexivity|].
  cbn [List.filter existsb] in IH |- *.
  pose proof (has_label_once accurate good d) as Hag.
  pose proof (has_label_once accurate inaccuracy d) as Hai.
  pose proof (has_label_once accurate mistake d) as Ham.
  pose proof (has_label_once accurate blunder d) as Hab.
  pose proof (has_label_once good inaccuracy d) as Hgi.
  pose proof (has_label_once good mistake d) as Hgm.
  pose proof (has_label_once good blunder d) as Hgb.
  pose proof (has_label_once inaccuracy mistake d) as Him.
  pose proof (has_label_once inaccuracy blunder d) as Hib.
  pose proof (has_label_once mistake blunder d) as Hmb.
  destruct (has_label accurate d), (has_label good d), (has_label inaccuracy d),
    (has_label mistake d), (has_label blunder d);
    try (discriminate (Hag eq_refl eq_refl)); try (discriminate (Hai eq_refl eq_refl));
    try (discriminate (Ham eq_refl eq_refl)); try (discriminate (Hab eq_refl eq_refl));
    try (discriminate (Hgi eq_refl eq_refl)); try (discriminate (Hgm eq_refl eq_refl));
    try (discriminate (Hgb eq_refl eq_refl)); try (discriminate (Him eq_refl eq_refl));
    try (discriminate (Hib eq_refl eq_refl)); try (discriminate (Hmb eq_refl eq_refl));
    cbn [orb length]; lia.
Qed.

Lemma player_counts (evaluations : list EvalEntry) (is_white : bool) :
  let stats := calculate_player_stats evaluations is_white in
  let mine := List.filter (is_player_entry is_white) evaluations in
  ps_total_moves stats = Z.of_nat (length mine)
  /\ (forall c, count_of c (ps_counts stats) = how_many (has_label c) mine).
Proof.
  cbv zeta. set (mine := List.filter (is_player_entry is_white) evaluations).
  split.
  - unfold calculate_player_stats. fold mine.
    destruct (Z.eqb_spec (Z.of_nat (length mine)) 0) as [Hz|Hz]; [|reflexivity].
    cbn [ps_total_moves]. lia.
  - intros c. unfold calculate_player_stats. fold mine.
    destruct (Z.eqb_spec (Z.of_nat (length mine)) 0) as [Hz|Hz].
    + destruct mine; [|simpl in Hz; lia]. destruct c; reflexivity.
    + cbn [ps_counts]. rewrite fold_counts. destruct c; simpl; lia.
Qed.

Lemma player_counts_sum (evaluations : list EvalEntry) (is_white : bool) :
  let stats := calculate_player_stats evaluations is_white in
  let mine := List.filter (is_player_entry is_white) evaluations in
  n_accurate (ps_counts stats) + n_good (ps_counts stats)
  + n_inaccuracy (ps_counts stats) + n_mistake (ps_counts stats)
  + n_blunder (ps_counts stats)
  = how_many (fun d => existsb (fun c => has_label c d)
                         [accurate; good; inaccuracy; mistake; blunder]) mine.
Proof.
  cbv zeta. destruct (player_counts evaluations is_white) as [_ Hcounts].
  cbv zeta in Hcounts. rewrite <- labels_disjoint.
  rewrite <- (Hcounts accurate), <- (Hcounts good), <- (Hcounts inaccuracy),
    <- (Hcounts mistake), <- (Hcounts blunder). reflexivity.
Qed.

(** X12. The statistics of a player count the entries of that player
    (a ply above zero, odd for White, even for Black): [total_moves] is
    their number, the count of each of the five labels is the number of
    them with that label (a missing category counts as accurate), and the
    five counts add up to the number of them whose category is one of the
    five labels; an entry with another category is in [total_moves] and in
    no count. *)
Theorem player_stats_counts (evaluations : list EvalEntry) (is_white : bool) :
  let stats := calculate_player_stats evaluations is_white in
  let mine := List.filter (is_player_entry is_white) evaluations in
  ps_total_moves stats = Z.of_nat (length mine)
  /\ (forall c, count_of c (ps_counts stats) = how_many (has_label c) mine)
  /\ n_accurate (ps_counts stats) + n_good (ps_counts stats)
     + n_inaccuracy (ps_counts stats) + n_mistake (ps_counts stats)
     + n_blunder (ps_counts stats)
     = how_many (fun d => existsb (fun c => has_label c d)
                            [accurate; good; inaccuracy; mistake; blunder]) mine
  /\ n_accurate (ps_counts stats) + n_good (ps_counts stats)
     + n_inaccuracy (ps_counts stats) + n_mistake (ps_counts stats)
     + n_blunder (ps_counts stats) <= ps_total_moves stats.
Proof.
  cbv zeta.
  destruct (player_counts evaluations is_white) as [Htotal Hcounts].
  pose proof (player_counts_sum evaluations is_white) as Hsum.
  cbv zeta in Htotal, Hcounts, Hsum.
  split; [exact Htotal|]. split; [exact Hcounts|]. split; [exact Hsum|].
  rewrite Hsum, Htotal. apply how_many_bounds.
Qed.

Lemma filter_parity (evaluations : list EvalEntry) :
  how_many (is_player_entry true) evaluations
  + how_many (is_player_entry false) evaluations
  = how_many played evaluations.
Proof.
  assert (Hd : forall d,
            (played d = false /\ is_player_entry true d = false
             /\ is_player_entry false d = false)
            \/ (played d = true
                /\ is_player_entry true d = negb (is_player_entry false d))).
  { intros d. unfold is_player_entry, played.
    destruct (default 0 (en_ply d) >? 0); cbn [andb]; [right|left; auto].
    split; [reflexivity|].
    destruct (default 0 (en_ply d) mod 2 =? 1); reflexivity. }
  unfold how_many. induction evaluations as [|d l IH]; [reflexivity|].
  cbn [List.filter].
  destruct (Hd d) as [(-> & -> & ->)|(-> & ->)]; [exact IH|].
  destruct (is_player_entry false d); cbn [negb length]; lia.
Qed.

(** X13. The total of [calculate_game_stats] is the number of entries
    with a ply above zero, each counted for exactly one player: White's
    total counts the odd plies, Black's the even ones.  An entry with ply
    zero (the evaluation of the initial position), a negative ply or no
    ply is counted for nobody. *)
Theorem game_stats_total (evaluations : list EvalEntry) :
  let stats := calculate_game_stats evaluations in
  gs_total_moves stats = how_many played evaluations
  /\ ps_total_moves (gs_white stats)
     = how_many (fun d => played d && Z.odd (default 0 (en_ply d))) evaluations
  /\ ps_total_moves (gs_black stats)
     = how_many (fun d => played d && Z.even (default 0 (en_ply d))) evaluations.
Proof.
  cbv zeta. unfold calculate_game_stats. cbn [gs_total_moves gs_white gs_black].
  pose proof (player_counts evaluations true) as (Hw & _).
  pose proof (player_counts evaluations false) as (Hb & _).
  cbv zeta in Hw, Hb. rewrite Hw, Hb.
  split; [apply filter_parity|].
  assert (Hodd : forall z, (z mod 2 =? 1) = Z.odd z).
  { intros z. rewrite Zodd_mod. reflexivity. }
  split; unfold how_many; do 2 f_equal; apply filter_ext; intros d;
    unfold is_player_entry, played; rewrite Hodd;
    destruct (default 0 (en_ply d) >? 0); cbn [andb]; try reflexivity.
  - destruct (Z.odd (default 0 (en_ply d))); reflexivity.
  - rewrite <- Z.negb_odd. destruct (Z.odd (default 0 (en_ply d))); reflexivity.
Qed.

(** ** [parse_pgn_with_evals] *)

Lemma rmatch_word_any {R} (w : str) s g (k : str -> option str -> option R) :
  rmatch (word w) s g k = if startswith s w then k (drop (length w) s) g else None.
Proof.
  revert s. induction w as [|c w IH]; intros s.
  - destruct s; reflexivity.
  - destruct s as [|c' s]; cbn [word startswith length drop]; rewrite rmatch_seq;
      unfold lit; cbn [rmatch]; [reflexivity|].
    unfold is_char. destruct (Ascii.eqb c c'); cbn [andb]; [apply IH|reflexivity].
Qed.

(** A pattern that starts with a word matches only where the word is. *)
Lemma re_search_word (w : str) (r : re) (s : str) :
  contains w s = false -> re_search (Seq (word w) r) s = None.
Proof.
  induction s as [|c s IH]; intros Hs; cbn [contains] in Hs;
    apply orb_false_elim in Hs as [Hhere Hrest].
  - cbn [re_search]. unfold match_here. rewrite rmatch_seq, rmatch_word_any.
    now rewrite Hhere.
  - cbn [re_search]. unfold match_here at 1.
    rewrite rmatch_seq, rmatch_word_any, Hhere. now rewrite IH.
Qed.

(** The guard [comment and '[%eval' in comment] lets through every
    comment [parse_eval_comment] reads. *)
Lemma eval_of_comment_eq (comment : str) :
  eval_of_comment comment = parse_eval_comment comment.
Proof.
  unfold eval_of_comment.
  destruct comment as [|c comment]; [reflexivity|].
  cbn [is_empty negb andb].
  destruct (contains (L "[%eval") (c :: comment)) eqn:Hin; [reflexivity|].
  unfold parse_eval_comment.
  assert (Hnone : re_search pat_eval_any (c :: comment) = None).
  { rewrite (re_search_ext pat_eval_any
               (Seq (word (L "[%eval"))
                  (Seq (plus ws) (Seq (Group (plus (none_of (L "]")))) (lit "]"))))).
    - now apply re_search_word.
    - intros t. unfold match_here, pat_eval_any, eval_head. cbn [seqs].
      now rewrite !rmatch_seq. }
  now rewrite Hnone.
Qed.

Section Entries.
Context `{PgnComments}.

Lemma mainline_entries_app : forall line board ply evaluations,
  exists new,
    mainline_entries board ply line evaluations = evaluations ++ new
    /\ length new = san_prefix board (map fst line)
    /\ map en_ply new
       = map (fun i => Some (ply + Z.of_nat i)) (seq 1 (length new))
    /\ chained (last evaluations) new.
Proof.
  induction line as [|[move comment] line IH]; intros board ply evaluations.
  - exists []. cbn [mainline_entries]. rewrite app_nil_r. repeat split.
  - cbn [mainline_entries map fst san_prefix].
    destruct (san board move) as [text|e].
    + set (d := mkEvalEntry _ _ _ _ _).
      destruct (IH (push board move) (ply + 1) (evaluations ++ [d]))
        as (new & Heq & Hlen & Hply & Hchain).
      exists (d :: new). rewrite Heq, <- app_assoc. split; [reflexivity|].
      split; [cbn [length]; now rewrite Hlen|].
      split.
      * cbn [length map]. cbn [seq map]. apply (f_equal2 cons); [f_equal; lia|].
        rewrite Hply, <- (seq_shift (length new) 1), map_map. apply map_ext.
        intros i. f_equal. lia.
      * cbn [chained]. split; [|now rewrite last_snoc in Hchain].
        split; reflexivity.
    + exists []. rewrite app_nil_r. repeat split.
Qed.

Lemma chained_lookup : forall entries previous i d,
  chained previous entries -> entries !! i = Some d ->
  linked (match i with O => previous | S j => entries !! j end) d.
Proof.
  induction entries as [|x entries IH]; intros previous i d Hc Hi; [discriminate|].
  destruct Hc as [Hx Hc]. destruct i as [|i].
  - injection Hi as <-. exact Hx.
  - cbn [lookup list_lookup] in Hi.
    pose proof (IH (Some x) i d Hc Hi) as Hl.
    destruct i; exact Hl.
Qed.

(** The list of [parse_pgn_with_evals] for a game the library reads:
    possibly the entry of the initial position, then the entries of the
    moves. *)
Lemma parse_pgn_with_evals_shape (pgn_text : str) (game : Game) :
  read_game pgn_text = Return (Some game) ->
  exists initial new,
    parse_pgn_with_evals pgn_text = initial ++ new
    /\ (initial = []
        \/ exists eval_data,
             initial = [mkEvalEntry (Some 0) None (Some eval_data) (Some eval_data)
                          (Some (L "accurate"))])
    /\ length new = moves_entered game
    /\ map en_ply new = map (fun i => Some (Z.of_nat i)) (seq 1 (length new))
    /\ chained (last initial) new.
Proof.
  intros Hread. unfold parse_pgn_with_evals, moves_entered. rewrite Hread.
  destruct (game_board game) as [board|e].
  2:{ exists [], []. repeat split. now left. }
  set (initial := match eval_of_comment (game_comment game) with
                  | Some _ => _ | None => _ end).
  destruct (mainline_entries_app (mainline_nodes game) board 0 initial)
    as (new & Heq & Hlen & Hply & Hchain).
  exists initial, new. split; [exact Heq|]. split.
  { subst initial. destruct (eval_of_comment (game_comment game)) as [e|];
      [right; now exists e|now left]. }
  split; [exact Hlen|]. split; [|exact Hchain].
  rewrite Hply. apply map_ext. intros i. f_equal.
Qed.

End Entries.

Lemma san_prefix_le `{ChessLib} : forall moves board,
  (san_prefix board moves <= length moves)%nat.
Proof.
  induction moves as [|m moves IH]; intros board; cbn [san_prefix length]; [lia|].
  destruct (san board m); [|lia]. specialize (IH (push board m)). lia.
Qed.

Lemma plies_played : forall (new : list EvalEntry) (start k : nat),
  (1 <= start)%nat ->
  map en_ply new = map (fun i => Some (Z.of_nat i)) (seq start k) ->
  List.filter played new = new.
Proof.
  induction new as [|d new IH]; intros start k Hstart Hply; [reflexivity|].
  destruct k as [|k]; [discriminate|]. cbn [seq map] in Hply.
  injection Hply as Hd Hnew. cbn [List.filter]. unfold played at 1.
  rewrite Hd. cbn [default from_option id].
  destruct (Z.gtb_spec (Z.of_nat start) 0); [|lia].
  f_equal. apply (IH (S start) k); [lia|exact Hnew].
Qed.

(** X14. The entries [parse_pgn_with_evals] makes for a game the library
    reads.  When [game.board()] raises, for a variant or a position the
    library does not accept, there is no entry.  Otherwise the entries of
    the moves carry the plies 1, 2, ... in order, one for each move up to
    the first that the library cannot write in SAN; before them comes at
    most one entry, of ply 0, which is there exactly when the comment of
    the game holds an evaluation that [parse_eval_comment] reads. *)
Theorem parse_pgn_with_evals_plies `{PgnComments} (pgn_text : str) (game : Game) :
  read_game pgn_text = Return (Some game) ->
  let entries := parse_pgn_with_evals pgn_text in
  let k := moves_entered game in
  map en_ply (List.filter played entries)
    = map (fun i => Some (Z.of_nat i)) (seq 1 k)
  /\ (k <= length (mainline_nodes game))%nat
  /\ match game_board game with
     | Raise _ => entries = []
     | Return board =>
         k = san_prefix board (map fst (mainline_nodes game))
         /\ length entries
            = (if is_not_None (parse_eval_comment (game_comment game))
               then S k else k)
         /\ (forall eval_data,
               parse_eval_comment (game_comment game) = Some eval_data ->
               entries !! 0%nat
               = Some (mkEvalEntry (Some 0) None (Some eval_data)
                         (Some eval_data) (Some (L "accurate"))))
     end.
Proof.
  intros Hread. cbv zeta.
  unfold parse_pgn_with_evals, moves_entered. rewrite Hread.
  destruct (game_board game) as [board|e].
  2:{ split; [reflexivity|]. split; [simpl; lia|reflexivity]. }
  rewrite eval_of_comment_eq.
  set (initial := match parse_eval_comment (game_comment game) with
                  | Some _ => _ | None => _ end).
  destruct (mainline_entries_app (mainline_nodes game) board 0 initial)
    as (new & Heq & Hlen & Hply & _).
  rewrite Heq.
  assert (Hply' : map en_ply new = map (fun i => Some (Z.of_nat i)) (seq 1 (length new))).
  { rewrite Hply. apply map_ext. intros i. f_equal. }
  assert (Hinit : List.filter played initial = []).
  { subst initial. destruct (parse_eval_comment (game_comment game)); reflexivity. }
  rewrite List.filter_app, Hinit, (plies_played new 1 (length new)) by (lia || exact Hply').
  cbn [app]. rewrite Hply', Hlen.
  split; [reflexivity|].
  split; [etransitivity; [apply san_prefix_le|]; now rewrite length_map|].
  split; [reflexivity|].
  rewrite length_app, Hlen. subst initial.
  destruct (parse_eval_comment (game_comment game)) as [e|]; cbn [is_not_None length].
  - split; [lia|]. intros eval_data [= <-]. reflexivity.
  - split; [lia|]. intros eval_data Hd. discriminate Hd.
Qed.

Lemma parse_pgn_with_evals_plies_witness :
  @read_game NotedChess noted_pgn = Return (Some (read_noted_game noted_pgn))
  /\ map en_ply (List.filter played noted_entries) = [Some 1; Some 2; Some 3; Some 4]
  /\ length noted_entries = 5%nat.
Proof.
  pose proof (@parse_pgn_with_evals_plies NotedChess NotedComments noted_pgn
                (read_noted_game noted_pgn) eq_refl) as (Hply & _ & Hshape).
  split; [reflexivity|]. split.
  - etransitivity; [exact Hply|]. vm_compute. reflexivity.
  - cbv zeta in Hshape. cbn [game_board NotedChess] in Hshape.
    destruct Hshape as (_ & Hlen & _).
    etransitivity; [exact Hlen|]. vm_compute. reflexivity.
Defined.

Lemma shape_cases `{PgnComments} (pgn_text : str) :
  exists initial new,
    parse_pgn_with_evals pgn_text = initial ++ new
    /\ List.filter played initial = []
    /\ (length initial <= 1)%nat
    /\ map en_ply new = map (fun i => Some (Z.of_nat i)) (seq 1 (length new))
    /\ chained (last initial) new.
Proof.
  destruct (read_game pgn_text) as [[game|]|e] eqn:Hread.
  - destruct (parse_pgn_with_evals_shape pgn_text game Hread)
      as (initial & new & Heq & Hinit & _ & Hply & Hchain).
    exists initial, new. split; [exact Heq|].
    split; [destruct Hinit as [->|(e & ->)]; reflexivity|].
    split; [destruct Hinit as [->|(e & ->)]; simpl; lia|].
    split; assumption.
  - exists [], []. unfold parse_pgn_with_evals. rewrite Hread. repeat split. simpl; lia.
  - exists [], []. unfold parse_pgn_with_evals. rewrite Hread. repeat split. simpl; lia.
Qed.

Lemma plies_lookup : forall (new : list EvalEntry) (start : nat) (j : nat) d,
  map en_ply new = map (fun i => Some (Z.of_nat i)) (seq start (length new)) ->
  new !! j = Some d -> en_ply d = Some (Z.of_nat (start + j)).
Proof.
  intros new start j d Hply Hj.
  assert (Hm : map en_ply new !! j = Some (en_ply d)).
  { rewrite list_lookup_fmap, Hj. reflexivity. }
  rewrite Hply in Hm. rewrite list_lookup_fmap in Hm.
  destruct (seq start (length new) !! j) as [i|] eqn:Hi; [|discriminate].
  apply lookup_seq in Hi as [-> _]. cbn in Hm. congruence.
Qed.

(** X15. Each entry of a move in the list of [parse_pgn_with_evals]
    carries the category [categorize_move_from_evals] gives to its two
    evaluations.  The entry of ply 1 has no evaluation before the move and
    is accurate, also when the game has an evaluation of the initial
    position; the entry of a later ply starts from the evaluation after
    the entry just before it in the list. *)
Theorem parse_pgn_with_evals_chain `{PgnComments} (pgn_text : str)
    (i : nat) (eval_data : EvalEntry) :
  parse_pgn_with_evals pgn_text !! i = Some eval_data ->
  played eval_data = true ->
  en_category eval_data
    = Some (category_name
              (categorize_move_from_evals (en_before_eval eval_data)
                 (en_after_eval eval_data)))
  /\ (en_ply eval_data = Some 1 ->
      en_before_eval eval_data = None
      /\ en_category eval_data = Some (L "accurate"))
  /\ (en_ply eval_data <> Some 1 ->
      exists previous,
        parse_pgn_with_evals pgn_text !! (i - 1)%nat = Some previous
        /\ en_ply previous = option_map Z.pred (en_ply eval_data)
        /\ en_before_eval eval_data = en_after_eval previous).
Proof.
  intros Hi Hplayed.
  destruct (shape_cases pgn_text) as (initial & new & Heq & Hinit & Hlen & Hply & Hchain).
  rewrite Heq in *.
  assert (Hnew : (length initial <= i)%nat /\ new !! (i - length initial)%nat = Some eval_data).
  { destruct (lookup_app_Some initial new i eval_data) as [Hcases _].
    destruct (Hcases Hi) as [Hin|Hin]; [|exact Hin].
    exfalso. destruct initial as [|d0 [|? ?]]; [discriminate| |simpl in Hlen; lia].
    destruct i; [|discriminate]. injection Hin as ->.
    cbn [List.filter] in Hinit. rewrite Hplayed in Hinit. discriminate. }
  destruct Hnew as [Hge Hj]. set (j := (i - length initial)%nat) in *.
  pose proof (chained_lookup new (last initial) j eval_data Hchain Hj) as [Hbefore Hcat].
  pose proof (plies_lookup new 1 j eval_data Hply Hj) as Hp.
  split; [exact Hcat|]. split.
  - intros H1. rewrite H1 in Hbefore. cbn in Hbefore.
    split; [exact Hbefore|]. rewrite Hcat, Hbefore. reflexivity.
  - intros Hne. destruct j as [|j'] eqn:Hjeq.
    { exfalso. apply Hne. rewrite Hp. reflexivity. }
    destruct (new !! j') as [previous|] eqn:Hprev.
    2:{ apply lookup_ge_None in Hprev. apply lookup_lt_Some in Hj. lia. }
    exists previous. split.
    { rewrite lookup_app_r by lia.
      replace (i - 1 - length initial)%nat with j' by lia. exact Hprev. }
    split.
    { rewrite (plies_lookup new 1 j' previous Hply Hprev), Hp. cbn [option_map].
      f_equal. lia. }
    rewrite Hbefore, Hp. cbn [default from_option id].
    destruct (Z.gtb_spec (Z.of_nat (1 + S j')) 1); [reflexivity|lia].
Qed.

Lemma parse_pgn_with_evals_chain_witness :
  exists eval_data previous,
    noted_entries !! 3%nat = Some eval_data
    /\ played eval_data = true
    /\ en_ply eval_data = Some 3
    /\ noted_entries !! 2%nat = Some previous
    /\ en_before_eval eval_data = en_after_eval previous
    /\ en_category eval_data = Some (L "mistake").
Proof.
  destruct (noted_entries !! 3%nat) as [eval_data|] eqn:Hd; [|vm_compute in Hd; discriminate].
  pose proof (@parse_pgn_with_evals_chain NotedChess NotedComments noted_pgn 3
                eval_data Hd) as Hchain.
  vm_compute in Hd. injection Hd as <-.
  destruct (Hchain eq_refl) as (Hcat & _ & Hprev).
  destruct Hprev as (previous & Hlook & _ & Hbefore); [discriminate|].
  eexists _, previous. split; [reflexivity|]. split; [reflexivity|].
  split; [reflexivity|]. split; [exact Hlook|]. split; [exact Hbefore|].
  etransitivity; [exact Hcat|]. vm_compute. reflexivity.
Defined.

(** ** [calculate_game_stats] on the entries of [parse_pgn_with_evals] *)

Lemma how_many_app {A} (f : A -> bool) (l1 l2 : list A) :
  how_many f (l1 ++ l2) = how_many f l1 + how_many f l2.
Proof. unfold how_many. rewrite List.filter_app, length_app. lia. Qed.

Lemma how_many_none {A} (f g : A -> bool) (l : list A) :
  (forall x, g x = true -> f x = true) -> List.filter f l = [] -> how_many g l = 0.
Proof.
  intros Hgf. unfold how_many. induction l as [|x l IH]; [reflexivity|].
  cbn [List.filter]. destruct (f x) eqn:Hf; [discriminate|].
  destruct (g x) eqn:Hg; [rewrite (Hgf x Hg) in Hf; discriminate|]. exact IH.
Qed.

Lemma how_many_all {A} (f : A -> bool) (l : list A) :
  Forall (fun x => f x = true) l -> how_many f l = Z.of_nat (length l).
Proof.
  unfold how_many. induction 1 as [|x l Hx _ IH]; [reflexivity|].
  cbn [List.filter]. rewrite Hx. cbn [length]. lia.
Qed.

Lemma player_entries_of_plies : forall (k start : nat) (new : list EvalEntry),
  (1 <= start)%nat ->
  map en_ply new = map (fun i => Some (Z.of_nat i)) (seq start k) ->
  how_many (is_player_entry true) new
    = (if Nat.odd start then (Z.of_nat k + 1) / 2 else Z.of_nat k / 2)
  /\ how_many (is_player_entry false) new
    = (if Nat.odd start then Z.of_nat k / 2 else (Z.of_nat k + 1) / 2).
Proof.
  induction k as [|k IH]; intros start new Hstart Hply.
  - destruct new; [|discriminate]. destruct (Nat.odd start); split; reflexivity.
  - destruct new as [|d new]; [discriminate|]. cbn [seq map] in Hply.
    injection Hply as Hd Hnew.
    destruct (IH (S start) new ltac:(lia) Hnew) as [IHw IHb].
    assert (Hpar : (Z.of_nat start mod 2 =? 1) = Nat.odd start).
    { rewrite <- Zodd_mod.
      destruct (Nat.odd start) eqn:Ho.
      - apply Nat.odd_spec in Ho as [m ->].
        replace (Z.of_nat (2 * m + 1)) with (2 * Z.of_nat m + 1) by lia.
        apply Z.odd_odd.
      - apply (f_equal negb) in Ho. rewrite Nat.negb_odd in Ho. cbn in Ho.
        apply Nat.even_spec in Ho as [m ->].
        replace (Z.of_nat (2 * m)) with (2 * Z.of_nat m) by lia.
        rewrite Z.odd_mul. reflexivity. }
    assert (Hmine : forall w, is_player_entry w d = Bool.eqb (Nat.odd start) w).
    { intros w. unfold is_player_entry. rewrite Hd. cbn [default from_option id].
      destruct (Z.gtb_spec (Z.of_nat start) 0); [|lia]. cbn [andb].
      now rewrite Hpar. }
    unfold how_many in *. cbn [List.filter]. rewrite !Hmine.
    rewrite Nat.odd_succ, <- Nat.negb_odd in IHw, IHb.
    rewrite Nat2Z.inj_succ.
    replace (Z.succ (Z.of_nat k) + 1) with (Z.of_nat k + 1 * 2) by lia.
    rewrite Z.div_add by lia.
    assert (Hhalf : Z.succ (Z.of_nat k) / 2 = (Z.of_nat k + 1) / 2).
    { f_equal. }
    destruct (Nat.odd start); cbn [Bool.eqb negb length] in *;
      rewrite ?Nat2Z.inj_succ, IHw, IHb; split; try reflexivity; try lia.
Qed.

Lemma chained_labelled : forall (entries : list EvalEntry) previous,
  chained previous entries ->
  Forall (fun d => existsb (fun c => has_label c d)
                     [accurate; good; inaccuracy; mistake; blunder] = true) entries.
Proof.
  induction entries as [|d entries IH]; intros previous Hc; constructor.
  - destruct Hc as [[_ Hcat] _]. unfold has_label. rewrite Hcat.
    cbn [default from_option id].
    destruct (categorize_move_from_evals _ _); reflexivity.
  - destruct Hc as [_ Hc]. exact (IH _ Hc).
Qed.

Lemma forall_filter {A} (P : A -> Prop) (f : A -> bool) (l : list A) :
  Forall P l -> Forall P (List.filter f l).
Proof.
  induction 1 as [|x l Hx _ IH]; cbn [List.filter]; [constructor|].
  destruct (f x); [constructor|]; assumption.
Qed.

(** X16. The statistics of the entries of a game, as [get_game_stats]
    computes them: [total_moves] is the number of moves entered (none
    when [game.board()] raises), White has
    the half rounded up and Black the half rounded down, whether or not
    the list starts with the entry of the initial position; for each
    player the five counts add up to the total. *)
Theorem game_stats_of_pgn `{PgnComments} (pgn_text : str) (game : Game) :
  read_game pgn_text = Return (Some game) ->
  let k := Z.of_nat (moves_entered game) in
  let stats := calculate_game_stats (parse_pgn_with_evals pgn_text) in
  let total (counts : CategoryCounts) :=
    n_accurate counts + n_good counts + n_inaccuracy counts + n_mistake counts
    + n_blunder counts in
  gs_total_moves stats = k
  /\ ps_total_moves (gs_white stats) = (k + 1) / 2
  /\ ps_total_moves (gs_black stats) = k / 2
  /\ total (ps_counts (gs_white stats)) = ps_total_moves (gs_white stats)
  /\ total (ps_counts (gs_black stats)) = ps_total_moves (gs_black stats).
Proof.
  intros Hread. cbv zeta.
  destruct (parse_pgn_with_evals_shape pgn_text game Hread)
    as (initial & new & Heq & Hinit & Hlen & Hply & Hchain).
  assert (Hnone : List.filter played initial = []).
  { destruct Hinit as [->|(e & ->)]; reflexivity. }
  assert (Hside : forall w,
            List.filter (is_player_entry w) (parse_pgn_with_evals pgn_text)
            = List.filter (is_player_entry w) new).
  { intros w. rewrite Heq, List.filter_app.
    assert (Hw : List.filter (is_player_entry w) initial = []).
    { destruct Hinit as [->|(e & ->)]; [reflexivity|]. destruct w; reflexivity. }
    now rewrite Hw. }
  destruct (player_entries_of_plies (length new) 1 new ltac:(lia) Hply) as [Hw Hb].
  cbn [Nat.odd Nat.even negb] in Hw, Hb. rewrite Hlen in Hw, Hb.
  unfold how_many in Hw, Hb.
  pose proof (player_counts (parse_pgn_with_evals pgn_text) true) as (Htw & _).
  pose proof (player_counts (parse_pgn_with_evals pgn_text) false) as (Htb & _).
  pose proof (player_counts_sum (parse_pgn_with_evals pgn_text) true) as Hsw.
  pose proof (player_counts_sum (parse_pgn_with_evals pgn_text) false) as Hsb.
  cbv zeta in Htw, Htb, Hsw, Hsb. rewrite Hside in Htw, Htb, Hsw, Hsb.
  pose proof (chained_labelled new _ Hchain) as Hlab.
  rewrite how_many_all in Hsw by (apply forall_filter; exact Hlab).
  rewrite how_many_all in Hsb by (apply forall_filter; exact Hlab).
  unfold calculate_game_stats. cbn [gs_total_moves gs_white gs_black].
  rewrite Hsw, Hsb, Htw, Htb, Hw, Hb.
  set (k := Z.of_nat (moves_entered game)).
  split; [|repeat split].
  pose proof (Z.div_mod (k + 1) 2 ltac:(lia)) as H1.
  pose proof (Z.div_mod k 2 ltac:(lia)) as H2.
  pose proof (Z.mod_pos_bound (k + 1) 2 ltac:(lia)) as H3.
  pose proof (Z.mod_pos_bound k 2 ltac:(lia)) as H4.
  assert (Hm : (k + 1) mod 2 = 1 - k mod 2).
  { rewrite Z.add_mod by lia. destruct (Z.eq_dec (k mod 2) 0) as [->|Hk].
    - reflexivity.
    - replace (k mod 2) with 1 by lia. reflexivity. }
  lia.
Qed.

Lemma game_stats_of_pgn_witness :
  @read_game NotedChess noted_pgn = Return (Some (read_noted_game noted_pgn))
  /\ gs_total_moves (calculate_game_stats noted_entries) = 4
  /\ ps_total_moves (gs_white (calculate_game_stats noted_entries)) = 2
  /\ ps_total_moves (gs_black (calculate_game_stats noted_entries)) = 2.
Proof.
  pose proof (@game_stats_of_pgn NotedChess NotedComments noted_pgn
                (read_noted_game noted_pgn) eq_refl) as (Ht & Hw & Hb & _).
  split; [reflexivity|].
  split; [etransitivity; [exact Ht|]; vm_compute; reflexivity|].
  split; [etransitivity; [exact Hw|]; vm_compute; reflexivity|].
  etransitivity; [exact Hb|]; vm_compute; reflexivity.
Defined.

(** ** The comment parsers: what every result has, and what none reads *)

Lemma eval_of_value_one (is_mate : bool) (value : str) :
  fst (eval_of_value is_mate value) = None
  \/ snd (eval_of_value is_mate value) = None.
Proof.
  unfold eval_of_value. destruct is_mate; [now left|].
  destruct (existsb (is_char ".") value); now right.
Qed.

Lemma first_eval_match_one (pats : list (re * bool)) (comment : str) :
  fst (first_eval_match pats comment) = None
  \/ snd (first_eval_match pats comment) = None.
Proof.
  induction pats as [|[pattern is_mate] pats IH]; cbn [first_eval_match];
    [now left|].
  destruct (re_search pattern comment) as [[pre m]|]; [|exact IH].
  apply eval_of_value_one.
Qed.

(** X17. An evaluation read from a comment, by either parser, has
    exactly one of its two values: centipawns or mate, never both and
    never neither. *)
Theorem parsed_eval_has_one_value (comment : str) (eval_info : PgnEval) :
  parse_eval_comment comment = Some eval_info
  \/ parse_eval_from_comment comment = Some eval_info ->
  is_not_None (pe_cp eval_info) = negb (is_not_None (pe_mate eval_info)).
Proof.
  intros [Hparse|Hparse].
  - unfold parse_eval_comment in Hparse.
    destruct (re_search pat_eval_any comment) as [[pre m]|]; [|discriminate].
    destruct (startswith _ _).
    + destruct (py_int _); [|discriminate]. now injection Hparse as <-.
    + destruct (py_float _) as [f|]; [|discriminate].
      destruct (int_of_float _); [|discriminate]. now injection Hparse as <-.
  - unfold parse_eval_from_comment in Hparse.
    destruct comment as [|c comment]; [discriminate|].
    pose proof (first_eval_match_one eval_patterns (c :: comment)) as Hone.
    destruct (first_eval_match eval_patterns (c :: comment)) as [cp0 mate0].
    cbn [fst snd] in Hone.
    destruct cp0, mate0; cbn [is_not_None orb] in Hparse;
      try discriminate; try (now injection Hparse as <-);
      destruct Hone; discriminate.
Qed.

Lemma parsed_eval_has_one_value_witness :
  parse_eval_comment (L "lost [%eval  #-4] here") = Some (mkPgnEval None (Some (-4)))
  /\ is_not_None (pe_cp (mkPgnEval None (Some (-4))))
     = negb (is_not_None (pe_mate (mkPgnEval None (Some (-4))))).
Proof.
  assert (Hparse : parse_eval_comment (L "lost [%eval  #-4] here")
                   = Some (mkPgnEval None (Some (-4)))) by (vm_compute; reflexivity).
  split; [exact Hparse|].
  exact (parsed_eval_has_one_value _ _ (or_introl Hparse)).
Defined.

Lemma py_float_cp_text (v : str) :
  no_space v = true ->
  forallb (fun c => negb (is_e c)) v = true ->
  forallb (fun c => negb (is_char "." c)) v = true ->
  py_float (L "cp=" ++ v) = None.
Proof.
  intros Hns He Hdot. unfold py_float.
  assert (Hns' : no_space (L "cp=" ++ v) = true).
  { unfold no_space in *. rewrite forallb_app, Hns. reflexivity. }
  rewrite num_strip_keep by exact Hns'.
  change (take_sign (L "cp=" ++ v)) with (false, L "cp=" ++ v). cbv beta iota.
  assert (Hword : forall w, stops (is_char "c") w = true ->
            str_eqb (lower (L "cp=" ++ v)) w = false).
  { intros w Hw. unfold str_eqb.
    change (lower (L "cp=" ++ v)) with ("c"%char :: lower (L "p=" ++ v)).
    destruct w as [|a w]; [reflexivity|]. cbn [startswith].
    cbn [stops] in Hw. apply negb_true_iff in Hw. unfold is_char in Hw.
    rewrite Ascii.eqb_sym in Hw. rewrite Hw. apply andb_false_r. }
  rewrite !Hword by reflexivity. cbn [orb].
  rewrite split_at_first_absent
    by (rewrite forallb_app, He; reflexivity).
  unfold py_mantissa.
  rewrite split_at_first_absent
    by (rewrite forallb_app, Hdot; reflexivity).
  reflexivity.
Qed.

(** X18. An annotation [[%eval cp=N]], with [N] an integer with an
    optional minus sign, is read by [parse_eval_from_comment] as [N]
    centipawns when [N] has at most 4300 digits, the most that [int]
    reads, and gives no evaluation when it has more; it is not read at all
    by [parse_eval_comment]. *)
Theorem eval_cp_form (sg ds : str) :
  In sg [[]; L "-"] -> is_digits ds = true ->
  parse_eval_from_comment (annotation (L "cp=" ++ sg ++ ds))
  = (if Z.of_nat (length ds) <=? 4300
     then Some (mkPgnEval (Some (apply_sign (str_eqb sg (L "-")) (number ds)))
                  None)
     else None)
  /\ parse_eval_comment (annotation (L "cp=" ++ sg ++ ds)) = None.
Proof.
  intros Hsg Hds.
  assert (Hsg3 : In sg [[]; L "-"; L "+"]).
  { destruct Hsg as [<-|[<-|[]]]; simpl; auto. }
  pose proof Hds as Hds'. unfold is_digits in Hds'.
  apply andb_prop in Hds' as [Hne Hall].
  split.
  - rewrite parse_eval_from_comment_annotation.
    destruct (re_search_group pat_cp (L "cp=") (Seq (opt (lit "-")) (plus dig))
                (sg ++ ds)) as (m & Hm & Hg).
    + intros t. reflexivity.
    + reflexivity.
    + destruct Hsg as [<-|[<-|[]]].
      * apply (takes_signed_digits "-" false ds (L "]")); auto.
      * apply (takes_signed_digits "-" true ds (L "]")); auto.
    + unfold eval_patterns. cbn [first_eval_match]. rewrite Hm, Hg.
      cbn [default from_option id]. unfold eval_of_value.
      assert (Hdot : existsb (is_char ".") (sg ++ ds) = false).
      { apply not_true_iff_false. intros Hex. apply existsb_exists in Hex as (c & Hin & Hc).
        assert (Hno : forallb (fun c => negb (is_char "." c)) (sg ++ ds) = true).
        { apply digits_stop_at_bracket; auto.
          intros d Hd. now apply (digit_is_not d "." eq_refl). }
        rewrite forallb_forall in Hno.
        specialize (Hno c Hin). rewrite Hc in Hno. discriminate. }
      rewrite Hdot, py_int_signed by assumption.
      unfold int_max_str_digits. rewrite Z.leb_antisym.
      destruct (4300 <? Z.of_nat (length ds)); reflexivity.
  - rewrite parse_eval_comment_value.
    + change (startswith (L "cp=" ++ sg ++ ds) (L "#")) with false. cbv iota.
      rewrite py_float_cp_text; [reflexivity| | |].
      * apply digits_stop_at_bracket; auto using digit_not_space.
      * apply digits_stop_at_bracket; auto using digit_not_e.
      * apply digits_stop_at_bracket; auto.
        intros d Hd. now apply (digit_is_not d "." eq_refl).
    + discriminate.
    + unfold no_space. rewrite forallb_app.
      rewrite (digits_stop_at_bracket sg ds is_space); auto using digit_not_space.
    + rewrite forallb_app.
      rewrite (digits_stop_at_bracket sg ds (is_char "]")); auto.
      intros d Hd. now apply (digit_is_not d "]" eq_refl).
Qed.

Lemma eval_cp_form_witness :
  parse_eval_from_comment (L "[%eval cp=-35]") = Some (mkPgnEval (Some (-35)) None)
  /\ parse_eval_comment (L "[%eval cp=-35]") = None.
Proof.
  exact (eval_cp_form (L "-") (L "35") (or_intror (or_introl eq_refl)) eq_refl).
Defined.

Lemma first_eval_match_none (comment : str) :
  contains (L "[%eval") comment = false ->
  first_eval_match eval_patterns comment = (None, None).
Proof.
  intros Hin.
  assert (Hnone : forall r, re_search (Seq eval_head r) comment = None).
  { intros r.
    rewrite (re_search_ext (Seq eval_head r)
               (Seq (word (L "[%eval")) (Seq (plus ws) r))).
    - now apply re_search_word.
    - intros t. unfold match_here, eval_head. now rewrite !rmatch_seq. }
  unfold eval_patterns, pat_cp, pat_pawns, pat_mate, pat_mate_plus.
  cbn [first_eval_match seqs]. now rewrite !Hnone.
Qed.

(** X19. A comment that does not contain the text [[%eval] gives no
    evaluation, in either parser. *)
Theorem no_eval_marker_no_value (comment : str) :
  contains (L "[%eval") comment = false ->
  parse_eval_comment comment = None /\ parse_eval_from_comment comment = None.
Proof.
  intros Hin. split.
  - rewrite <- eval_of_comment_eq. unfold eval_of_comment. rewrite Hin.
    now rewrite andb_false_r.
  - unfold parse_eval_from_comment. destruct comment as [|c comment]; [reflexivity|].
    now rewrite first_eval_match_none.
Qed.

Lemma no_eval_marker_no_value_witness :
  parse_eval_comment (L "[%clk 0:03:00] eval 0.3") = None
  /\ parse_eval_from_comment (L "[%clk 0:03:00] eval 0.3") = None.
Proof.
  exact (no_eval_marker_no_value (L "[%clk 0:03:00] eval 0.3") eq_refl).
Defined.

(** ** [parse_pgn_moves]: the moves of the regular-expression fallback *)

Lemma lstrip_no_head (p : ascii -> bool) (s : str) (c : ascii) :
  head (lstrip_by p s) = Some c -> p c = false.
Proof.
  induction s as [|x s IH]; cbn [lstrip_by]; [discriminate|].
  destruct (p x) eqn:Hx; [exact IH|]. cbn [head]. now intros [= <-].
Qed.

Lemma last_rev {A} (l : list A) : last (rev l) = head l.
Proof.
  destruct l as [|x l]; [reflexivity|]. cbn [rev head]. apply last_snoc.
Qed.

Lemma rstrip_last (p : ascii -> bool) (s : str) (c : ascii) :
  last (rstrip_by p s) = Some c -> p c = false.
Proof. unfold rstrip_by. rewrite last_rev. apply lstrip_no_head. Qed.

Lemma lstrip_suffix (p : ascii -> bool) (s : str) :
  exists cut, s = cut ++ lstrip_by p s.
Proof.
  induction s as [|x s [cut IH]]; [now exists []|]. cbn [lstrip_by].
  destruct (p x); [|now exists []]. exists (x :: cut). cbn [app]. now f_equal.
Qed.

Lemma rstrip_prefix (p : ascii -> bool) (s : str) :
  exists cut, s = rstrip_by p s ++ cut.
Proof.
  unfold rstrip_by. destruct (lstrip_suffix p (rev s)) as [cut Hcut].
  exists (rev cut). rewrite <- rev_app_distr, <- Hcut. now rewrite rev_involutive.
Qed.

(** What the inner loop of the fallback keeps of its tokens. *)
Lemma keep_parts_kept (parts : list str) (move : str) :
  In move (keep_parts parts) ->
  exists part,
    In part parts
    /\ move = rstrip_by (fun c => is_char "#" c || is_char "+" c) part
    /\ head_is (fun c => is_alpha c || is_upper c) move = true
    /\ existsb (is_char "[") move = false
    /\ existsb (is_char "{") move = false.
Proof.
  induction parts as [|part parts IH]; cbn [keep_parts]; [contradiction|].
  intros Hin.
  assert (Hrest : In move (keep_parts parts) ->
            exists part0, In part0 (part :: parts)
              /\ move = rstrip_by (fun c => is_char "#" c || is_char "+" c) part0
              /\ head_is (fun c => is_alpha c || is_upper c) move = true
              /\ existsb (is_char "[") move = false
              /\ existsb (is_char "{") move = false).
  { intros H0. destruct (IH H0) as (part0 & Hp & Hrest). exists part0.
    split; [now right|exact Hrest]. }
  destruct (existsb (str_eqb part) result_tokens); [now apply Hrest|].
  set (stripped := rstrip_by _ part) in *.
  destruct (negb (is_empty stripped) && negb (startswith stripped (L "["))
            && negb (startswith stripped (L "{"))
            && negb (startswith stripped (L "}"))
            && negb (startswith stripped (L "%"))
            && negb (existsb (is_char "[") stripped)
            && negb (existsb (is_char "{") stripped)) eqn:Hclean;
    [|now apply Hrest].
  destruct (negb (is_empty stripped)
            && (head_is is_alpha stripped || startswith stripped (L "O-O")
                || head_is is_upper stripped)) eqn:Hmove;
    [|now apply Hrest].
  destruct Hin as [<-|Hin]; [|now apply Hrest].
  exists part. split; [now left|]. split; [reflexivity|].
  apply andb_prop in Hclean as [Hclean Hbrace].
  apply andb_prop in Hclean as [_ Hbracket].
  apply negb_true_iff in Hbrace, Hbracket.
  apply andb_prop in Hmove as [_ Hhead].
  split; [|split; assumption].
  destruct stripped as [|c stripped]; [discriminate|]. cbn [head_is] in *.
  apply orb_prop in Hhead as [Hhead|Hhead].
  - apply orb_prop in Hhead as [Hhead|Hhead]; [now rewrite Hhead|].
    cbn [startswith L list_ascii_of_string] in Hhead.
    apply andb_prop in Hhead as [Hc _]. apply Ascii.eqb_eq in Hc. now subst c.
  - rewrite Hhead. apply orb_true_r.
Qed.

(** X20. When the chess library gives no board for the text
    ([read_game] raises or finds no game, or [game.board()] raises), every
    move [parse_pgn_moves] returns comes from the regular-expression
    fallback and is a word: its first character is a letter or an
    uppercase character, it holds no whitespace, no opening bracket and no
    opening brace, it does not end with [#] or [+], and it is not a result
    token.  A closing bracket or brace is not filtered: the moves of
    [1. e4] e5}] are [e4]] and [e5}]. *)
Theorem parse_pgn_moves_fallback_words `{ChessLib} (pgn move : str) :
  read_game pgn = Return None
  \/ (exists e, read_game pgn = Raise e)
  \/ (exists game e,
        read_game pgn = Return (Some game) /\ game_board game = Raise e) ->
  In move (parse_pgn_moves pgn) ->
  head_is (fun c => is_alpha c || is_upper c) move = true
  /\ no_space move = true
  /\ existsb (is_char "[") move = false
  /\ existsb (is_char "{") move = false
  /\ (forall c, last move = Some c -> is_char "#" c || is_char "+" c = false)
  /\ existsb (str_eqb move) result_tokens = false.
Proof.
  intros Hread Hin. unfold parse_pgn_moves in Hin.
  assert (Hfall : exists text, In move (fallback_moves text)).
  { destruct Hread as [Hread|[[e Hread]|(game & e & Hread & Hboard)]];
      rewrite Hread in Hin; try rewrite Hboard in Hin;
      cbn [app] in Hin; eauto. }
  destruct Hfall as [text Hfall]. unfold fallback_moves in Hfall.
  apply in_flat_map in Hfall as (m & _ & Hkept).
  apply keep_parts_kept in Hkept as (part & Hpart & Hmove & Hhead & Hbracket & Hbrace).
  pose proof (split_ws_fields (strip m) [] eq_refl) as Hfields.
  rewrite Forall_forall in Hfields.
  destruct (Hfields part (proj2 (list_elem_of_In _ _) Hpart)) as [_ Hns].
  split; [exact Hhead|]. split.
  { destruct (rstrip_prefix (fun c => is_char "#" c || is_char "+" c) part)
      as [cut Hcut].
    rewrite <- Hmove in Hcut. rewrite Hcut in Hns. unfold no_space in *.
    rewrite forallb_app in Hns. now apply andb_prop in Hns as [Hns _]. }
  split; [exact Hbracket|]. split; [exact Hbrace|]. split.
  { intros c Hlast. rewrite Hmove in Hlast.
    now apply rstrip_last in Hlast. }
  apply not_true_iff_false. intros Htoken.
  apply existsb_exists in Htoken as (token & Htok & Heq).
  apply str_eqb_eq in Heq. subst token.
  unfold result_tokens in Htok.
  destruct Htok as [<-|[<-|[<-|[<-|[]]]]]; vm_compute in Hhead; discriminate Hhead.
Qed.

Lemma parse_pgn_moves_fallback_words_witness :
  @parse_pgn_moves MiniChess (L "1. e4 e5 2. Nf3+ Nc6 1-0") = [L "e4"; L "e5"; L "Nf3"; L "Nc6"]
  /\ @parse_pgn_moves MiniChess (L "1. e4] e5}") = [L "e4]"; L "e5}"]
  /\ head_is (fun c => is_alpha c || is_upper c) (L "Nf3") = true
  /\ no_space (L "Nf3") = true.
Proof.
  assert (Hmoves : @parse_pgn_moves MiniChess (L "1. e4 e5 2. Nf3+ Nc6 1-0")
                   = [L "e4"; L "e5"; L "Nf3"; L "Nc6"]) by (vm_compute; reflexivity).
  split; [exact Hmoves|].
  split; [vm_compute; reflexivity|].
  destruct (@parse_pgn_moves_fallback_words MiniChess
              (L "1. e4 e5 2. Nf3+ Nc6 1-0") (L "Nf3")) as (Hhead & Hns & _).
  - right. left. eexists. vm_compute. reflexivity.
  - rewrite Hmoves. right. right. left. reflexivity.
  - split; assumption.
Defined.

(** ** [extract_game_id] *)

(** What a match has read is a text of the pattern. *)
Lemma rmatch_sound (r : re) : forall {R} s g (k : str -> option str -> option R) x,
  rmatch r s g k = Some x ->
  exists v s' g', s = v ++ s' /\ lang r v /\ k s' g' = Some x.
Proof.
  induction r as [|p|r1 IH1 r2 IH2|r1 IH1 r2 IH2|greedy r1 IH1|r1 IH1|r1 IH1|];
    intros R s g k x Hm.
  - exists [], s, g. repeat split. exact Hm.
  - destruct s as [|c s]; [discriminate|]. cbn [rmatch] in Hm.
    destruct (p c) eqn:Hc; [|discriminate].
    exists [c], s, g. split; [reflexivity|]. split; [|exact Hm]. now exists c.
  - cbn [rmatch] in Hm.
    apply IH1 in Hm as (v1 & s1 & g1 & -> & Hv1 & Hm).
    apply IH2 in Hm as (v2 & s2 & g2 & -> & Hv2 & Hm).
    exists (v1 ++ v2), s2, g2. split; [now rewrite app_assoc|].
    split; [|exact Hm]. now exists v1, v2.
  - cbn [rmatch] in Hm. destruct (rmatch r1 s g k) as [y|] eqn:H1.
    + injection Hm as ->. apply IH1 in H1 as (v & s' & g' & -> & Hv & Hk).
      exists v, s', g'. repeat split; [now left|exact Hk].
    + apply IH2 in Hm as (v & s' & g' & -> & Hv & Hk).
      exists v, s', g'. repeat split; [now right|exact Hk].
  - cbn [rmatch] in Hm. set (fuel := length s) in Hm. clearbody fuel.
    revert s g x Hm. induction fuel as [|fuel IHf]; intros s g x Hm.
    + exists [], s, g. split; [reflexivity|]. split; [|exact Hm].
      exists []. split; [reflexivity|constructor].
    + cbn [star_loop] in Hm.
      assert (Hagain : forall y,
                rmatch r1 s g
                  (fun s1 g1 => if (length s1 <? length s)%nat
                                then star_loop (fun s2 g2 k1 => rmatch r1 s2 g2 k1)
                                       greedy k fuel s1 g1
                                else None) = Some y ->
                exists v s' g', s = v ++ s' /\ lang (Star greedy r1) v
                                /\ k s' g' = Some y).
      { intros y Hy. apply IH1 in Hy as (v1 & s1 & g1 & -> & Hv1 & Hy).
        destruct (length s1 <? length (v1 ++ s1))%nat; [|discriminate].
        apply IHf in Hy as (v2 & s2 & g2 & -> & (vs & -> & Hvs) & Hk).
        exists (v1 ++ concat vs), s2, g2. split; [now rewrite app_assoc|].
        split; [|exact Hk]. exists (v1 :: vs). split; [reflexivity|].
        now constructor. }
      assert (Hstop : forall y, k s g = Some y ->
                exists v s' g', s = v ++ s' /\ lang (Star greedy r1) v
                                /\ k s' g' = Some y).
      { intros y Hy. exists [], s, g. split; [reflexivity|]. split; [|exact Hy].
        exists []. split; [reflexivity|constructor]. }
      destruct greedy.
      * destruct (rmatch r1 s g _) as [y|] eqn:Hy.
        -- injection Hm as ->. now apply Hagain.
        -- now apply Hstop.
      * destruct (k s g) as [y|] eqn:Hy.
        -- injection Hm as ->. now apply Hstop.
        -- now apply Hagain.
  - cbn [rmatch] in Hm. apply IH1 in Hm as (v & s' & g' & -> & Hv & Hk).
    exists v, s', (Some (take (length (v ++ s') - length s') (v ++ s'))).
    repeat split; assumption.
  - cbn [rmatch] in Hm. destruct (rmatch r1 s g _); [|discriminate].
    exists [], s, g. repeat split. exact Hm.
  - cbn [rmatch] in Hm. exists [], s, g. split; [reflexivity|]. split; [reflexivity|].
    destruct s as [|c [|c' s]]; [exact Hm| |discriminate].
    destruct (is_char newline c); [exact Hm|discriminate].
Qed.

(** A pattern without a group hands on the group it was given. *)
Lemma rmatch_group_free (r : re) : forall {R} s g (k : str -> option str -> option R) x,
  group_free r = true -> rmatch r s g k = Some x -> exists s', k s' g = Some x.
Proof.
  induction r as [|p|r1 IH1 r2 IH2|r1 IH1 r2 IH2|greedy r1 IH1|r1 IH1|r1 IH1|];
    intros R s g k x Hfree Hm; cbn [group_free] in Hfree.
  - now exists s.
  - destruct s as [|c s]; [discriminate|]. cbn [rmatch] in Hm.
    destruct (p c); [now exists s|discriminate].
  - apply andb_prop in Hfree as [H1 H2]. cbn [rmatch] in Hm.
    apply (IH1 _ _ _ _ _ H1) in Hm as [s1 Hm]. now apply (IH2 _ _ _ _ _ H2) in Hm.
  - apply andb_prop in Hfree as [H1 H2]. cbn [rmatch] in Hm.
    destruct (rmatch r1 s g k) as [y|] eqn:Hy.
    + injection Hm as ->. now apply (IH1 _ _ _ _ _ H1) in Hy.
    + now apply (IH2 _ _ _ _ _ H2) in Hm.
  - cbn [rmatch] in Hm. set (fuel := length s) in Hm. clearbody fuel.
    revert s x Hm. induction fuel as [|fuel IHf]; intros s x Hm; [now exists s|].
    cbn [star_loop] in Hm.
    assert (Hagain : forall y,
              rmatch r1 s g
                (fun s1 g1 => if (length s1 <? length s)%nat
                              then star_loop (fun s2 g2 k1 => rmatch r1 s2 g2 k1)
                                     greedy k fuel s1 g1
                              else None) = Some y ->
              exists s', k s' g = Some y).
    { intros y Hy. apply (IH1 _ _ _ _ _ Hfree) in Hy as [s1 Hy].
      destruct (length s1 <? length s)%nat; [|discriminate]. now apply IHf in Hy. }
    destruct greedy.
    + destruct (rmatch r1 s g _) as [y|] eqn:Hy.
      * injection Hm as ->. now apply Hagain.
      * now exists s.
    + destruct (k s g) as [y|] eqn:Hy.
      * injection Hm as ->. now exists s.
      * now apply Hagain.
  - discriminate.
  - cbn [rmatch] in Hm. destruct (rmatch r1 s g _); [now exists s|discriminate].
  - cbn [rmatch] in Hm. destruct s as [|c [|c' s]]; [now exists []| |discriminate].
    destruct (is_char newline c); [now exists [c]|discriminate].
Qed.

Lemma re_search_found (p : re) : forall s pre m,
  re_search p s = Some (pre, m) ->
  exists t, s = pre ++ t /\ match_here p t = Some m.
Proof.
  induction s as [|c s IH]; intros pre m Hs; cbn [re_search] in Hs.
  - destruct (match_here p []) as [m0|] eqn:Hm; [|discriminate].
    injection Hs as <- <-. now exists [].
  - destruct (match_here p (c :: s)) as [m0|] eqn:Hm.
    + injection Hs as <- <-. now exists (c :: s).
    + destruct (re_search p s) as [[pre0 m0]|] eqn:Hrest; [|discriminate].
      injection Hs as <- <-. destruct (IH pre0 m0 eq_refl) as (t & -> & Ht).
      now exists t.
Qed.

(** The group of a pattern "before, ( group ), after" where nothing
    after the group captures. *)
Lemma group_of_match (before r after_group : re) (s : str) (m : Match) :
  group_free after_group = true ->
  match_here (Seq before (Seq (Group r) after_group)) s = Some m ->
  exists a v b, s = a ++ v ++ b /\ lang before a /\ lang r v /\ group1 m = Some v.
Proof.
  intros Hfree Hm. unfold match_here in Hm. rewrite rmatch_seq in Hm.
  apply rmatch_sound in Hm as (a & s1 & g1 & -> & Ha & Hm).
  rewrite rmatch_seq, rmatch_group in Hm.
  apply rmatch_sound in Hm as (v & s2 & g2 & -> & Hv & Hm).
  apply (rmatch_group_free _ _ _ _ _ Hfree) in Hm as [s3 Hm].
  injection Hm as <-. exists a, v, s2. repeat split; try assumption.
  cbn [group1]. f_equal. rewrite length_app.
  replace (length v + length s2 - length s2)%nat with (length v) by lia.
  now rewrite take_app_length.
Qed.

Lemma lang_rep (p : ascii -> bool) : forall n v,
  lang (rep n (Chr p)) v -> length v = n /\ forallb p v = true.
Proof.
  induction n as [|n IH]; intros v Hv; cbn [rep lang] in Hv.
  - now subst v.
  - destruct Hv as (v1 & v2 & -> & (c & -> & Hc) & Hv2).
    destruct (IH v2 Hv2) as [Hlen Hall]. cbn [app length forallb].
    now rewrite Hlen, Hc, Hall.
Qed.

Lemma lang_rep_upto (p : ascii -> bool) : forall n v,
  lang (rep_upto n (Chr p)) v -> (length v <= n)%nat /\ forallb p v = true.
Proof.
  induction n as [|n IH]; intros v Hv; cbn [rep_upto opt lang] in Hv.
  - subst v. split; [simpl; lia|reflexivity].
  - destruct Hv as [(v1 & v2 & -> & (c & -> & Hc) & Hv2)| ->].
    + destruct (IH v2 Hv2) as [Hlen Hall]. cbn [app length forallb].
      rewrite Hc, Hall. split; [lia|reflexivity].
    + split; [simpl; lia|reflexivity].
Qed.

Lemma lang_rep_range (p : ascii -> bool) (lo hi : nat) (v : str) :
  (lo <= hi)%nat -> lang (rep_range lo hi (Chr p)) v ->
  (lo <= length v <= hi)%nat /\ forallb p v = true.
Proof.
  intros Hle (v1 & v2 & -> & Hv1 & Hv2).
  apply lang_rep in Hv1 as [Hl1 Ha1]. apply lang_rep_upto in Hv2 as [Hl2 Ha2].
  rewrite length_app, forallb_app, Ha1, Ha2. split; [lia|reflexivity].
Qed.

Lemma lang_plus (p : ascii -> bool) (v : str) :
  lang (plus (Chr p)) v -> forallb p v = true.
Proof.
  intros (v1 & v2 & -> & (c & -> & Hc) & (vs & -> & Hvs)).
  cbn [app forallb]. rewrite Hc. cbn [andb].
  induction Hvs as [|w vs (d & -> & Hd) _ IH]; [reflexivity|].
  cbn [concat app forallb]. now rewrite Hd.
Qed.

(** The identifier a stage finds is a part of the text and a text of the
    group of the pattern. *)
Lemma stage_found (before r after_group : re) (accept : str -> bool)
    (game_url game_id : str) :
  group_free after_group = true ->
  stage (Seq before (Seq (Group r) after_group)) accept game_url = Some game_id ->
  lang r game_id /\ accept game_id = true
  /\ exists a b, game_url = a ++ game_id ++ b.
Proof.
  intros Hfree Hstage. unfold stage in Hstage.
  destruct (re_search _ game_url) as [[pre m]|] eqn:Hs; [|discriminate].
  apply re_search_found in Hs as (t & -> & Hm).
  apply (group_of_match _ _ _ _ _ Hfree) in Hm as (a & v & b & -> & _ & Hv & Hg).
  rewrite Hg in Hstage. cbn [default from_option id] in Hstage.
  destruct (accept v) eqn:Hacc; [|discriminate]. injection Hstage as <-.
  split; [exact Hv|]. split; [exact Hacc|].
  exists (pre ++ a), b. now rewrite <- app_assoc.
Qed.

Lemma stage_ext (p1 p2 : re) (accept : str -> bool) (game_url : str) :
  (forall t, match_here p1 t = match_here p2 t) ->
  stage p1 accept game_url = stage p2 accept game_url.
Proof. intros Hp. unfold stage. now rewrite (re_search_ext p1 p2 Hp). Qed.

Lemma strip_last (s : str) (c : ascii) :
  last (strip s) = Some c -> is_space c = false.
Proof. unfold strip. apply rstrip_last. Qed.

(** X21. Whatever [extract_game_id] returns is a part of the text given,
    made of 4 to 20 letters and digits.  It is not one of the excluded
    path names unless it is the whole text: a bare text is returned
    without that test. *)
Theorem extract_game_id_shape (game_url game_id : str) :
  extract_game_id game_url = Return game_id ->
  forallb is_alnum game_id = true
  /\ (4 <= length game_id <= 20)%nat
  /\ (exists a b, strip game_url = a ++ game_id ++ b)
  /\ (not_excluded game_id = true \/ game_id = strip game_url).
Proof.
  unfold extract_game_id. set (url := strip game_url).
  assert (Hurl : url = strip game_url) by reflexivity. clearbody url.
  intros Hret.
  destruct (stage pat_export not_excluded url) as [id1|] eqn:H1.
  { injection Hret as <-.
    rewrite (stage_ext pat_export
               (Seq (word (L "/game/export/"))
                    (Seq (Group (rep_range 4 20 alnum)) Eps))) in H1
      by (intros t; reflexivity).
    apply stage_found in H1 as (Hv & Hacc & Hpart); [|reflexivity].
    apply lang_rep_range in Hv as [Hlen Hall]; [|lia].
    repeat split; try assumption; try lia. now left. }
  destruct (stage pat_id8 not_excluded url) as [id2|] eqn:H2.
  { injection Hret as <-.
    apply stage_found in H2 as (Hv & Hacc & Hpart); [|reflexivity].
    apply lang_rep in Hv as [Hlen Hall].
    repeat split; try assumption; try lia. now left. }
  destruct (stage pat_id12 not_excluded url) as [id3|] eqn:H3.
  { injection Hret as <-.
    apply stage_found in H3 as (Hv & Hacc & Hpart); [|reflexivity].
    apply lang_rep in Hv as [Hlen Hall].
    repeat split; try assumption; try lia. now left. }
  destruct (stage pat_id_range _ url) as [id4|] eqn:H4.
  { injection Hret as <-.
    apply stage_found in H4 as (Hv & Hacc & Hpart); [|reflexivity].
    apply lang_rep_range in Hv as [Hlen Hall]; [|lia].
    apply andb_prop in Hacc as [Hacc _].
    repeat split; try assumption; try lia. now left. }
  destruct (stage pat_id_any _ url) as [id5|] eqn:H5.
  { injection Hret as <-.
    rewrite (stage_ext pat_id_any
               (Seq site (Seq (Group (plus alnum)) Eps))) in H5
      by (intros t; reflexivity).
    apply stage_found in H5 as (Hv & Hacc & Hpart); [|reflexivity].
    apply lang_plus in Hv.
    apply andb_prop in Hacc as [Hacc Hlen]. unfold length_in_range in Hlen.
    apply andb_prop in Hlen as [Hlo Hhi].
    apply Nat.leb_le in Hlo, Hhi.
    repeat split; try assumption. now left. }
  destruct (match_here pat_bare url) as [m|] eqn:H6; [|discriminate].
  cbn [is_not_None] in Hret. injection Hret as <-.
  unfold match_here, pat_bare in H6. rewrite rmatch_seq in H6.
  apply rmatch_sound in H6 as (v & s' & g' & Hsplit & Hv & Hend).
  apply lang_rep_range in Hv as [Hlen Hall]; [|lia].
  assert (Hs' : s' = []).
  { destruct s' as [|c [|c' s']]; [reflexivity| |discriminate Hend].
    cbn [rmatch] in Hend. destruct (is_char newline c) eqn:Hc; [|discriminate].
    apply Ascii.eqb_eq in Hc. subst c.
    assert (Hlast : last url = Some newline).
    { rewrite Hsplit. apply last_snoc. }
    rewrite Hurl in Hlast. apply strip_last in Hlast. discriminate. }
  subst s'. rewrite app_nil_r in Hsplit. subst v.
  split; [exact Hall|]. split; [exact Hlen|].
  split; [exists [], []; now rewrite app_nil_r|now right].
Qed.

Lemma extract_game_id_shape_witness :
  extract_game_id (L " https://lichess.org/Ab3dEf9hXyZ1/black ") = Return (L "Ab3dEf9hXyZ1")
  /\ forallb is_alnum (L "Ab3dEf9hXyZ1") = true
  /\ (4 <= length (L "Ab3dEf9hXyZ1") <= 20)%nat.
Proof.
  assert (Hid : extract_game_id (L " https://lichess.org/Ab3dEf9hXyZ1/black ")
                = Return (L "Ab3dEf9hXyZ1")) by (vm_compute; reflexivity).
  destruct (extract_game_id_shape _ _ Hid) as (Hall & Hlen & _).
  split; [exact Hid|]. split; [exact Hall|exact Hlen].
Defined.

Lemma rep_chars {R} (p : ascii -> bool) : forall n v rest g
    (k : str -> option str -> option R),
  length v = n -> forallb p v = true ->
  rmatch (rep n (Chr p)) (v ++ rest) g k = k rest g.
Proof.
  induction n as [|n IH]; intros v rest g k Hlen Hall.
  - destruct v; [reflexivity|discriminate].
  - destruct v as [|c v]; [discriminate|]. cbn [forallb] in Hall.
    apply andb_prop in Hall as [Hc Hall]. cbn [rep app].
    rewrite rmatch_seq, rmatch_chr_ok by exact Hc.
    apply IH; [now injection Hlen|exact Hall].
Qed.

Lemma rep_upto_chars {R} (p : ascii -> bool) : forall n v g
    (k : str -> option str -> option R) x,
  (length v <= n)%nat -> forallb p v = true -> k [] g = Some x ->
  rmatch (rep_upto n (Chr p)) v g k = Some x.
Proof.
  induction n as [|n IH]; intros v g k x Hlen Hall Hk.
  - destruct v; [exact Hk|simpl in Hlen; lia].
  - cbn [rep_upto]. unfold opt. rewrite rmatch_alt.
    destruct v as [|c v].
    + rewrite rmatch_seq. cbn [rmatch]. exact Hk.
    + cbn [forallb] in Hall. apply andb_prop in Hall as [Hc Hall].
      rewrite rmatch_seq, rmatch_chr_ok by exact Hc.
      rewrite (IH v g k x); [reflexivity| |exact Hall|exact Hk].
      simpl in Hlen. lia.
Qed.

Lemma startswith_in (w : str) : forall s a,
  startswith s w = true -> In a w -> In a s.
Proof.
  induction w as [|b w IH]; intros s a Hs Ha; [contradiction|].
  destruct s as [|c s]; [discriminate|]. cbn [startswith] in Hs.
  apply andb_prop in Hs as [Hb Hs]. apply Ascii.eqb_eq in Hb. subst c.
  destruct Ha as [->|Ha]; [now left|]. right. now apply IH.
Qed.

Lemma contains_in (w : str) (a : ascii) : forall s,
  contains w s = true -> In a w -> In a s.
Proof.
  induction s as [|c s IH]; intros Hs Ha; cbn [contains] in Hs;
    apply orb_prop in Hs as [Hs|Hs].
  - now apply (startswith_in w).
  - discriminate.
  - now apply (startswith_in w).
  - right. now apply IH.
Qed.

Lemma stage_without (w : str) (r : re) (accept : str -> bool) (game_url : str) :
  contains w game_url = false -> stage (Seq (word w) r) accept game_url = None.
Proof. intros Hin. unfold stage. now rewrite re_search_word. Qed.

(** A pattern that starts with a character is not found before the
    first place where the character is. *)
Lemma re_search_after (a : ascii) (w : str) (r : re) : forall pre t,
  forallb (fun c => negb (is_char a c)) pre = true ->
  re_search (Seq (word (a :: w)) r) (pre ++ t)
  = match re_search (Seq (word (a :: w)) r) t with
    | Some (before, m) => Some (pre ++ before, m)
    | None => None
    end.
Proof.
  induction pre as [|c pre IH]; intros t Hpre.
  - cbn [app]. now destruct (re_search _ t) as [[before m]|].
  - cbn [forallb] in Hpre. apply andb_prop in Hpre as [Hc Hpre].
    apply negb_true_iff in Hc. cbn [app re_search].
    assert (Hhere : match_here (Seq (word (a :: w)) r) (c :: pre ++ t) = None).
    { unfold match_here. rewrite rmatch_seq, rmatch_word_any.
      cbn [startswith]. unfold is_char in Hc. now rewrite Hc. }
    rewrite Hhere, (IH t Hpre).
    now destruct (re_search _ t) as [[before m]|].
Qed.

Lemma id8_here (game_id rest : str) :
  length game_id = 8%nat -> forallb is_alnum game_id = true ->
  match rest with
  | [] => True
  | c :: _ => c = "/"%char \/ c = "Z"%char
  end ->
  exists m, match_here pat_id8 (L "lichess.org/" ++ game_id ++ rest) = Some m
            /\ group1 m = Some game_id.
Proof.
  intros Hlen Hall Hrest. unfold match_here, pat_id8, site. cbn [seqs].
  rewrite rmatch_seq, rmatch_word, rmatch_seq, rmatch_group.
  unfold alnum. rewrite (rep_chars is_alnum 8 game_id rest) by assumption.
  assert (Hgroup : take (length (game_id ++ rest) - length rest) (game_id ++ rest)
                   = game_id).
  { rewrite length_app.
    replace (length game_id + length rest - length rest)%nat
      with (length game_id) by lia.
    apply take_app_length. }
  rewrite Hgroup, rmatch_alt.
  destruct rest as [|c rest].
  - unfold lit at 1. cbn [rmatch]. eexists. split; reflexivity.
  - destruct Hrest as [->| ->].
    + unfold lit at 1. rewrite rmatch_chr_ok by reflexivity.
      eexists. split; reflexivity.
    + unfold lit at 1. cbn [rmatch].
      change (is_char "/" "Z") with false. cbv iota.
      change (is_char newline "Z") with false.
      destruct rest; cbv iota;
        (unfold lit; cbn [rmatch]; change (is_char "Z" "Z") with true; cbv iota;
         eexists; split; reflexivity).
Qed.

(** X22. In a text that has the site name once, before it no [l], and no
    export path, eight letters and digits after the site name are
    returned as the identifier when the text ends after them or goes on
    with a slash, and also when it goes on with a [Z]: an identifier of
    twelve characters whose ninth is [Z] is cut to its first eight. *)
Theorem extract_game_id_eight (game_url pre game_id rest : str) :
  strip game_url = pre ++ L "lichess.org/" ++ game_id ++ rest ->
  forallb (fun c => negb (is_char "l" c)) pre = true ->
  contains (L "/game/export/") (strip game_url) = false ->
  length game_id = 8%nat -> forallb is_alnum game_id = true ->
  not_excluded game_id = true ->
  match rest with
  | [] => True
  | c :: _ => c = "/"%char \/ c = "Z"%char
  end ->
  extract_game_id game_url = Return game_id.
Proof.
  intros Hurl Hpre Hexport Hlen Hall Hacc Hrest. unfold extract_game_id.
  unfold pat_export at 1. rewrite (stage_without _ _ _ _ Hexport).
  assert (Hstage : stage pat_id8 not_excluded (strip game_url) = Some game_id).
  { destruct (id8_here game_id rest Hlen Hall Hrest) as (m & Hm & Hg).
    unfold stage. rewrite Hurl.
    assert (Hsearch : re_search pat_id8 (pre ++ L "lichess.org/" ++ game_id ++ rest)
                      = Some (pre ++ [], m)).
    { unfold pat_id8, site in *. cbn [seqs] in *.
      change (L "lichess.org/") with ("l"%char :: L "ichess.org/") in *.
      rewrite re_search_after by exact Hpre.
      now rewrite (re_search_here _ _ _ Hm). }
    rewrite Hsearch, Hg. cbn [default from_option id]. now rewrite Hacc. }
  now rewrite Hstage.
Qed.

Lemma extract_game_id_eight_witness :
  extract_game_id (L "https://lichess.org/q7ZvsdUF/black") = Return (L "q7ZvsdUF")
  /\ extract_game_id (L "https://lichess.org/q7ZvsdUFZx3k") = Return (L "q7ZvsdUF").
Proof.
  split.
  - apply (extract_game_id_eight _ (L "https://") (L "q7ZvsdUF") (L "/black"));
      try reflexivity. now left.
  - apply (extract_game_id_eight _ (L "https://") (L "q7ZvsdUF") (L "Zx3k"));
      try reflexivity. now right.
Defined.

Lemma alnum_without (w : str) (a : ascii) (s : str) :
  is_alnum a = false -> In a w -> forallb is_alnum s = true ->
  contains w s = false.
Proof.
  intros Ha Hw Hs. apply not_true_iff_false. intros Hin.
  pose proof (contains_in w a s Hin Hw) as Has.
  rewrite forallb_forall in Hs. rewrite (Hs a Has) in Ha. discriminate.
Qed.

Lemma bare_here (v1 v2 : str) :
  length v1 = 4%nat -> (length v2 <= 16)%nat ->
  forallb is_alnum v1 = true -> forallb is_alnum v2 = true ->
  exists m, match_here pat_bare (v1 ++ v2) = Some m.
Proof.
  intros Hl1 Hl2 Ha1 Ha2. unfold match_here, pat_bare, rep_range, alnum.
  rewrite !rmatch_seq, (rep_chars is_alnum 4) by assumption.
  eexists. apply (rep_upto_chars is_alnum); [exact Hl2|exact Ha2|].
  cbn [rmatch]. reflexivity.
Qed.

(** X23. A text that is, once stripped, 4 to 20 letters and digits is
    returned as it is, also when it is one of the excluded path names. *)
Theorem extract_game_id_bare (game_url : str) :
  forallb is_alnum (strip game_url) = true ->
  (4 <= length (strip game_url) <= 20)%nat ->
  extract_game_id game_url = Return (strip game_url).
Proof.
  intros Hall Hlen. unfold extract_game_id.
  set (url := strip game_url) in *.
  assert (Hslash : forall w, In "/"%char w -> contains w url = false).
  { intros w Hw. now apply (alnum_without w "/"). }
  unfold pat_export, pat_id8, pat_id12, pat_id_range, pat_id_any, site.
  cbn [seqs].
  rewrite !stage_without by (apply Hslash; cbn; tauto).
  assert (Hbare : exists m, match_here pat_bare url = Some m).
  { rewrite <- (take_drop 4 url). rewrite <- (take_drop 4 url), forallb_app in Hall.
    apply andb_prop in Hall as [Hall1 Hall2].
    apply bare_here; try assumption.
    - rewrite length_take. lia.
    - rewrite length_drop. lia. }
  destruct Hbare as [m Hm]. now rewrite Hm.
Qed.

Lemma extract_game_id_bare_witness :
  extract_game_id (L "  q7ZvsdUF ") = Return (L "q7ZvsdUF")
  /\ extract_game_id (L "analysis") = Return (L "analysis").
Proof.
  split.
  - apply (extract_game_id_bare (L "  q7ZvsdUF ")); [reflexivity|vm_compute; lia].
  - apply (extract_game_id_bare (L "analysis")); [reflexivity|vm_compute; lia].
Defined.

(** ** [analyze_game]: when every move has its record *)

(** X24. When every move of the game replays on the board and the
    evaluations are of ordinary size (centipawns and mate counts below
    2^1022 in absolute value, so that the summary text can be written), the report
    of [analyze_game] has one record for each move, in order: the record
    of index k has ply k + 1 and the k-th move, White has the odd plies and
    Black the even ones, and [total_moves] is the number of moves. *)
Theorem report_complete `{ChessLib} (has_token : bool)
    (net : Task -> nat -> Response) (progress_callback : bool)
    (game_data0 : GameData) (schedule : list Event) (report : AnalysisReport) :
  analyze_game has_token net progress_callback game_data0 schedule
    = Some (Return report) ->
  replays new_board (gd_moves game_data0) ->
  ordinary (initial_eval_of has_token net (board_fen new_board)) ->
  (forall i fen, ordinary (fetched_eval has_token net fen i)) ->
  total_moves report = Z.of_nat (length (gd_moves game_data0))
  /\ length (evaluations report) = length (gd_moves game_data0)
  /\ forall k r, evaluations report !! k = Some r ->
       ply r = S k
       /\ gd_moves game_data0 !! k = Some (move r)
       /\ player r = (if Nat.odd (ply r) then white else black).
Proof.
  intros Hrun Hrep Hinit Hfetched.
  apply analyze_game_report in Hrun. injection Hrun as ->.
  set (fens := fens_to_eval new_board (gd_moves game_data0)).
  set (evals := imap (fun i fen => fetched_eval has_token net fen i) fens).
  assert (Hlen_evals : length evals = length (gd_moves game_data0)).
  { subst evals fens. now rewrite length_imap, fens_to_eval_length. }
  assert (Hfst : map fst (zip (gd_moves game_data0) evals) = gd_moves game_data0).
  { apply fst_zip. lia. }
  assert (Hsnd : map snd (zip (gd_moves game_data0) evals) = evals).
  { apply snd_zip. lia. }
  assert (Hlen : length (evaluations (report_of has_token net game_data0))
                 = length (gd_moves game_data0)).
  { unfold report_of, make_report. cbn [evaluations]. fold fens. fold evals.
    rewrite analyze_moves_complete.
    - rewrite length_zip_with. lia.
    - now rewrite Hfst.
    - exact Hinit.
    - rewrite Hsnd. subst evals. apply Forall_lookup_2. intros i ev Hi.
      rewrite list_lookup_imap in Hi.
      destruct (fens !! i) as [fen|]; [|discriminate]. injection Hi as <-.
      apply Hfetched. }
  split; [unfold report_of, make_report in *; cbn [total_moves evaluations] in *;
          now rewrite Hlen|].
  split; [exact Hlen|].
  intros k r Hk.
  pose proof (report_records has_token net game_data0 k r Hk)
    as (Hr & Hm & _ & Hpl & _).
  assert (Hply : ply r = S k).
  { unfold report_of, make_report in Hk, Hlen. cbn [evaluations] in Hk, Hlen.
    fold fens in Hk, Hlen. fold evals in Hk, Hlen.
    eapply analyze_moves_no_skip in Hk; [lia|].
    rewrite Hlen, length_zip_with. lia. }
  split; [exact Hply|]. split.
  - rewrite Hply in Hm. now replace (S k - 1)%nat with k in Hm by lia.
  - rewrite Hpl, Hply, Nat.odd_succ. reflexivity.
Qed.

Lemma report_complete_witness :
  exists report,
    @analyze_game MiniChess false net_cp18 true three_move_game
      (schedule_of_order
         (@fens_to_eval MiniChess (@new_board MiniChess) (gd_moves three_move_game))
         [2; 0; 1]%nat)
    = Some (Return report)
    /\ total_moves report = 3
    /\ map ply (evaluations report) = [1; 2; 3]%nat
    /\ map player (evaluations report) = [white; black; white].
Proof.
  eexists. split; [vm_compute; reflexivity|].
  match goal with
  | |- total_moves ?r = _ /\ _ =>
      pose proof (@report_complete MiniChess false net_cp18 true three_move_game
                    (schedule_of_order
                       (@fens_to_eval MiniChess (@new_board MiniChess)
                          (gd_moves three_move_game))
                       [2; 0; 1]%nat) r) as Hcomplete
  end.
  destruct Hcomplete as (Htotal & _ & _).
  - vm_compute. reflexivity.
  - vm_compute. exact I.
  - vm_compute. split; reflexivity.
  - intros i [fen|]; vm_compute; split; reflexivity.
  - split; [exact Htotal|]. split; vm_compute; reflexivity.
Defined.

(** ** Binary64 division and product: rounding keeps the order *)

Lemma round_half_even_mono (n1 d1 n2 d2 : Z) :
  0 < d1 -> 0 < d2 -> n1 * d2 <= n2 * d1 ->
  round_half_even n1 d1 <= round_half_even n2 d2.
Proof.
  intros Hd1 Hd2 Hle. unfold round_half_even.
  pose proof (Z.div_mod n1 d1 ltac:(lia)) as Hn1.
  pose proof (Z.div_mod n2 d2 ltac:(lia)) as Hn2.
  pose proof (Z.mod_pos_bound n1 d1 Hd1) as Hr1.
  pose proof (Z.mod_pos_bound n2 d2 Hd2) as Hr2.
  set (q1 := n1 / d1) in *. set (r1 := n1 mod d1) in *.
  set (q2 := n2 / d2) in *. set (r2 := n2 mod d2) in *.
  assert (Hq : q1 <= q2).
  { destruct (Z.le_gt_cases q1 q2) as [|Hgt]; [assumption|exfalso].
    assert (q2 + 1 <= q1) by lia.
    assert (n2 * d1 < (q2 + 1) * d2 * d1) by nia.
    assert ((q2 + 1) * d2 * d1 <= q1 * d1 * d2) by nia.
    assert (q1 * d1 * d2 <= n1 * d2) by nia.
    lia. }
  destruct (Z.eq_dec q1 q2) as [Heq|Hne].
  - assert (Hr : r1 * d2 <= r2 * d1) by nia.
    rewrite <- Heq.
    destruct (Z.ltb_spec (2 * r1) d1), (Z.ltb_spec d1 (2 * r1)),
      (Z.ltb_spec (2 * r2) d2), (Z.ltb_spec d2 (2 * r2));
      try lia; destruct (Z.even q1); try lia; exfalso; nia.
  - assert (q1 + 1 <= q2) by lia.
    destruct (Z.ltb_spec (2 * r1) d1), (Z.ltb_spec d1 (2 * r1)),
      (Z.ltb_spec (2 * r2) d2), (Z.ltb_spec d2 (2 * r2));
      destruct (Z.even q1), (Z.even q2); lia.
Qed.

Lemma round_half_even_bounds (n d lo hi : Z) :
  0 < d -> lo * d <= n -> n <= hi * d ->
  lo <= round_half_even n d <= hi.
Proof.
  intros Hd Hlo Hhi. unfold round_half_even.
  pose proof (Z.div_mod n d ltac:(lia)) as Hn.
  pose proof (Z.mod_pos_bound n d Hd) as Hr.
  set (q := n / d) in *. set (r := n mod d) in *.
  assert (lo <= q) by nia.
  assert (q <= hi) by nia.
  assert (r = 0 \/ q + 1 <= hi) by nia.
  destruct (Z.ltb_spec (2 * r) d), (Z.ltb_spec d (2 * r));
    destruct (Z.even q); lia.
Qed.

(** The exponent [b64_of_ratio] works out for a ratio puts the scaled
    ratio between 2^52 and 2^53. *)
Lemma norm_exponent (n d : Z) :
  0 < n -> 0 < d -> n < d * 2 ^ 52 -> d < n * 2 ^ 1000 ->
  let l := Z.log2 n - Z.log2 d in
  let above := if 0 <=? l then d * 2 ^ l <=? n else d <=? n * 2 ^ (- l) in
  let l' := if above then l else l - 1 in
  -1001 <= l' < 52
  /\ d * 2 ^ 52 <= n * 2 ^ (52 - l') < d * 2 ^ 53.
Proof.
  intros Hn Hd Hhi Hlo. cbv zeta.
  pose proof (Z.log2_spec n Hn) as [HA1 HA2].
  pose proof (Z.log2_spec d Hd) as [HD1 HD2].
  pose proof (Z.log2_nonneg n) as Hla. pose proof (Z.log2_nonneg d) as Hld.
  rewrite Z.pow_succ_r in HA2, HD2 by assumption.
  set (la := Z.log2 n) in *. set (ld := Z.log2 d) in *.
  assert (HAp : 0 < 2 ^ la) by (apply Z.pow_pos_nonneg; lia).
  assert (HDp : 0 < 2 ^ ld) by (apply Z.pow_pos_nonneg; lia).
  set (A := 2 ^ la) in *. set (Dp := 2 ^ ld) in *.
  change (2 ^ 53) with (2 * 2 ^ 52).
  assert (HK : 0 < 2 ^ 52) by reflexivity.
  assert (HM : 0 < 2 ^ 1000) by reflexivity.
  set (K := 2 ^ 52) in *. set (M := 2 ^ 1000) in *.
  destruct (Z.leb_spec 0 (la - ld)) as [Hl|Hl].
  - assert (HP : 0 < 2 ^ (la - ld)) by (apply Z.pow_pos_nonneg; lia).
    assert (HAD : A = Dp * 2 ^ (la - ld)).
    { subst A Dp. rewrite <- Z.pow_add_r by lia. f_equal; try lia. }
    destruct (Z.leb_spec (d * 2 ^ (la - ld)) n) as [Hab|Hab].
    + assert (Hl52 : la - ld < 52).
      { apply pow2_lt; [lia|]. fold K. nia. }
      assert (HQ : 2 ^ (la - ld) * 2 ^ (52 - (la - ld)) = K).
      { subst K. rewrite <- Z.pow_add_r by lia. f_equal; try lia. }
      assert (HQp : 0 < 2 ^ (52 - (la - ld))) by (apply Z.pow_pos_nonneg; lia).
      set (P := 2 ^ (la - ld)) in *. set (Q := 2 ^ (52 - (la - ld))) in *.
      split; [lia|]. split; nia.
    + assert (Hl53 : la - ld < 53).
      { apply pow2_lt; [lia|]. change (2 ^ 53) with (2 * K). nia. }
      assert (HQ : 2 ^ (la - ld) * 2 ^ (52 - (la - ld - 1)) = 2 * K).
      { change (2 * K) with (2 ^ 53). rewrite <- Z.pow_add_r by lia. f_equal; try lia. }
      assert (HQp : 0 < 2 ^ (52 - (la - ld - 1))) by (apply Z.pow_pos_nonneg; lia).
      set (P := 2 ^ (la - ld)) in *. set (Q := 2 ^ (52 - (la - ld - 1))) in *.
      split; [lia|]. split; nia.
  - assert (HP : 0 < 2 ^ (- (la - ld))) by (apply Z.pow_pos_nonneg; lia).
    assert (HAD : Dp = A * 2 ^ (- (la - ld))).
    { subst A Dp. rewrite <- Z.pow_add_r by lia. f_equal; try lia. }
    destruct (Z.leb_spec d (n * 2 ^ (- (la - ld)))) as [Hab|Hab].
    + assert (Hm : - (la - ld) < 1001).
      { apply pow2_lt; [lia|]. change (2 ^ 1001) with (2 * M). nia. }
      assert (HQ : 2 ^ (52 - (la - ld)) = K * 2 ^ (- (la - ld))).
      { subst K. rewrite <- Z.pow_add_r by lia. f_equal; try lia. }
      rewrite HQ. set (P := 2 ^ (- (la - ld))) in *.
      split; [lia|]. split; nia.
    + assert (Hm : - (la - ld) < 1000).
      { apply pow2_lt; [lia|]. fold M. nia. }
      assert (HQ : 2 ^ (52 - (la - ld - 1)) = 2 * K * 2 ^ (- (la - ld))).
      { change (2 * K) with (2 ^ 53). rewrite <- Z.pow_add_r by lia. f_equal; try lia. }
      rewrite HQ. set (P := 2 ^ (- (la - ld))) in *.
      split; [lia|]. split; nia.
Qed.

Lemma b64_norm (n d : Z) :
  0 < n -> 0 < d -> n < d * 2 ^ 52 -> d < n * 2 ^ 1000 ->
  exists E, 0 < E <= 1053
    /\ d * 2 ^ 52 <= n * 2 ^ E < d * 2 ^ 53
    /\ b64_of_ratio n d = Fin (round_half_even (n * 2 ^ E) d) (- E).
Proof.
  intros Hn Hd Hhi Hlo.
  pose proof (norm_exponent n d Hn Hd Hhi Hlo) as Hnorm. cbv zeta in Hnorm.
  unfold b64_of_ratio.
  destruct (Z.eqb_spec n 0) as [|_]; [lia|].
  rewrite (Z.abs_eq n) by lia.
  set (l' := if (if 0 <=? Z.log2 n - Z.log2 d
                 then d * 2 ^ (Z.log2 n - Z.log2 d) <=? n
                 else d <=? n * 2 ^ (- (Z.log2 n - Z.log2 d)))
             then Z.log2 n - Z.log2 d else Z.log2 n - Z.log2 d - 1) in *.
  destruct Hnorm as [Hl' Hscaled].
  exists (52 - l'). split; [lia|]. split; [exact Hscaled|].
  cbv zeta.
  replace (Z.max (l' - 52) (-1074)) with (- (52 - l')) by lia.
  destruct (Z.leb_spec 0 (- (52 - l'))) as [|_]; [lia|].
  rewrite Z.opp_involutive.
  fold (round_half_even (n * 2 ^ (52 - l')) d).
  destruct (Z.ltb_spec 971 (- (52 - l'))) as [|_]; [lia|].
  destruct (Z.eqb_spec (- (52 - l')) 971) as [|_]; [lia|].
  cbn [orb andb].
  destruct (Z.ltb_spec n 0) as [|_]; [lia|]. reflexivity.
Qed.

Lemma pow2_le (a b : Z) : 0 <= b -> 2 ^ a <= 2 ^ b -> a <= b.
Proof.
  intros Hb Hle. destruct (Z.le_gt_cases a b) as [|Hgt]; [assumption|exfalso].
  pose proof (Z.pow_lt_mono_r 2 b a ltac:(lia) ltac:(lia) Hgt). lia.
Qed.

(** Two ratios in order have their roundings in order. *)
Lemma scaled_order (n1 d1 n2 d2 E1 E2 : Z) :
  0 < n1 -> 0 < d1 -> 0 < n2 -> 0 < d2 -> 0 < E1 -> 0 < E2 ->
  d1 * 2 ^ 52 <= n1 * 2 ^ E1 < d1 * 2 ^ 53 ->
  d2 * 2 ^ 52 <= n2 * 2 ^ E2 < d2 * 2 ^ 53 ->
  n1 * d2 <= n2 * d1 ->
  round_half_even (n1 * 2 ^ E1) d1 * 2 ^ E2
  <= round_half_even (n2 * 2 ^ E2) d2 * 2 ^ E1.
Proof.
  intros Hn1 Hd1 Hn2 Hd2 HE1 HE2 Hs1 Hs2 Hle.
  change (2 ^ 53) with (2 * 2 ^ 52) in *.
  assert (HK : 0 < 2 ^ 52) by reflexivity. set (K := 2 ^ 52) in *.
  assert (HP1 : 0 < 2 ^ E1) by (apply Z.pow_pos_nonneg; lia).
  assert (HP2 : 0 < 2 ^ E2) by (apply Z.pow_pos_nonneg; lia).
  pose proof (round_half_even_bounds (n1 * 2 ^ E1) d1 K (2 * K) Hd1) as Hb1.
  pose proof (round_half_even_bounds (n2 * 2 ^ E2) d2 K (2 * K) Hd2) as Hb2.
  specialize (Hb1 ltac:(lia) ltac:(lia)). specialize (Hb2 ltac:(lia) ltac:(lia)).
  destruct (Z.lt_trichotomy E1 E2) as [Hlt|[Heq|Hgt]].
  - exfalso.
    assert (HR : 2 ^ E2 = 2 ^ E1 * 2 ^ (E2 - E1)).
    { rewrite <- Z.pow_add_r by lia. f_equal; try lia. }
    assert (HR2 : 2 <= 2 ^ (E2 - E1)).
    { change 2 with (2 ^ 1) at 1. apply Z.pow_le_mono_r; lia. }
    set (P1 := 2 ^ E1) in *. set (R := 2 ^ (E2 - E1)) in *.
    rewrite HR in Hs2.
    assert (H1 : n2 * P1 * 2 <= n2 * P1 * R) by nia.
    assert (H2 : n2 * P1 < K * d2) by nia.
    assert (H3 : d1 * K * d2 <= n1 * P1 * d2) by nia.
    assert (H4 : n1 * P1 * d2 <= n2 * P1 * d1) by nia.
    assert (H5 : n2 * P1 * d1 < K * d2 * d1) by nia.
    nia.
  - subst E2.
    pose proof (round_half_even_mono (n1 * 2 ^ E1) d1 (n2 * 2 ^ E1) d2 Hd1 Hd2) as Hm.
    specialize (Hm ltac:(nia)). nia.
  - assert (HR : 2 ^ E1 = 2 ^ E2 * 2 ^ (E1 - E2)).
    { rewrite <- Z.pow_add_r by lia. f_equal; try lia. }
    assert (HR2 : 2 <= 2 ^ (E1 - E2)).
    { change 2 with (2 ^ 1) at 1. apply Z.pow_le_mono_r; lia. }
    set (q1 := round_half_even _ d1) in *. set (q2 := round_half_even _ d2) in *.
    rewrite HR. set (P2 := 2 ^ E2) in *. set (R := 2 ^ (E1 - E2)) in *.
    assert (H1 : q1 * P2 <= 2 * K * P2) by nia.
    assert (H2 : 2 * K * P2 <= K * P2 * R) by nia.
    assert (H3 : K * (P2 * R) <= q2 * (P2 * R)) by nia.
    nia.
Qed.

(** [accurate_moves / total_moves * 100] for a share that is not zero:
    the two roundings. *)
Lemma average_rounded (g t : Z) :
  0 < g <= t -> t < 2 ^ 900 ->
  exists q E Q F,
    0 < E <= 1053 /\ 0 < F <= 1053
    /\ t * 2 ^ 52 <= g * 2 ^ E < t * 2 ^ 53
    /\ q = round_half_even (g * 2 ^ E) t
    /\ 2 ^ E * 2 ^ 52 <= (q * 100) * 2 ^ F < 2 ^ E * 2 ^ 53
    /\ Q = round_half_even ((q * 100) * 2 ^ F) (2 ^ E)
    /\ float_mul (b64_of_ratio g t) (Fin 100 0) = Fin Q (- F).
Proof.
  intros Hg Ht.
  assert (Hhi : g < t * 2 ^ 52).
  { assert (HK1 : 1 < 2 ^ 52) by reflexivity.
    assert (t * 1 < t * 2 ^ 52) by (apply Z.mul_lt_mono_pos_l; lia). lia. }
  assert (Hlo : t < g * 2 ^ 1000).
  { assert (HM1 : 2 ^ 900 <= 2 ^ 1000) by (apply Z.pow_le_mono_r; lia).
    assert (1 * 2 ^ 1000 <= g * 2 ^ 1000)
      by (apply Z.mul_le_mono_nonneg_r; [apply Z.pow_nonneg|]; lia).
    lia. }
  destruct (b64_norm g t ltac:(lia) ltac:(lia) Hhi Hlo) as (E & HE & Hs & Hb).
  change (2 ^ 53) with (2 * 2 ^ 52) in Hs.
  assert (HK : 0 < 2 ^ 52) by reflexivity.
  assert (HP : 0 < 2 ^ E) by (apply Z.pow_pos_nonneg; lia).
  assert (HE52 : 52 <= E).
  { apply pow2_le; [lia|]. nia. }
  pose proof (round_half_even_bounds (g * 2 ^ E) t (2 ^ 52) (2 * 2 ^ 52)
                ltac:(lia) ltac:(lia) ltac:(lia)) as Hq.
  set (q := round_half_even (g * 2 ^ E) t) in *.
  assert (Hhi2 : q * 100 < 2 ^ E * 2 ^ 52).
  { assert (Hpow : 2 ^ 52 * 2 ^ (E - 52) = 2 ^ E).
    { rewrite <- Z.pow_add_r by lia. f_equal; try lia. }
    assert (HR : 0 < 2 ^ (E - 52)) by (apply Z.pow_pos_nonneg; lia).
    assert (H200 : 200 < 2 ^ 52) by reflexivity.
    rewrite <- Hpow.
    set (K := 2 ^ 52) in *. set (R := 2 ^ (E - 52)) in *. nia. }
  assert (Hlo2 : 2 ^ E < q * 100 * 2 ^ 1000).
  { assert (Hpow : 2 ^ E <= 2 ^ 1053) by (apply Z.pow_le_mono_r; lia).
    change (2 ^ 1053) with (2 * 2 ^ 52 * 2 ^ 1000) in Hpow.
    assert (HM : 0 < 2 ^ 1000) by reflexivity.
    set (K := 2 ^ 52) in *. set (M := 2 ^ 1000) in *. nia. }
  destruct (b64_norm (q * 100) (2 ^ E) ltac:(lia) HP Hhi2 Hlo2)
    as (F & HF & Hs2 & Hb2).
  exists q, E, (round_half_even (q * 100 * 2 ^ F) (2 ^ E)), F.
  split; [exact HE|]. split; [exact HF|].
  split; [change (2 ^ 53) with (2 * 2 ^ 52); exact Hs|].
  split; [reflexivity|]. split; [exact Hs2|]. split; [reflexivity|].
  rewrite Hb. unfold float_mul.
  destruct (Z.leb_spec 0 (- E + 0)) as [|_]; [lia|].
  replace (- (- E + 0)) with E by lia. exact Hb2.
Qed.

(** The average of a smaller share is not above the average of a larger
    one, after the two roundings. *)
Lemma average_mono (g1 t1 g2 t2 p : Z) :
  0 < g1 <= t1 -> t1 < 2 ^ 900 -> 0 < g2 <= t2 -> t2 < 2 ^ 900 ->
  g1 * t2 <= g2 * t1 -> 0 <= p ->
  float_ge_int (float_mul (b64_of_ratio g1 t1) (Fin 100 0)) p = true ->
  float_ge_int (float_mul (b64_of_ratio g2 t2) (Fin 100 0)) p = true.
Proof.
  intros Hg1 Ht1 Hg2 Ht2 Hle Hp.
  destruct (average_rounded g1 t1 Hg1 Ht1)
    as (q1 & E1 & Q1 & F1 & HE1 & HF1 & Hs1 & Hq1 & Hr1 & HQ1 & ->).
  destruct (average_rounded g2 t2 Hg2 Ht2)
    as (q2 & E2 & Q2 & F2 & HE2 & HF2 & Hs2 & Hq2 & Hr2 & HQ2 & ->).
  unfold float_ge_int.
  destruct (Z.leb_spec 0 (- F1)) as [|_]; [lia|].
  destruct (Z.leb_spec 0 (- F2)) as [|_]; [lia|].
  rewrite !Z.opp_involutive. intros Hge. apply Z.leb_le in Hge. apply Z.leb_le.
  assert (HP1 : 0 < 2 ^ E1) by (apply Z.pow_pos_nonneg; lia).
  assert (HP2 : 0 < 2 ^ E2) by (apply Z.pow_pos_nonneg; lia).
  assert (HG1 : 0 < 2 ^ F1) by (apply Z.pow_pos_nonneg; lia).
  assert (HG2 : 0 < 2 ^ F2) by (apply Z.pow_pos_nonneg; lia).
  assert (Hfirst : q1 * 2 ^ E2 <= q2 * 2 ^ E1).
  { subst q1 q2. apply scaled_order; try lia. }
  assert (Hq1p : 0 < q1).
  { subst q1.
    pose proof (round_half_even_bounds (g1 * 2 ^ E1) t1 (2 ^ 52) (2 ^ 53)
                  ltac:(lia) ltac:(lia) ltac:(lia)) as Hb.
    assert (0 < 2 ^ 52) by reflexivity. lia. }
  assert (Hq2p : 0 < q2).
  { subst q2.
    pose proof (round_half_even_bounds (g2 * 2 ^ E2) t2 (2 ^ 52) (2 ^ 53)
                  ltac:(lia) ltac:(lia) ltac:(lia)) as Hb.
    assert (0 < 2 ^ 52) by reflexivity. lia. }
  assert (Hsecond : Q1 * 2 ^ F2 <= Q2 * 2 ^ F1).
  { subst Q1 Q2. apply scaled_order; try lia; nia. }
  set (G1 := 2 ^ F1) in *. set (G2 := 2 ^ F2) in *.
  assert (H1 : p * G1 * G2 <= Q1 * G2) by nia.
  nia.
Qed.

(** The tests [average_accuracy >= 90], [>= 80] and [>= 70] compare the
    exact share with the percentage. *)
Lemma average_threshold (g t p : Z) :
  0 <= g <= t -> 0 < t < 2 ^ 32 -> In p [70; 80; 90] ->
  float_ge_int (float_mul (b64_of_ratio g t) (Fin 100 0)) p
  = (p * t <=? 100 * g).
Proof.
  intros Hg Ht Hp.
  assert (Hbig : 2 ^ 32 < 2 ^ 900) by reflexivity.
  destruct (Z.eq_dec g 0) as [->|Hg0].
  - change (b64_of_ratio 0 t) with (Fin 0 0).
    destruct (Z.leb_spec (p * t) (100 * 0)) as [Hle|_].
    + destruct Hp as [<-|[<-|[<-|[]]]]; lia.
    + destruct Hp as [<-|[<-|[<-|[]]]]; vm_compute; reflexivity.
  - assert (Hpos : 0 < g <= t) by lia.
    assert (Ht900 : t < 2 ^ 900) by lia.
    destruct (Z.leb_spec (p * t) (100 * g)) as [Hle|Hgt].
    + destruct Hp as [<-|[<-|[<-|[]]]].
      * apply (average_mono 70 100 g t 70 ltac:(lia) ltac:(reflexivity) Hpos Ht900
                 ltac:(lia) ltac:(lia)). vm_compute. reflexivity.
      * apply (average_mono 80 100 g t 80 ltac:(lia) ltac:(reflexivity) Hpos Ht900
                 ltac:(lia) ltac:(lia)). vm_compute. reflexivity.
      * apply (average_mono 90 100 g t 90 ltac:(lia) ltac:(reflexivity) Hpos Ht900
                 ltac:(lia) ltac:(lia)). vm_compute. reflexivity.
    + destruct (float_ge_int _ p) eqn:Hge; [exfalso|reflexivity].
      destruct Hp as [<-|[<-|[<-|[]]]].
      * apply (average_mono g t (70 * 2 ^ 32 - 1) (100 * 2 ^ 32) 70 Hpos Ht900
                 ltac:(lia) ltac:(reflexivity) ltac:(lia) ltac:(lia)) in Hge.
        vm_compute in Hge. discriminate.
      * apply (average_mono g t (80 * 2 ^ 32 - 1) (100 * 2 ^ 32) 80 Hpos Ht900
                 ltac:(lia) ltac:(reflexivity) ltac:(lia) ltac:(lia)) in Hge.
        vm_compute in Hge. discriminate.
      * apply (average_mono g t (90 * 2 ^ 32 - 1) (100 * 2 ^ 32) 90 Hpos Ht900
                 ltac:(lia) ltac:(reflexivity) ltac:(lia) ltac:(lia)) in Hge.
        vm_compute in Hge. discriminate.
Qed.

(** X25. The overall assessment of a player with at least one move
    depends on the exact share of accurate and good moves: excellent from
    90 percent, fair from 80, average from 70, and below 70 unstable when
    the blunders outnumber the mistakes and in need of work otherwise.
    The two roundings of [accurate_moves / total_moves * 100] never move a
    share across one of the three percentages. *)
Theorem assessment_by_share (evaluations : list EvalEntry) (is_white : bool) :
  let stats := calculate_player_stats evaluations is_white in
  let total := ps_total_moves stats in
  let fine := n_accurate (ps_counts stats) + n_good (ps_counts stats) in
  0 < total < 2 ^ 32 ->
  ps_overall_assessment stats
  = if 90 * total <=? 100 * fine then excellent
    else if 80 * total <=? 100 * fine then fair
    else if 70 * total <=? 100 * fine then average
    else if n_blunder (ps_counts stats) >? n_mistake (ps_counts stats)
         then unstable
         else needs_work.
Proof.
  cbv zeta.
  destruct (player_counts evaluations is_white) as [Htotal Hcounts].
  pose proof (player_counts_sum evaluations is_white) as Hsum.
  cbv zeta in Htotal, Hcounts, Hsum.
  pose proof (Hcounts accurate) as Ha. pose proof (Hcounts good) as Hgd.
  pose proof (Hcounts inaccuracy) as Hi. pose proof (Hcounts mistake) as Hm.
  pose proof (Hcounts blunder) as Hb. cbn [count_of] in Ha, Hgd, Hi, Hm, Hb.
  set (mine := List.filter (is_player_entry is_white) evaluations) in *.
  pose proof (how_many_bounds (has_label accurate) mine) as Ba.
  pose proof (how_many_bounds (has_label good) mine) as Bg.
  pose proof (how_many_bounds (has_label inaccuracy) mine) as Bi.
  pose proof (how_many_bounds (has_label mistake) mine) as Bm.
  pose proof (how_many_bounds (has_label blunder) mine) as Bb.
  pose proof (how_many_bounds
                (fun d => existsb (fun c => has_label c d)
                            [accurate; good; inaccuracy; mistake; blunder]) mine)
    as Bsum.
  revert Htotal Ha Hgd Hi Hm Hb Hsum.
  unfold calculate_player_stats. fold mine.
  destruct (Z.eqb_spec (Z.of_nat (length mine)) 0) as [Hz|Hz].
  { cbn [ps_total_moves]. intros; lia. }
  cbn [ps_total_moves ps_counts ps_overall_assessment].
  set (counts := fold_left _ mine _).
  intros _ Ha Hgd Hi Hm Hb Hsum Htot.
  rewrite !(average_threshold (n_accurate counts + n_good counts)
              (Z.of_nat (length mine))); try lia; cbn; tauto.
Qed.

Lemma assessment_by_share_witness :
  ps_total_moves (calculate_player_stats noted_entries true) = 2
  /\ ps_overall_assessment (calculate_player_stats noted_entries true) = needs_work
  /\ ps_overall_assessment (calculate_player_stats noted_entries false) = excellent.
Proof.
  split; [vm_compute; reflexivity|]. split.
  - rewrite (assessment_by_share noted_entries true); vm_compute; [reflexivity|].
    split; reflexivity.
  - rewrite (assessment_by_share noted_entries false); vm_compute; [reflexivity|].
    split; reflexivity.
Defined.

(** ** [fetch_game_data]: the game data read from the PGN *)

Lemma lang_plus_nonempty (p : ascii -> bool) (v : str) :
  lang (plus (Chr p)) v -> v <> [].
Proof. intros (v1 & v2 & -> & (c & -> & _) & _). discriminate. Qed.

Lemma tag_value_ok (name line v : str) :
  tag_value name line = Some v -> name_ok v.
Proof.
  unfold tag_value. intros Hv.
  destruct (re_search (pat_tag name) line) as [[pre m]|] eqn:Hs; [|discriminate].
  injection Hv as <-.
  apply re_search_found in Hs as (t & _ & Hm).
  unfold pat_tag in Hm. cbn [seqs] in Hm.
  apply group_of_match in Hm as (a & v & b & _ & _ & Hv & Hg); [|reflexivity].
  rewrite Hg. cbn [default from_option id]. split.
  - now apply lang_plus_nonempty in Hv.
  - apply lang_plus in Hv. apply not_true_iff_false. intros Hq.
    apply existsb_exists in Hq as (c & Hin & Hc).
    rewrite forallb_forall in Hv. specialize (Hv c Hin).
    cbn [existsb] in Hv. rewrite Hc in Hv. discriminate.
Qed.

Lemma result_of_values (result_str : str) :
  In (result_of result_str) [L "white"; L "black"; L "draw"; L "*"].
Proof.
  unfold result_of.
  destruct (str_eqb result_str (L "1-0")); [now left|].
  destruct (str_eqb result_str (L "0-1")); [right; now left|].
  destruct (str_eqb result_str (L "1/2-1/2")); [right; right; now left|].
  right; right; right; now left.
Qed.

Lemma read_tag_line_ok (h : Headers) (line : str) :
  headers_ok h -> headers_ok (read_tag_line h line).
Proof.
  intros Hh. pose proof Hh as (Hw & Hb & Ho & Hr). unfold read_tag_line.
  destruct (startswith (strip line) (L "[White ")).
  { destruct (tag_value _ _) as [v|] eqn:Hv; [|exact Hh].
    apply tag_value_ok in Hv. split; [exact Hv|]. split; [exact Hb|].
    split; [exact Ho|exact Hr]. }
  destruct (startswith (strip line) (L "[Black ")).
  { destruct (tag_value _ _) as [v|] eqn:Hv; [|exact Hh].
    apply tag_value_ok in Hv. split; [exact Hw|]. split; [exact Hv|].
    split; [exact Ho|exact Hr]. }
  destruct (startswith (strip line) (L "[WhiteElo ")).
  { destruct (tag_value _ _) as [v|] eqn:Hv; [|exact Hh].
    split; [exact Hw|]. split; [exact Hb|]. split; [exact Ho|exact Hr]. }
  destruct (startswith (strip line) (L "[BlackElo ")).
  { destruct (tag_value _ _) as [v|] eqn:Hv; [|exact Hh].
    split; [exact Hw|]. split; [exact Hb|]. split; [exact Ho|exact Hr]. }
  destruct (startswith (strip line) (L "[Opening ")).
  { destruct (tag_value _ _) as [v|] eqn:Hv; [|exact Hh].
    apply tag_value_ok in Hv. split; [exact Hw|]. split; [exact Hb|].
    split; [|exact Hr]. cbn [opening]. now intros o [= <-]. }
  destruct (startswith (strip line) (L "[Result ")).
  { destruct (tag_value _ _) as [v|] eqn:Hv; [|exact Hh].
    split; [exact Hw|]. split; [exact Hb|]. split; [exact Ho|].
    apply result_of_values. }
  exact Hh.
Qed.

Lemma read_headers_ok (pgn : str) : headers_ok (read_headers pgn).
Proof.
  unfold read_headers.
  assert (Hinit : headers_ok (mkHeaders (L "Unknown") (L "Unknown") None None
                                None (L "*"))).
  { split; [split; [discriminate|reflexivity]|].
    split; [split; [discriminate|reflexivity]|].
    split; [discriminate|]. right; right; right; now left. }
  revert Hinit. generalize (mkHeaders (L "Unknown") (L "Unknown") None None None (L "*")).
  induction (split_on newline pgn) as [|line lines IH]; intros h Hh; [exact Hh|].
  cbn [fold_left]. apply IH. now apply read_tag_line_ok.
Qed.

(** X26. The game data made from any PGN text: the result is one of the
    four words white, black, draw and *, never the result token of the
    PGN; the names of the players and of the opening are never empty and
    hold no quote; the game id and the PGN are the ones given and the moves
    are those of [parse_pgn_moves]. *)
Theorem game_data_of_pgn_fields `{ChessLib} (game_id pgn : str) :
  let data := game_data_of_pgn game_id pgn in
  In (gd_result data) [L "white"; L "black"; L "draw"; L "*"]
  /\ name_ok (username (gd_white data))
  /\ name_ok (username (gd_black data))
  /\ (forall o, gd_opening data = Some o -> name_ok o)
  /\ gd_game_id data = game_id /\ gd_pgn data = pgn
  /\ gd_moves data = parse_pgn_moves pgn.
Proof.
  cbv zeta. unfold game_data_of_pgn.
  cbn [gd_result gd_white gd_black gd_opening gd_game_id gd_pgn gd_moves username].
  destruct (read_headers_ok pgn) as (Hw & Hb & Ho & Hr).
  split; [exact Hr|]. split; [exact Hw|]. split; [exact Hb|].
  split; [exact Ho|]. split; [reflexivity|]. split; reflexivity.
Qed.

Lemma split_on_from_line (sep : ascii) : forall line cur rest,
  forallb (fun c => negb (Ascii.eqb c sep)) line = true ->
  split_on_from sep cur (line ++ rest) = split_on_from sep (rev line ++ cur) rest.
Proof.
  induction line as [|c line IH]; intros cur rest Hline; [reflexivity|].
  cbn [forallb] in Hline. apply andb_prop in Hline as [Hc Hline].
  apply negb_true_iff in Hc. cbn [app split_on_from]. rewrite Hc.
  rewrite IH by exact Hline. cbn [rev]. now rewrite <- app_assoc.
Qed.

Lemma split_join_lines : forall line lines,
  Forall (fun l => forallb (fun c => negb (is_char newline c)) l = true)
         (line :: lines) ->
  split_on newline (join_lines (line :: lines)) = line :: lines.
Proof.
  assert (Hsym : forall l, forallb (fun c => negb (is_char newline c)) l = true ->
            forallb (fun c => negb (Ascii.eqb c newline)) l = true).
  { intros l Hl. rewrite <- Hl. apply forallb_pointwise. intros c.
    unfold is_char. now rewrite Ascii.eqb_sym. }
  intros line lines. revert line.
  induction lines as [|next lines IH]; intros line Hall;
    inversion Hall as [|? ? Hline Hrest]; subst.
  - cbn [join_lines]. unfold split_on.
    rewrite <- (app_nil_r line) at 1.
    rewrite split_on_from_line by now apply Hsym.
    cbn [split_on_from]. now rewrite app_nil_r, rev_involutive.
  - change (join_lines (line :: next :: lines))
      with (line ++ newline :: join_lines (next :: lines)).
    unfold split_on. rewrite split_on_from_line by now apply Hsym.
    cbn [split_on_from]. rewrite Ascii.eqb_refl, app_nil_r, rev_involutive.
    f_equal. apply IH. exact Hrest.
Qed.

Lemma strip_bracketed (mid : str) :
  strip ("["%char :: mid ++ ["]"%char]) = "["%char :: mid ++ ["]"%char].
Proof.
  unfold strip, rstrip_by.
  change (lstrip_by is_space ("["%char :: mid ++ ["]"%char]))
    with ("["%char :: mid ++ ["]"%char]).
  change ("["%char :: mid ++ ["]"%char]) with (("["%char :: mid) ++ ["]"%char]).
  rewrite rev_app_distr.
  change (lstrip_by is_space (rev ["]"%char] ++ rev ("["%char :: mid)))
    with (rev ["]"%char] ++ rev ("["%char :: mid)).
  now rewrite <- rev_app_distr, rev_involutive.
Qed.

Lemma tag_line_bracketed (tag : str * str) :
  tag_line tag
  = "["%char :: (fst tag ++ [" "%char; quote] ++ snd tag ++ [quote]) ++ ["]"%char].
Proof. unfold tag_line. now rewrite <- !app_assoc. Qed.

(** A name without whitespace before a space is the name it is. *)
Lemma startswith_key : forall key name rest,
  no_space key = true -> no_space name = true ->
  startswith (key ++ " "%char :: rest) (name ++ [" "%char]) = true ->
  key = name.
Proof.
  induction key as [|c key IH]; intros [|d name] rest Hkey Hname Hs;
    cbn [app startswith] in Hs.
  - reflexivity.
  - apply andb_prop in Hs as [Hd _]. apply Ascii.eqb_eq in Hd. subst d.
    discriminate Hname.
  - apply andb_prop in Hs as [Hc _]. apply Ascii.eqb_eq in Hc. subst c.
    discriminate Hkey.
  - apply andb_prop in Hs as [Hd Hs]. apply Ascii.eqb_eq in Hd. subst d.
    unfold no_space in *. cbn [forallb] in Hkey, Hname.
    apply andb_prop in Hkey as [_ Hkey]. apply andb_prop in Hname as [_ Hname].
    f_equal. now apply (IH name rest).
Qed.

Lemma startswith_app (w s : str) : startswith (w ++ s) w = true.
Proof.
  induction w as [|c w IH]; [now destruct s|].
  cbn [app startswith]. now rewrite Ascii.eqb_refl.
Qed.

(** Which test of the loop a tag line passes. *)
Lemma tag_line_test (key value name : str) :
  no_space key = true -> no_space name = true ->
  startswith (tag_line (key, value)) ("["%char :: name ++ [" "%char])
  = str_eqb key name.
Proof.
  intros Hkey Hname. unfold tag_line. cbn [fst snd startswith].
  rewrite Ascii.eqb_refl. cbn [andb].
  change ([" "%char; quote] ++ value ++ [quote; "]"%char])
    with (" "%char :: (quote :: value ++ [quote; "]"%char])).
  destruct (str_eqb key name) eqn:Heq.
  - apply str_eqb_eq in Heq. subst name.
    change (key ++ " "%char :: quote :: value ++ [quote; "]"%char])
      with (key ++ [" "%char] ++ (quote :: value ++ [quote; "]"%char])).
    rewrite app_assoc. apply startswith_app.
  - apply not_true_iff_false. intros Hs.
    apply startswith_key in Hs; [|assumption|assumption].
    subst name. assert (Hrefl : str_eqb key key = true) by now apply str_eqb_eq.
    congruence.
Qed.

Lemma without_quote (v : str) :
  existsb (is_char quote) v = false ->
  forallb (fun c => negb (existsb (fun a => is_char a c) [quote])) v = true.
Proof.
  intros Hv.
  rewrite (forallb_pointwise _ (fun c => negb (is_char quote c)))
    by (intros c; cbn [existsb]; now rewrite orb_false_r).
  induction v as [|c v IH]; [reflexivity|]. cbn [forallb existsb] in Hv |- *.
  apply orb_false_elim in Hv as [Hc Hv]. now rewrite Hc, (IH Hv).
Qed.

(** The pattern of a tag reads the value of a tag line. *)
Lemma tag_value_line (name value : str) :
  value <> [] -> existsb (is_char quote) value = false ->
  tag_value name (tag_line (name, value)) = Some value.
Proof.
  intros Hne Hq. unfold tag_value.
  assert (Hhere : exists m, match_here (pat_tag name) (tag_line (name, value)) = Some m
                            /\ group1 m = Some value).
  { unfold match_here, pat_tag, tag_line. cbn [seqs fst snd].
    change ("["%char :: name ++ [" "%char; quote] ++ value ++ [quote; "]"%char])
      with (("["%char :: name) ++ [" "%char; quote] ++ value ++ [quote; "]"%char]).
    rewrite (app_assoc ("["%char :: name)).
    change (("["%char :: name) ++ [" "%char; quote])
      with ("["%char :: name ++ [" "%char; quote]).
    rewrite rmatch_seq, rmatch_word, rmatch_seq, rmatch_group.
    destruct value as [|d ds]; [contradiction|].
    eexists. split.
    - apply plus_chars.
      + now apply without_quote.
      + reflexivity.
      + cbv beta. change [quote; "]"%char] with ([quote; "]"%char] ++ []).
        rewrite rmatch_word. reflexivity.
    - cbn [group1]. f_equal. rewrite length_app, Nat.add_sub.
      apply take_app_length. }
  destruct Hhere as (m & Hm & Hg).
  now rewrite (re_search_here _ _ _ Hm), Hg.
Qed.

Lemma value_no_quote (value : str) :
  forallb (fun c => negb (is_char quote c) && negb (is_char newline c)) value = true ->
  existsb (is_char quote) value = false
  /\ forallb (fun c => negb (is_char newline c)) value = true.
Proof.
  induction value as [|c value IH]; [now split|].
  cbn [forallb existsb]. intros Hv. apply andb_prop in Hv as [Hc Hv].
  apply andb_prop in Hc as [Hq Hn]. destruct (IH Hv) as [IHq IHn].
  apply negb_true_iff in Hq. now rewrite Hq, IHq, Hn, IHn.
Qed.

(** What the loop does with the line of a tag. *)
Lemma read_tag_line_tag (h : Headers) (key value : str) :
  tag_ok (key, value) ->
  let h' := read_tag_line h (tag_line (key, value)) in
  white_name h' = (if str_eqb key (L "White") then value else white_name h)
  /\ black_name h' = (if str_eqb key (L "Black") then value else black_name h)
  /\ opening h' = (if str_eqb key (L "Opening") then Some value else opening h)
  /\ result_word h'
     = (if str_eqb key (L "Result") then result_of value else result_word h).
Proof.
  intros (Hkey & Hne & Hvalue). cbn [fst snd] in Hkey, Hne, Hvalue.
  destruct (value_no_quote value Hvalue) as [Hq _].
  cbv zeta. unfold read_tag_line.
  rewrite tag_line_bracketed, strip_bracketed, <- tag_line_bracketed.
  change (L "[White ") with ("["%char :: L "White" ++ [" "%char]).
  change (L "[Black ") with ("["%char :: L "Black" ++ [" "%char]).
  change (L "[WhiteElo ") with ("["%char :: L "WhiteElo" ++ [" "%char]).
  change (L "[BlackElo ") with ("["%char :: L "BlackElo" ++ [" "%char]).
  change (L "[Opening ") with ("["%char :: L "Opening" ++ [" "%char]).
  change (L "[Result ") with ("["%char :: L "Result" ++ [" "%char]).
  rewrite !tag_line_test by (exact Hkey || reflexivity).
  assert (Hother : forall n1 n2, n1 <> n2 -> str_eqb key n1 = true ->
            str_eqb key n2 = false).
  { intros n1 n2 Hn H1. apply str_eqb_eq in H1. subst n1.
    apply not_true_iff_false. intros H2. apply str_eqb_eq in H2. congruence. }
  destruct (str_eqb key (L "White")) eqn:HW.
  { apply str_eqb_eq in HW. subst key.
    rewrite tag_value_line by assumption. repeat split. }
  destruct (str_eqb key (L "Black")) eqn:HB.
  { apply str_eqb_eq in HB. subst key.
    rewrite tag_value_line by assumption. repeat split. }
  destruct (str_eqb key (L "WhiteElo")) eqn:HWE.
  { rewrite (Hother (L "WhiteElo") (L "Opening") ltac:(discriminate) HWE).
    rewrite (Hother (L "WhiteElo") (L "Result") ltac:(discriminate) HWE).
    destruct (tag_value _ _); repeat split. }
  destruct (str_eqb key (L "BlackElo")) eqn:HBE.
  { rewrite (Hother (L "BlackElo") (L "Opening") ltac:(discriminate) HBE).
    rewrite (Hother (L "BlackElo") (L "Result") ltac:(discriminate) HBE).
    destruct (tag_value _ _); repeat split. }
  destruct (str_eqb key (L "Opening")) eqn:HO.
  { apply str_eqb_eq in HO. subst key.
    rewrite tag_value_line by assumption. repeat split. }
  destruct (str_eqb key (L "Result")) eqn:HR.
  { apply str_eqb_eq in HR. subst key.
    rewrite tag_value_line by assumption. repeat split. }
  repeat split.
Qed.

Lemma startswith_head (s w : str) (c : ascii) :
  startswith s (c :: w) = true -> startswith s [c] = true.
Proof.
  destruct s as [|d s]; [discriminate|]. cbn [startswith].
  intros Hs. apply andb_prop in Hs as [Hc _]. rewrite Hc. now destruct s.
Qed.

(** A line without a bracket at its start changes nothing. *)
Lemma read_tag_line_plain (h : Headers) (line : str) :
  startswith (strip line) (L "[") = false -> read_tag_line h line = h.
Proof.
  intros Hplain. unfold read_tag_line.
  assert (Hno : forall w, startswith (strip line) ("["%char :: w) = false).
  { intros w. apply not_true_iff_false. intros Hs.
    apply startswith_head in Hs. change ["["%char] with (L "[") in Hs. congruence. }
  change (L "[White ") with ("["%char :: L "White ").
  change (L "[Black ") with ("["%char :: L "Black ").
  change (L "[WhiteElo ") with ("["%char :: L "WhiteElo ").
  change (L "[BlackElo ") with ("["%char :: L "BlackElo ").
  change (L "[Opening ") with ("["%char :: L "Opening ").
  change (L "[Result ") with ("["%char :: L "Result ").
  now rewrite !Hno.
Qed.

Lemma read_tag_lines : forall tags h,
  Forall tag_ok tags ->
  let h' := fold_left read_tag_line (map tag_line tags) h in
  white_name h' = default (white_name h) (last_value (L "White") tags)
  /\ black_name h' = default (black_name h) (last_value (L "Black") tags)
  /\ opening h' = match last_value (L "Opening") tags with
                  | Some v => Some v
                  | None => opening h
                  end
  /\ result_word h' = match last_value (L "Result") tags with
                      | Some v => result_of v
                      | None => result_word h
                      end.
Proof.
  induction tags as [|[key value] tags IH]; intros h Hall; [now repeat split|].
  inversion Hall as [|? ? Htag Hrest]; subst.
  cbv zeta. cbn [map fold_left last_value].
  destruct (IH (read_tag_line h (tag_line (key, value))) Hrest)
    as (Hw & Hb & Ho & Hr).
  destruct (read_tag_line_tag h key value Htag) as (Hw1 & Hb1 & Ho1 & Hr1).
  cbv zeta in Hw, Hb, Ho, Hr, Hw1, Hb1, Ho1, Hr1.
  rewrite Hw, Hb, Ho, Hr, Hw1, Hb1, Ho1, Hr1.
  split; [|split; [|split]].
  - destruct (last_value (L "White") tags); [reflexivity|].
    now destruct (str_eqb key (L "White")).
  - destruct (last_value (L "Black") tags); [reflexivity|].
    now destruct (str_eqb key (L "Black")).
  - destruct (last_value (L "Opening") tags); [reflexivity|].
    now destruct (str_eqb key (L "Opening")).
  - destruct (last_value (L "Result") tags); [reflexivity|].
    now destruct (str_eqb key (L "Result")).
Qed.

Lemma read_plain_lines : forall body h,
  Forall plain_line body -> fold_left read_tag_line body h = h.
Proof.
  induction body as [|line body IH]; intros h Hall; [reflexivity|].
  inversion Hall as [|? ? [Hline _] Hrest]; subst.
  cbn [fold_left]. rewrite read_tag_line_plain by exact Hline. now apply IH.
Qed.

Lemma tag_line_one_line (tag : str * str) :
  tag_ok tag -> forallb (fun c => negb (is_char newline c)) (tag_line tag) = true.
Proof.
  intros (Hkey & _ & Hvalue). destruct (value_no_quote _ Hvalue) as [_ Hn].
  unfold tag_line. cbn [forallb]. rewrite !forallb_app, Hn.
  assert (Hk : forallb (fun c => negb (is_char newline c)) (fst tag) = true).
  { unfold no_space in Hkey. rewrite forallb_forall in Hkey.
    apply forallb_forall. intros c Hin. specialize (Hkey c Hin).
    apply negb_true_iff. apply negb_true_iff in Hkey.
    destruct (is_char newline c) eqn:Hc; [|reflexivity].
    apply Ascii.eqb_eq in Hc. subst c. discriminate Hkey. }
  rewrite Hk. reflexivity.
Qed.

(** X27. A PGN made of tag lines followed by lines of move text is read
    back: the names of the players are the values of the last White and
    Black tags (Unknown without one), the opening is the value of the last
    Opening tag, and the result is the word for the value of the last
    Result tag, [*] without one or for any value other than the three
    result tokens. *)
Theorem headers_read_back `{ChessLib} (game_id : str) (tags : list (str * str))
    (body : list str) :
  Forall tag_ok tags -> Forall plain_line body ->
  let data := game_data_of_pgn game_id (join_lines (map tag_line tags ++ body)) in
  username (gd_white data) = default (L "Unknown") (last_value (L "White") tags)
  /\ username (gd_black data) = default (L "Unknown") (last_value (L "Black") tags)
  /\ gd_opening data = last_value (L "Opening") tags
  /\ gd_result data = match last_value (L "Result") tags with
                      | Some v => result_of v
                      | None => L "*"
                      end.
Proof.
  intros Htags Hbody. cbv zeta. unfold game_data_of_pgn.
  cbn [gd_white gd_black gd_opening gd_result username].
  unfold read_headers.
  set (h0 := mkHeaders (L "Unknown") (L "Unknown") None None None (L "*")).
  assert (Hfold : fold_left read_tag_line
                    (split_on newline (join_lines (map tag_line tags ++ body))) h0
                  = fold_left read_tag_line (map tag_line tags ++ body) h0).
  { assert (Hall : Forall (fun l => forallb (fun c => negb (is_char newline c)) l
                                    = true)
                     (map tag_line tags ++ body)).
    { apply Forall_app. split.
      - apply Forall_forall. intros l Hl. apply list_elem_of_In in Hl.
        apply in_map_iff in Hl as (tag & <- & Hin).
        apply tag_line_one_line. rewrite Forall_forall in Htags.
        apply Htags. now apply list_elem_of_In.
      - eapply Forall_impl; [exact Hbody|]. now intros l [_ Hl]. }
    destruct (map tag_line tags ++ body) as [|line lines]; [reflexivity|].
    now rewrite split_join_lines. }
  rewrite Hfold, fold_left_app, read_plain_lines by exact Hbody.
  destruct (read_tag_lines tags h0 Htags) as (Hw & Hb & Ho & Hr).
  cbv zeta in Hw, Hb, Ho, Hr. rewrite Hw, Hb, Ho, Hr. subst h0.
  cbn [white_name black_name opening result_word].
  split; [reflexivity|]. split; [reflexivity|]. split; [|reflexivity].
  now destruct (last_value (L "Opening") tags).
Qed.

Lemma headers_read_back_witness :
  let data :=
    @game_data_of_pgn MiniChess (L "q7ZvsdUF")
      (join_lines
         (map tag_line
            [(L "Event", L "Rated Blitz game"); (L "White", L "alice");
             (L "Black", L "Bob B"); (L "Result", L "0-1");
             (L "WhiteElo", L "1500")]
          ++ [[]; L "1. e4 e5 0-1"])) in
  username (gd_white data) = L "alice"
  /\ username (gd_black data) = L "Bob B"
  /\ gd_opening data = None
  /\ gd_result data = L "black".
Proof.
  cbv zeta.
  apply (@headers_read_back MiniChess (L "q7ZvsdUF")
           [(L "Event", L "Rated Blitz game"); (L "White", L "alice");
            (L "Black", L "Bob B"); (L "Result", L "0-1");
            (L "WhiteElo", L "1500")]
           [[]; L "1. e4 e5 0-1"]).
  - repeat constructor; try discriminate.
  - repeat constructor.
Defined.
